(** * A shallow embedding of parts of SUMO's OpenDRIVE importer
    (src/netimport/NIImporter_OpenDrive.cpp).

    Doubles are modelled as rationals [Q]: the properties proved here are
    about the branching structure of the importer, with arithmetic done
    exactly.  Strings are [String.string]; [std::map]s keyed by id are
    association lists in key order; [std::set]s of connections are lists. *)

From Stdlib Require Import String Ascii List Bool ZArith QArith Qround Qminmax Qabs Lia.
From Stdlib Require Import Sorting.Sorted Numbers.DecimalString Lqa.
Import ListNotations.
Open Scope string_scope.

(* ------------------------------------------------------------------ *)
(** ** Identifiers *)

Module Ids.

(** [NIImporter_OpenDrive::revertID]: [id[0] == '-'] strips the sign,
    otherwise a '-' is prepended.  On the empty string, [id[0]] is the
    terminating NUL of [std::string], which is not '-'. *)
Definition revertID (id : string) : string :=
  match id with
  | String c rest => if Ascii.eqb c "-"%char then rest else "-" ++ id
  | EmptyString => "-" ++ id
  end.

End Ids.

(* ------------------------------------------------------------------ *)
(** ** Parsing of <speed> entries (myStartElement, OPENDRIVE_TAG_SPEED) *)

Module SpeedParse.

(** The unit conversion of [myStartElement]: [unit] is read with
    [getOpt<std::string>(..., "")], so a missing attribute is [""]. *)
Definition convertSpeed (speed : Q) (unitAttr : option string) : Q :=
  let unit := match unitAttr with Some u => u | None => "" end in
  if negb (String.eqb unit "") then
    let speed1 := if String.eqb unit "km/h" then speed / (36 # 10) else speed in
    let speed2 := if String.eqb unit "mph"
                  then speed1 * ((1609344 # 1000000) / (36 # 10)) else speed1 in
    speed2
  else speed.

(** The entry appended to the current lane's [speeds] vector. *)
Definition parseSpeed (speeds : list (Q * Q)) (maxAttr sOffsetAttr : Q)
    (unitAttr : option string) : list (Q * Q) :=
  speeds ++ [(sOffsetAttr, convertSpeed maxAttr unitAttr)].

End SpeedParse.

(* ------------------------------------------------------------------ *)
(** ** Edge identifiers built by loadNetwork's edge-building loop *)

Module EdgeEmitter.

(** Nodes are compared by pointer in the source.  Nodes taken from the
    node container are identified by their id; the nodes built between
    lane sections ([new NBNode(e->id + "." + toString(nextS), ...)]) are
    fresh objects, distinct from every node the road had before. *)
Inductive NodeRef :=
  | ContNode (id : string)
  | SplitNode (id : string).

Definition node_eqb (a b : NodeRef) : bool :=
  match a, b with
  | ContNode x, ContNode y => String.eqb x y
  | SplitNode x, SplitNode y => String.eqb x y
  | _, _ => false
  end.

(** The fields of [OpenDriveLaneSection] the loop reads. *)
Record LaneSection := mkLaneSection {
  s : Q;
  rightLaneNumber : Z;
  leftLaneNumber : Z
}.

(** The fields of [OpenDriveEdge] the loop reads; [from]/[to] are the node
    ids assigned by node building, [geomSize] is [e->geom.size()]. *)
Record Road := mkRoad {
  id : string;
  from : string;
  to : string;
  length : Q;
  geomSize : nat;
  laneSections : list LaneSection
}.

(** The options the loop depends on; [splitMinWidths] is the Pass B
    rewrite of the section list, applied when [myMinWidth > 0]. *)
Record Config := mkConfig {
  myMinWidth : Q;
  splitMinWidths : Road -> list LaneSection -> list LaneSection
}.

Section Emit.

(** [toString(double)] of SUMO's ToString.h (not part of this importer). *)
Variable toString : Q -> string.

(** One iteration per lane section: the [sTo] node, the id with its
    suffix, then the right edge ["-" + id] and the left edge [id] when
    the direction has lanes. [nsec] is [e->laneSections.size()]. *)
Fixpoint emitSections (e : Road) (nsec : nat) (sFrom : NodeRef)
    (secs : list LaneSection) : list string :=
  match secs with
  | [] => []
  | sec :: rest =>
      let sTo := match rest with
                 | [] => ContNode (to e)
                 | nxt :: _ => SplitNode (id e ++ "." ++ toString (s nxt))
                 end in
      let eid :=
        if negb (node_eqb sFrom (ContNode (from e)))
           || negb (node_eqb sTo (ContNode (to e)))
        then id e ++ "." ++ toString (s sec)
        else if Nat.eqb nsec 1 then id e ++ ".0.00"
        else id e in
      (if Z.ltb 0 (rightLaneNumber sec) then ["-" ++ eid] else [])
      ++ (if Z.ltb 0 (leftLaneNumber sec) then [eid] else [])
      ++ emitSections e nsec sTo rest
  end.

(** The lane sections as the loop sees them: a single-section loop road
    is split at [length / 2], then [splitMinWidths] runs if enabled. *)
Definition sectionsAtEmission (cfg : Config) (e : Road) : list LaneSection :=
  let secs :=
    match laneSections e with
    | [ls] => if String.eqb (from e) (to e)
              then [ls; mkLaneSection (length e / 2) (rightLaneNumber ls) (leftLaneNumber ls)]
              else [ls]
    | secs => secs
    end in
  if Qlt_le_dec 0 (myMinWidth cfg) then splitMinWidths cfg e secs else secs.

(** The ids of the edges built for one outer road, in insertion order. *)
Definition edgeIds (cfg : Config) (e : Road) : list string :=
  if Nat.ltb (geomSize e) 2 then []
  else let secs := sectionsAtEmission cfg e in
       emitSections e (List.length secs) (ContNode (from e)) secs.

End Emit.

Definition Zstr (z : Z) : string := NilEmpty.string_of_int (Z.to_int z).

(** Modelled from the spec ("suffixed with the section start arclength
    .<s>"): [toString(double)] of ToString.h (not under src/), written
    with two decimals after the point, as the literal [".0.00"] of the
    single-section case shows; halves of the last digit round up. *)
Definition toString2 (q : Q) : string :=
  let c := Qfloor (q * 100 + (1 # 2)) in
  let a := Z.abs c in
  (if Z.ltb c 0 then "-" else "") ++ Zstr (a / 100) ++ "."
  ++ (if Z.ltb (a mod 100) 10 then "0" else "") ++ Zstr (a mod 100).

End EdgeEmitter.

(* ------------------------------------------------------------------ *)
(** ** Node synthesis for outer-to-outer links (loadNetwork, nodes#2) *)

Module Topology.

Inductive LinkType := OPENDRIVE_LT_SUCCESSOR | OPENDRIVE_LT_PREDECESSOR.
Inductive ElementType := OPENDRIVE_ET_UNKNOWN | OPENDRIVE_ET_ROAD | OPENDRIVE_ET_JUNCTION.
Inductive ContactPoint := OPENDRIVE_CP_UNKNOWN | OPENDRIVE_CP_START | OPENDRIVE_CP_END.

Definition isRoad (t : ElementType) : bool :=
  match t with OPENDRIVE_ET_ROAD => true | _ => false end.

Record OpenDriveLink := mkLink {
  linkType : LinkType;
  elementType : ElementType;
  elementID : string;
  contactPoint : ContactPoint
}.

(** An outer road of [outerEdges]: its id and its links. *)
Record OuterEdge := mkOuter {
  eid : string;
  links : list OpenDriveLink
}.

(** Node container (ids of inserted nodes) and the [from]/[to] node of
    every road, by road id ([nullptr] as [None]). *)
Record TState := mkTState {
  nodes : list string;
  fromN : string -> option string;
  toN : string -> option string
}.

Definition retrieve (st : TState) (nid : string) : bool :=
  existsb (String.eqb nid) (nodes st).

Definition upd (f : string -> option string) (k : string) (v : string)
    : string -> option string :=
  fun x => if String.eqb x k then Some v else f x.

Definition opt_neqb (o : option string) (v : string) : bool :=
  match o with Some n => negb (String.eqb n v) | None => false end.

(** [setNodeSecure]: [None] is the [ProcessError] thrown on a missing
    node or on an endpoint already bound to a different node. *)
Definition setNodeSecure (st : TState) (e : string) (nodeID : string)
    (lt : LinkType) : option TState :=
  if negb (retrieve st nodeID) then None
  else match lt with
       | OPENDRIVE_LT_SUCCESSOR =>
           if opt_neqb (toN st e) nodeID then None
           else Some (mkTState (nodes st) (fromN st) (upd (toN st) e nodeID))
       | OPENDRIVE_LT_PREDECESSOR =>
           if opt_neqb (fromN st e) nodeID then None
           else Some (mkTState (nodes st) (upd (fromN st) e nodeID) (toN st))
       end.

(** [id1 = e->id; id2 = l.elementID; if (id1 < id2) swap; nid = id1 + "." + id2]. *)
Definition synthNodeId (e target : string) : string :=
  let '(id1, id2) := if String.ltb e target then (target, e) else (e, target) in
  id1 ++ "." ++ id2.

Definition isInnerId (edge2junction : list (string * string)) (x : string) : bool :=
  existsb (fun p => String.eqb (fst p) x) edge2junction.

(** The body of the inner loop of nodes#2 for link [l] of road [e]. *)
Definition linkStep (edge2junction : list (string * string)) (e : string)
    (st : TState) (l : OpenDriveLink) : option TState :=
  if negb (isRoad (elementType l)) || isInnerId edge2junction (elementID l) then Some st
  else
    let nid := synthNodeId e (elementID l) in
    let st' := if retrieve st nid then st
               else mkTState (nodes st ++ [nid])%list (fromN st) (toN st) in
    setNodeSecure st' e nid (linkType l).

Fixpoint linksLoop (edge2junction : list (string * string)) (e : string)
    (st : TState) (ls : list OpenDriveLink) : option TState :=
  match ls with
  | [] => Some st
  | l :: rest =>
      match linkStep edge2junction e st l with
      | Some st' => linksLoop edge2junction e st' rest
      | None => None
      end
  end.

(** nodes#2: all outer edges, in the key order of [outerEdges]. *)
Fixpoint buildNodes2 (edge2junction : list (string * string)) (st : TState)
    (outer : list OuterEdge) : option TState :=
  match outer with
  | [] => Some st
  | e :: rest =>
      match linksLoop edge2junction (eid e) st (links e) with
      | Some st' => buildNodes2 edge2junction st' rest
      | None => None
      end
  end.

End Topology.

(* ------------------------------------------------------------------ *)
(** ** Concatenation of segment discretisations (computeShapes) *)

Module Geometry.

Record Position := mkPos { px : Q; py : Q }.

(** [POSITION_EPS] of SUMO's StdDefs.h. *)
Definition POSITION_EPS : Q := 1 # 10.

(** Modelled from the spec: [Position::almostSame] (utils/geom, not part of
    this importer), "Euclidean distance at most epsilon", with the
    squared distance compared against the squared epsilon. *)
Definition almostSame (p q : Position) : bool :=
  let dx := px p - px q in
  let dy := py p - py q in
  Qle_bool (dx * dx + dy * dy) (POSITION_EPS * POSITION_EPS).

(** [Position::operator==]: exact equality of the coordinates. *)
Definition pos_eqb (p q : Position) : bool :=
  Qeq_bool (px p) (px q) && Qeq_bool (py p) (py q).

(** Modelled from the spec ("avoid a duplicate vertex"):
    [PositionVector::push_back_noDoublePos] appends unless the polyline's
    last vertex is [almostSame] to the new one. *)
Definition push_back_noDoublePos (v : list Position) (p : Position) : list Position :=
  match rev v with
  | b :: _ => if almostSame b p then v else (v ++ [p])%list
  | [] => [p]
  end.

Inductive GeometryType :=
  | OPENDRIVE_GT_UNKNOWN | OPENDRIVE_GT_LINE | OPENDRIVE_GT_SPIRAL
  | OPENDRIVE_GT_ARC | OPENDRIVE_GT_POLY3 | OPENDRIVE_GT_PARAMPOLY3.

Definition isLine (t : GeometryType) : bool :=
  match t with OPENDRIVE_GT_LINE => true | _ => false end.

Record OpenDriveGeometry := mkGeom {
  g_length : Q;
  g_s : Q;
  g_x : Q;
  g_y : Q;
  g_hdg : Q;
  g_type : GeometryType;
  g_params : list Q
}.

Inductive Warning :=
  | SpiralWarning            (* "Could not compute spiral geometry ..." *)
  | MismatchedGeometry (i j : nat).  (* between segments i and j *)

(** The discretisers whose output relies on trigonometry and on the Fresnel
    kernel [odrSpiral]; the claims are about how their results are combined. *)
Record Discretisers := mkDisc {
  geomFromLine : OpenDriveGeometry -> Q -> list Position;
  spiralKernel : OpenDriveGeometry -> Q -> list Position;
  geomFromArc : OpenDriveGeometry -> Q -> list Position;
  geomFromPoly : OpenDriveGeometry -> Q -> list Position;
  geomFromParamPoly : OpenDriveGeometry -> Q -> list Position
}.

Section Shapes.

Variable D : Discretisers.

(** [geomFromSpiral]: the degenerate guard, then the sampled clothoid. *)
Definition geomFromSpiral (g : OpenDriveGeometry) (resolution : Q)
    : list Position * list Warning :=
  let curveStart := nth 0 (g_params g) 0 in
  let curveEnd := nth 1 (g_params g) 0 in
  let cDot := (curveEnd - curveStart) / g_length g in
  if Qeq_bool cDot 0 || Qeq_bool (g_length g) 0 then
    ([mkPos (g_x g) (g_y g)], [SpiralWarning])
  else (spiralKernel D g resolution, []).

(** The [switch (g.type)] of computeShapes ([lineRes] is [res] when the
    road has non-linear elevation, [-1] otherwise). *)
Definition discretise (g : OpenDriveGeometry) (lineRes res : Q)
    : list Position * list Warning :=
  match g_type g with
  | OPENDRIVE_GT_UNKNOWN => ([], [])
  | OPENDRIVE_GT_LINE => (geomFromLine D g lineRes, [])
  | OPENDRIVE_GT_SPIRAL => geomFromSpiral g res
  | OPENDRIVE_GT_ARC => (geomFromArc D g res, [])
  | OPENDRIVE_GT_POLY3 => (geomFromPoly D g res, [])
  | OPENDRIVE_GT_PARAMPOLY3 => (geomFromParamPoly D g res, [])
  end.

Record ShapeState := mkShape {
  geom : list Position;
  prevType : GeometryType;
  last : Position;
  warnings : list Warning
}.

Definition back (v : list Position) : Position := List.last v (mkPos 0 0).

(** The mismatch test [!e.geom.back().almostSame(geom.front())];
    [geom.front()] of an empty discretisation is undefined behaviour in
    the source and is taken as a mismatch here. *)
Definition matchesFront (v seg : list Position) : bool :=
  match seg with
  | p :: _ => almostSame (back v) p
  | [] => false
  end.

(** One iteration of the segment loop, for segment number [index]. *)
Definition shapeStep (st : ShapeState) (index : nat) (seg : list Position)
    (segWarnings : list Warning) (t : GeometryType) : ShapeState :=
  let w1 := (warnings st ++ segWarnings)%list in
  let '(g1, w2) :=
    if Nat.ltb 0 (List.length (geom st)) && isLine (prevType st) then
      (removelast (geom st),
       if matchesFront (geom st) seg then w1
       else (w1 ++ [MismatchedGeometry (index - 1) index])%list)
    else (geom st, w1) in
  mkShape (fold_left push_back_noDoublePos seg g1) t
          (List.last seg (last st)) w2.

Fixpoint shapeLoop (st : ShapeState) (index : nat) (lineRes res : Q)
    (gs : list OpenDriveGeometry) : ShapeState :=
  match gs with
  | [] => st
  | g :: rest =>
      let '(seg, ws) := discretise g lineRes res in
      shapeLoop (shapeStep st index seg ws (g_type g)) (S index) lineRes res rest
  end.

(** The polyline of one road after the segment loop and the length-1 fix-up
    ([if (e.geom.size() == 1 && e.geom.front() != last) push_back(last)]).
    The later steps keep the number of vertices, except
    [removeDoublePoints] (only with [geometry.min-dist] set) and the
    insertion of lane-offset anchors (only with lane offsets); those are
    the hook [postProcess], applied when [needsPost] holds. *)
Definition computeGeom (lineRes res : Q) (gs : list OpenDriveGeometry)
    (needsPost : bool) (postProcess : list Position -> list Position)
    : list Position * list Warning :=
  let st := shapeLoop (mkShape [] OPENDRIVE_GT_UNKNOWN (mkPos 0 0) []) 0 lineRes res gs in
  let g1 := match geom st with
            | [p] => if negb (pos_eqb p (last st)) then [p; last st] else [p]
            | g => g
            end in
  (if needsPost then postProcess g1 else g1, warnings st).

End Shapes.

End Geometry.

(* ------------------------------------------------------------------ *)
(** ** Lane-section reshaping: speed splits and ordering
       (buildSpeedChanges, buildLaneSection, revisitLaneSections) *)

Module Reshaper.

Definition Qltb (x y : Q) : bool := negb (Qle_bool y x).

Record OpenDriveLane := mkLane {
  lid : Z;
  ltype : string;
  speeds : list (Q * Q);   (* (sOffset, speed) as parsed *)
  speed : Q
}.

Definition setLaneSpeed (l : OpenDriveLane) (v : Q) : OpenDriveLane :=
  mkLane (lid l) (ltype l) (speeds l) v.

(** [lanesByDir] restricted to its three keys. *)
Record OpenDriveLaneSection := mkSection {
  s : Q;
  leftLanes : list OpenDriveLane;
  centerLanes : list OpenDriveLane;
  rightLanes : list OpenDriveLane
}.

(** [std::set<double>::insert]: sorted, without duplicates. *)
Fixpoint setInsert (x : Q) (l : list Q) : list Q :=
  match l with
  | [] => [x]
  | y :: r => match Qcompare x y with
              | Eq => l
              | Lt => x :: l
              | Gt => y :: setInsert x r
              end
  end.

(** The collection loop over one lane's [speeds]: every sOffset goes into
    [speedChangePositions], an entry at 0 sets the lane's speed. *)
Definition collectLane (pos : list Q) (l : OpenDriveLane) : list Q * OpenDriveLane :=
  fold_left (fun acc e =>
               let '(ps, ln) := acc in
               (setInsert (fst e) ps,
                if Qeq_bool (fst e) 0 then setLaneSpeed ln (snd e) else ln))
            (speeds l) (pos, l).

Fixpoint collectLanes (pos : list Q) (ls : list OpenDriveLane)
    : list Q * list OpenDriveLane :=
  match ls with
  | [] => (pos, [])
  | l :: rest =>
      let '(pos1, l') := collectLane pos l in
      let '(pos2, rest') := collectLanes pos1 rest in
      (pos2, l' :: rest')
  end.

(** Modelled from the spec ("the matching (sOffset, speed) entry"):
    [same_position_finder] (declared in the header, not under src/)
    matches an entry whose sOffset equals the position. *)
Definition same_position_finder (pos : Q) (e : Q * Q) : bool :=
  Qeq_bool (fst e) pos.

(** The per-lane body of [buildLaneSection]. *)
Definition speedAt (startPos : Q) (l : OpenDriveLane) : OpenDriveLane :=
  match find (same_position_finder startPos) (speeds l) with
  | Some e => setLaneSpeed l (snd e)
  | None => setLaneSpeed l 0
  end.

Definition buildLaneSection (sec : OpenDriveLaneSection) (startPos : Q)
    : OpenDriveLaneSection :=
  mkSection (s sec + startPos) (map (speedAt startPos) (leftLanes sec))
            (centerLanes sec) (map (speedAt startPos) (rightLanes sec)).

Section Propagate.

(** [tc.getSpeed(type)] of the type catalogue. *)
Variable getSpeed : string -> Q.

(** The body of the propagation loop for lane [j] of one direction;
    [prev] is that direction of [newSections[i - 1]], if [i > 0].  For
    [i == 0] the source evaluates [tc.getSpeed(l.type);] as a statement. *)
Definition propagateLane (prev : option (list OpenDriveLane)) (j : nat)
    (l : OpenDriveLane) : OpenDriveLane :=
  if negb (Qeq_bool (speed l) 0) then l
  else match prev with
       | Some pl => setLaneSpeed l (speed (nth j pl l))
       | None => let _ := getSpeed (ltype l) in l
       end.

Fixpoint propagateLanes (prev : option (list OpenDriveLane)) (j : nat)
    (ls : list OpenDriveLane) : list OpenDriveLane :=
  match ls with
  | [] => []
  | l :: rest => propagateLane prev j l :: propagateLanes prev (S j) rest
  end.

Definition propagateSection (prev : option OpenDriveLaneSection)
    (ls : OpenDriveLaneSection) : OpenDriveLaneSection :=
  mkSection (s ls)
    (propagateLanes (option_map leftLanes prev) 0 (leftLanes ls))
    (propagateLanes (option_map centerLanes prev) 0 (centerLanes ls))
    (propagateLanes (option_map rightLanes prev) 0 (rightLanes ls)).

(** Sections are updated in place in order, so section [i] reads the
    already propagated section [i - 1]. *)
Fixpoint propagate (prev : option OpenDriveLaneSection)
    (secs : list OpenDriveLaneSection) : list OpenDriveLaneSection :=
  match secs with
  | [] => []
  | ls :: rest =>
      let ls' := propagateSection prev ls in ls' :: propagate (Some ls') rest
  end.

(** [buildSpeedChanges]: the returned flag, [newSections], and [*this]
    after the collection loop (which writes the speeds of entries at 0). *)
Definition buildSpeedChanges (sec : OpenDriveLaneSection)
    : bool * list OpenDriveLaneSection * OpenDriveLaneSection :=
  let '(pos1, right') := collectLanes [] (rightLanes sec) in
  let '(pos2, left') := collectLanes pos1 (leftLanes sec) in
  let this := mkSection (s sec) left' (centerLanes sec) right' in
  match pos2 with
  | [] => (false, [], this)
  | p0 :: _ =>
      let pos3 := if Qltb 0 p0 then setInsert 0 pos2 else pos2 in
      let newSections :=
        match pos3 with
        | [] => []
        | _ :: rest => this :: map (buildLaneSection this) rest
        end in
      (true, propagate None newSections, this)
  end.

(** The speed split of revisitLaneSections. *)
Definition splitBySpeed (secs : list OpenDriveLaneSection) : list OpenDriveLaneSection :=
  flat_map (fun sec => let '(split, ns, this) := buildSpeedChanges sec in
                       if split then ns else [this]) secs.

End Propagate.

(** The order check: any section with [s <= lastS] clears [sorted]. *)
Fixpoint sortedFrom (lastS : Q) (secs : list OpenDriveLaneSection) : bool :=
  match secs with
  | [] => true
  | j :: rest => if Qle_bool (s j) lastS then false else sortedFrom (s j) rest
  end.

(** Modelled from the spec ("warn and sort"): [std::sort] with
    [sections_by_s_sorter] (declared in the header, not under src/),
    ordering sections by [s]; any sorting algorithm yields the same
    sequence of [s] values, here insertion sort. *)
Fixpoint insertByS (x : OpenDriveLaneSection) (l : list OpenDriveLaneSection)
    : list OpenDriveLaneSection :=
  match l with
  | [] => [x]
  | y :: r => if Qltb (s y) (s x) then y :: insertByS x r else x :: l
  end.

Fixpoint sortByS (l : list OpenDriveLaneSection) : list OpenDriveLaneSection :=
  match l with
  | [] => []
  | x :: r => insertByS x (sortByS r)
  end.

(** The duplicate loop: [lastS] follows every visited section, also the
    erased ones; near duplicates are erased only on outer roads. *)
Fixpoint removeDuplicates (isInner : bool) (lastS : Q)
    (secs : list OpenDriveLaneSection) : list OpenDriveLaneSection :=
  match secs with
  | [] => []
  | j :: rest =>
      let simlarToLast := Qltb (Qabs (s j - lastS)) Geometry.POSITION_EPS in
      if simlarToLast && negb isInner then removeDuplicates isInner (s j) rest
      else j :: removeDuplicates isInner (s j) rest
  end.

(** revisitLaneSections for one road. *)
Definition revisitLaneSections (getSpeed : string -> Q) (isInner : bool)
    (secs : list OpenDriveLaneSection) : list OpenDriveLaneSection :=
  let newSections := splitBySpeed getSpeed secs in
  let sorted := if sortedFrom (-1) newSections then newSections
                else sortByS newSections in
  removeDuplicates isInner (-1) sorted.

End Reshaper.

(* ------------------------------------------------------------------ *)
(** ** Lane attributes (setLaneAttributes) *)

Module LaneAttributes.

Import Reshaper (Qltb).

(** Bits of SUMO's [SUMOVehicleClass] (utils/common/SUMOVehicleClass.h). *)
Definition SVC_EMERGENCY : Z := Z.shiftl 1 1.
Definition SVC_AUTHORITY : Z := Z.shiftl 1 2.
Definition SVC_PASSENGER : Z := Z.shiftl 1 6.

(** [NBEdge::UNSPECIFIED_WIDTH]. *)
Definition UNSPECIFIED_WIDTH : Q := -1.

(** What [NBTypeCont] answers for one lane type. *)
Record TypeInfo := mkTypeInfo {
  getSpeed : Q;
  getPermissions : Z;
  getWidth : Q;
  getWidthResolution : Q;
  getMaxWidth : Q
}.

(** The fields of [OpenDriveLane] read here. *)
Record ODLane := mkODLane {
  od_type : string;
  od_speed : Q;
  od_width : Q
}.

(** The fields of [NBEdge::Lane] written here. *)
Record SumoLane := mkSumoLane {
  lane_speed : Q;
  permissions : Z;
  width : Q
}.

(** [myImportWidths && odLane.width != UNSPECIFIED_WIDTH ? odLane.width
    : tc.getWidth(odLane.type)]. *)
Definition assignedWidth (myImportWidths : bool) (tc : string -> TypeInfo)
    (odLane : ODLane) : Q :=
  if myImportWidths && negb (Qeq_bool (od_width odLane) UNSPECIFIED_WIDTH)
  then od_width odLane else getWidth (tc (od_type odLane)).

(** [forbiddenNarrow], computed on the width before quantisation. *)
Definition forbiddenNarrow (myImportWidths : bool) (myMinWidth : Q)
    (tc : string -> TypeInfo) (odLane : ODLane) : bool :=
  let ti := tc (od_type odLane) in
  let w := assignedWidth myImportWidths tc odLane in
  Qltb w myMinWidth
  && negb (Z.eqb (Z.land (getPermissions ti) SVC_PASSENGER) 0)
  && Qltb w (getWidth ti).

(** [floor(width / widthResolution + 0.5) * widthResolution]. *)
Definition quantise (w widthResolution : Q) : Q :=
  inject_Z (Qfloor (w / widthResolution + (1 # 2))) * widthResolution.

(** [setLaneAttributes] (the origID parameter is left out). *)
Definition setLaneAttributes (myImportWidths : bool) (myMinWidth : Q)
    (tc : string -> TypeInfo) (odLane : ODLane) : SumoLane :=
  let ti := tc (od_type odLane) in
  let speed := if negb (Qeq_bool (od_speed odLane) 0) then od_speed odLane
               else getSpeed ti in
  let perms := getPermissions ti in
  let width0 := assignedWidth myImportWidths tc odLane in
  let widthResolution := getWidthResolution ti in
  let maxWidth := getMaxWidth ti in
  let narrow := forbiddenNarrow myImportWidths myMinWidth tc odLane in
  let width1 :=
    if Qle_bool 0 width0 && Qltb 0 widthResolution then
      let q := quantise width0 widthResolution in
      if narrow && Qle_bool myMinWidth q then
        let q' := q - widthResolution in
        if Qle_bool q' 0
        then Qmax Geometry.POSITION_EPS (myMinWidth - Geometry.POSITION_EPS)
        else q'
      else if Qeq_bool q 0 then widthResolution
      else q
    else width0 in
  let width2 := if Qltb 0 maxWidth then Qmin width1 maxWidth else width1 in
  let perms' := if narrow then Z.lor SVC_EMERGENCY SVC_AUTHORITY else perms in
  mkSumoLane speed perms' width2.

End LaneAttributes.

(* ------------------------------------------------------------------ *)
(** ** Flattening of connections across junctions
       (buildConnectionsToOuter, laneSectionsConnected, loadNetwork) *)

Module Flattener.

Import Topology (ContactPoint).

Record Connection := mkConn {
  fromEdge : string;
  toEdge : string;
  fromLane : Z;
  toLane : Z;
  fromCP : ContactPoint;
  toCP : ContactPoint;
  all : bool;
  origID : string;
  origLane : Z;
  shape : list Geometry.Position
}.

(** Two connections are the same element of a [std::set<Connection>]
    iff neither is smaller in the order (fromEdge, toEdge, fromLane, toLane). *)
Definition sameConn (a b : Connection) : bool :=
  String.eqb (fromEdge a) (fromEdge b) && String.eqb (toEdge a) (toEdge b)
  && Z.eqb (fromLane a) (fromLane b) && Z.eqb (toLane a) (toLane b).

Definition seenCount (seen : list Connection) (c : Connection) : bool :=
  existsb (sameConn c) seen.

Definition seenInsert (c : Connection) (seen : list Connection) : list Connection :=
  if seenCount seen c then seen else c :: seen.

Record FLane := mkFLane { fl_id : Z; fl_successor : Z }.

(** [lanesByDir.find(RIGHT / LEFT)], [None] for a missing key. *)
Record FSection := mkFSection {
  fs_right : option (list FLane);
  fs_left : option (list FLane)
}.

Record ODEdge := mkODEdge {
  od_id : string;
  isInner : bool;
  connections : list Connection;
  od_sections : list FSection;
  od_geom : list Geometry.Position
}.

Fixpoint lookup (m : list (string * ODEdge)) (k : string) : option ODEdge :=
  match m with
  | [] => None
  | (k', v) :: rest => if String.eqb k' k then Some v else lookup rest k
  end.

Definition followLanes (lanes : option (list FLane)) (inLane : Z) : Z :=
  match lanes with
  | Some ls => fold_left (fun i l => if Z.eqb (fl_id l) i then fl_successor l else i) ls inLane
  | None => inLane
  end.

(** [laneSectionsConnected]: with several sections, [in] is rewritten by
    every section but the last, right lanes first. *)
Definition laneSectionsConnected (edge : ODEdge) (inLane outLane : Z) : bool :=
  match od_sections edge with
  | [_] => Z.eqb inLane outLane
  | secs =>
      let inLane' := fold_left (fun i sec => followLanes (fs_left sec) (followLanes (fs_right sec) i))
                               (removelast secs) inLane in
      Z.eqb inLane' outLane
  end.

Section Flatten.

Variable innerEdges : list (string * ODEdge).
Variable myImportInternalShapes : bool.
(** [PositionVector::operator+] and the internal-shape block computing
    [cn.shape] from [c], [*i] and [dest] (geometry with [move2side]). *)
Variable shapePlus : list Geometry.Position -> list Geometry.Position -> list Geometry.Position.
Variable internalShape : Connection -> Connection -> ODEdge -> list Geometry.Position.

(** [cn = *j] (or [*i]) with the outer-side fields of [c]. *)
Definition withOrigin (c j : Connection) (oid : string) (olane : Z)
    (shp : list Geometry.Position) : Connection :=
  mkConn (fromEdge c) (toEdge j) (fromLane c) (toLane j) (fromCP c) (toCP j)
         (all c) oid olane shp.

(** [buildConnectionsToOuter c innerEdges into seen], returning [into] and
    [seen].  [seen] is one set shared by the whole walk.  The recursion is
    bounded by [fuel]; each nested call is on a connection not yet in
    [seen], so the walk is finite. *)
Fixpoint buildConnectionsToOuter (fuel : nat) (c : Connection)
    (into seen : list Connection) : list Connection * list Connection :=
  match fuel with
  | O => (into, seen)
  | S fuel' =>
      match lookup innerEdges (toEdge c) with
      | None => (into, seen)
      | Some dest =>
          fold_left
            (fun acc i =>
               let '(into, seen) := acc in
               match lookup innerEdges (toEdge i) with
               | Some ie =>
                   if negb (seenCount seen i) then
                     let '(t, seen') := buildConnectionsToOuter fuel' i [] seen in
                     ((into ++
                       map (fun j => withOrigin c j (origID j) (origLane j)
                                       (if myImportInternalShapes
                                        then shapePlus (od_geom ie) (shape c)
                                        else shape j)) t)%list, seen')
                   else (into, seen)
               | None =>
                   if laneSectionsConnected dest (toLane c) (fromLane i) then
                     ((into ++ [withOrigin c i (toEdge c) (toLane c)
                                  (if myImportInternalShapes
                                   then internalShape c i dest else shape i)])%list,
                      seen)
                   else (into, seen)
               end)
            (connections dest) (into, seenInsert c seen)
      end
  end.

End Flatten.

Definition isFound (o : option ODEdge) : bool :=
  match o with Some _ => true | None => false end.

Definition innerOf (edges : list (string * ODEdge)) : list (string * ODEdge) :=
  filter (fun p => isInner (snd p)) edges.

Definition walkFuel (edges : list (string * ODEdge)) : nat :=
  S (fold_right (fun p n => Nat.add (List.length (connections (snd p))) n) O edges).

(** The loop of loadNetwork building [connections2]. *)
Definition flattenConnections (myImportInternalShapes : bool)
    (shapePlus : list Geometry.Position -> list Geometry.Position -> list Geometry.Position)
    (internalShape : Connection -> Connection -> ODEdge -> list Geometry.Position)
    (edges : list (string * ODEdge)) : list Connection :=
  let inner := innerOf edges in
  fold_left
    (fun acc p =>
       fold_left
         (fun acc c =>
            if isFound (lookup inner (fromEdge c)) then acc
            else if isFound (lookup inner (toEdge c)) then
              fst (buildConnectionsToOuter inner myImportInternalShapes shapePlus
                     internalShape (walkFuel edges) c acc [])
            else (acc ++ [c])%list)
         (connections (snd p)) acc)
    edges [].

End Flattener.

(* ================================================================== *)
(** * Properties *)

(** * Signals: road priorities and traffic-light placement (loadNetwork) *)
Module Signals.

Import Reshaper (Qltb).

(** The keys of [lanesByDir]. *)
Inductive OpenDriveXMLTag := OPENDRIVE_TAG_LEFT | OPENDRIVE_TAG_CENTER | OPENDRIVE_TAG_RIGHT.

Definition tag_eqb (a b : OpenDriveXMLTag) : bool :=
  match a, b with
  | OPENDRIVE_TAG_LEFT, OPENDRIVE_TAG_LEFT
  | OPENDRIVE_TAG_CENTER, OPENDRIVE_TAG_CENTER
  | OPENDRIVE_TAG_RIGHT, OPENDRIVE_TAG_RIGHT => true
  | _, _ => false
  end.

Record OpenDriveSignal := mkSignal {
  sig_id : string;
  sig_type : string;
  sig_name : string;
  orientation : Z;
  sig_dynamic : bool;
  sig_s : Q
}.

(** [tmp] of getPriority for one signal type. *)
Definition signalTmp (t : string) : Z :=
  let tmp := if String.eqb t "301" || String.eqb t "306" then 2%Z else 1%Z in
  if String.eqb t "205" then 0%Z else tmp.

(** [OpenDriveEdge::getPriority]. *)
Definition getPriority (dir : OpenDriveXMLTag) (signals : list OpenDriveSignal) : Z :=
  fold_left
    (fun prio sg =>
       let tmp := signalTmp (sig_type sg) in
       let prio1 := if negb (Z.eqb tmp 1) && tag_eqb dir OPENDRIVE_TAG_RIGHT
                       && Z.ltb 0 (orientation sg) then tmp else prio in
       if negb (Z.eqb tmp 1) && tag_eqb dir OPENDRIVE_TAG_LEFT
          && Z.ltb (orientation sg) 0 then tmp else prio1)
    signals 1%Z.

(** The section search of the traffic-light loop of loadNetwork: the
    index [k] reached by
    [for (; k != end - 1 && !found;) if (s > k->s && s <= (k+1)->s) found = true; else ++k;]
    over the sections' start positions. *)
Fixpoint tlsSection (x : Q) (secS : list Q) : nat :=
  match secS with
  | a :: ((b :: _) as rest) =>
      if Qltb a x && Qle_bool x b then O else S (tlsSection x rest)
  | _ => O
  end.

(** [id = k->sumoID; if (orientation > 0) id = "-" + id] for a signal
    on a road that was built ([sumoID != ""]). *)
Definition tlsEdgeId (sumoID : string) (sg : OpenDriveSignal) : string :=
  if Z.ltb 0 (orientation sg) then "-" ++ sumoID else sumoID.

(** [std::string::find("->")]. *)
Fixpoint findArrow (s : string) : option nat :=
  match s with
  | EmptyString => None
  | String c rest =>
      if Ascii.eqb c "-"%char then
        match rest with
        | String c' _ => if Ascii.eqb c' ">"%char then Some O
                         else option_map S (findArrow rest)
        | EmptyString => None
        end
      else option_map S (findArrow rest)
  end.

(** [if (id.find("->") != npos) id = id.substr(0, id.find("->"))]. *)
Definition tlsTrim (id : string) : string :=
  match findArrow id with
  | Some n => substring 0 n id
  | None => id
  end.

End Signals.

(** * Parsing helpers of the SAX handler *)
Module Parse.

Import Geometry.

Definition gt_eqb (a b : GeometryType) : bool :=
  match a, b with
  | OPENDRIVE_GT_UNKNOWN, OPENDRIVE_GT_UNKNOWN
  | OPENDRIVE_GT_LINE, OPENDRIVE_GT_LINE
  | OPENDRIVE_GT_SPIRAL, OPENDRIVE_GT_SPIRAL
  | OPENDRIVE_GT_ARC, OPENDRIVE_GT_ARC
  | OPENDRIVE_GT_POLY3, OPENDRIVE_GT_POLY3
  | OPENDRIVE_GT_PARAMPOLY3, OPENDRIVE_GT_PARAMPOLY3 => true
  | _, _ => false
  end.

Inductive ParseError :=
  | MismatchingParanthesis (road : string)  (* "Mismatching paranthesis in geometry definition ..." *)
  | DoubleGeometry (road : string).         (* "Double geometry information ..." *)

Definition setShape (g : OpenDriveGeometry) (type : GeometryType) (vals : list Q)
    : OpenDriveGeometry :=
  mkGeom (g_length g) (g_s g) (g_x g) (g_y g) (g_hdg g) type vals.

(** [addGeometryShape] on [myCurrentEdge.geometries]; [inl] is the
    [ProcessError] thrown. *)
Definition addGeometryShape (roadId : string) (geometries : list OpenDriveGeometry)
    (type : GeometryType) (vals : list Q) : ParseError + list OpenDriveGeometry :=
  match rev geometries with
  | [] => inl (MismatchingParanthesis roadId)
  | lastG :: revInit =>
      if negb (gt_eqb (g_type lastG) OPENDRIVE_GT_UNKNOWN) then inl (DoubleGeometry roadId)
      else inr (rev revInit ++ [setShape lastG type vals])%list
  end.

End Parse.

(** * The order of [Connection] used by [std::set<Connection>] *)
Module ConnOrder.

Import Flattener.

(** [operator<(const Connection&, const Connection&)]. *)
Definition connLt (c1 c2 : Connection) : bool :=
  if negb (String.eqb (fromEdge c1) (fromEdge c2)) then String.ltb (fromEdge c1) (fromEdge c2)
  else if negb (String.eqb (toEdge c1) (toEdge c2)) then String.ltb (toEdge c1) (toEdge c2)
  else if negb (Z.eqb (fromLane c1) (fromLane c2)) then Z.ltb (fromLane c1) (fromLane c2)
  else Z.ltb (toLane c1) (toLane c2).

End ConnOrder.

(** * Lane sections: lane mapping, inner connections and the min-width split *)
Module Sections.

Import Reshaper (Qltb).
Import Signals (OpenDriveXMLTag, OPENDRIVE_TAG_LEFT, OPENDRIVE_TAG_RIGHT, OPENDRIVE_TAG_CENTER, tag_eqb).

(** [OpenDriveWidth]: a width polynomial anchored at [sOffset]. *)
Record OpenDriveWidth := mkWidth { w_s : Q; w_a : Q; w_b : Q; w_c : Q; w_d : Q }.

(** The fields of [OpenDriveLane] read and written by these functions. *)
Record OpenDriveLane := mkLane {
  l_id : Z;
  l_type : string;
  widthData : list OpenDriveWidth;
  l_width : Q;
  predecessor : Z;
  successor : Z
}.

Definition setPredecessor (l : OpenDriveLane) (p : Z) : OpenDriveLane :=
  mkLane (l_id l) (l_type l) (widthData l) (l_width l) p (successor l).

Definition setWidth (l : OpenDriveLane) (w : Q) : OpenDriveLane :=
  mkLane (l_id l) (l_type l) (widthData l) w (predecessor l) (successor l).

(** A [std::map<int, int>] as an association list without repeated keys. *)
Fixpoint mapFind (m : list (Z * Z)) (k : Z) : option Z :=
  match m with
  | [] => None
  | (k', v) :: rest => if Z.eqb k' k then Some v else mapFind rest k
  end.

(** [m[k] = v]. *)
Fixpoint mapSet (m : list (Z * Z)) (k v : Z) : list (Z * Z) :=
  match m with
  | [] => [(k, v)]
  | (k', v') :: rest => if Z.eqb k' k then (k, v) :: rest else (k', v') :: mapSet rest k v
  end.

Record OpenDriveLaneSection := mkSection {
  s : Q;
  sOrig : Q;
  leftLanes : list OpenDriveLane;
  centerLanes : list OpenDriveLane;
  rightLanes : list OpenDriveLane;
  laneMap : list (Z * Z);
  rightLaneNumber : Z;
  leftLaneNumber : Z;
  rightType : string;
  leftType : string
}.

Definition lanesOf (sec : OpenDriveLaneSection) (dir : OpenDriveXMLTag) : list OpenDriveLane :=
  match dir with
  | OPENDRIVE_TAG_LEFT => leftLanes sec
  | OPENDRIVE_TAG_CENTER => centerLanes sec
  | OPENDRIVE_TAG_RIGHT => rightLanes sec
  end.

Definition withS (sec : OpenDriveLaneSection) (x : Q) : OpenDriveLaneSection :=
  mkSection x (sOrig sec) (leftLanes sec) (centerLanes sec) (rightLanes sec)
            (laneMap sec) (rightLaneNumber sec) (leftLaneNumber sec)
            (rightType sec) (leftType sec).

Definition withLanes (sec : OpenDriveLaneSection) (left right : list OpenDriveLane)
    : OpenDriveLaneSection :=
  mkSection (s sec) (sOrig sec) left (centerLanes sec) right
            (laneMap sec) (rightLaneNumber sec) (leftLaneNumber sec)
            (rightType sec) (leftType sec).

(** [joinToString(types, "|")] of utils/common/ToString.h. *)
Fixpoint joinTypes (types : list string) : string :=
  match types with
  | [] => ""
  | [t] => t
  | t :: rest => t ++ "|" ++ joinTypes rest
  end.

Section Mapping.

(** [myImportAllTypes || (tc.knows(type) && !tc.getShallBeDiscarded(type))]. *)
Variable imported : string -> bool.

(** The loop of buildLaneMapping over the lanes of one direction, in the
    order visited: laneMap, the next SUMO lane index, [types] and
    [singleType]. *)
Definition mapLanes (m : list (Z * Z)) (ls : list OpenDriveLane)
    : list (Z * Z) * Z * list string * bool :=
  fold_left
    (fun acc l =>
       let '(m, sumoLane, types, singleType) := acc in
       if imported (l_type l) then
         let types' := (types ++ [l_type l])%list in
         (mapSet m (l_id l) sumoLane, Z.succ sumoLane, types',
          if negb (String.eqb (hd "" types') (List.last types' "")) then false else singleType)
       else acc)
    ls (m, 0%Z, [], true).

Definition laneTypeName (n : Z) (types : list string) (singleType : bool) : string :=
  if Z.ltb 0 n then (if singleType then hd "" types else joinTypes types) else "".

(** [OpenDriveLaneSection::buildLaneMapping]: right lanes from the last
    (outermost) one, then left lanes from the first. *)
Definition buildLaneMapping (sec : OpenDriveLaneSection) : OpenDriveLaneSection :=
  let '(m1, nR, typesR, singleR) := mapLanes (laneMap sec) (rev (rightLanes sec)) in
  let '(m2, nL, typesL, singleL) := mapLanes m1 (leftLanes sec) in
  mkSection (s sec) (sOrig sec) (leftLanes sec) (centerLanes sec) (rightLanes sec)
            m2 nR nL (laneTypeName nR typesR singleR) (laneTypeName nL typesL singleL).

End Mapping.

Section Inner.

(** [UNSET_CONNECTION] of the importer's header. *)
Variable UNSET_CONNECTION : Z.

(** [OpenDriveLaneSection::getInnerConnections(dir, prev)]. *)
Definition getInnerConnections (sec : OpenDriveLaneSection) (dir : OpenDriveXMLTag)
    (prev : OpenDriveLaneSection) : list (Z * Z) :=
  fold_left
    (fun ret l =>
       match mapFind (laneMap sec) (l_id l) with
       | None => ret
       | Some to =>
           let from := if negb (Z.eqb (predecessor l) UNSET_CONNECTION)
                       then predecessor l else UNSET_CONNECTION in
           let from := if negb (Z.eqb from UNSET_CONNECTION)
                       then match mapFind (laneMap prev) from with
                            | Some f => f
                            | None => UNSET_CONNECTION
                            end
                       else from in
           if negb (Z.eqb from UNSET_CONNECTION) && negb (Z.eqb to UNSET_CONNECTION) then
             let '(from, to) := if tag_eqb dir OPENDRIVE_TAG_LEFT then (to, from) else (from, to) in
             mapSet ret from to
           else ret
       end)
    (rev (lanesOf sec dir)) [].

End Inner.

(** [setStraightConnections]. *)
Definition setStraightConnections (lanes : list OpenDriveLane) : list OpenDriveLane :=
  map (fun l => setPredecessor l (l_id l)) lanes.

(** [std::sort] of the split positions (ascending); the sorted sequence of
    values does not depend on the algorithm, here insertion sort. *)
Fixpoint insertQ (x : Q) (l : list Q) : list Q :=
  match l with
  | [] => [x]
  | y :: r => if Qle_bool x y then x :: l else y :: insertQ x r
  end.

Fixpoint sortQ (l : list Q) : list Q :=
  match l with
  | [] => []
  | x :: r => insertQ x (sortQ r)
  end.

(** The "filter out tiny splits" loop of splitMinWidths, starting with
    [prevSplit = sec.s]. *)
Fixpoint filterSplits (secS sectionEnd minDist prevSplit : Q) (l : list Q) : list Q :=
  match l with
  | [] => []
  | x :: rest =>
      if Qltb (x - prevSplit) minDist || Qltb (sectionEnd - x) minDist
      then filterSplits secS sectionEnd minDist prevSplit rest
      else if Qltb x secS then filterSplits secS sectionEnd minDist prevSplit rest
      else x :: filterSplits secS sectionEnd minDist x rest
  end.

Section Widths.

(** [OpenDriveWidth::computeAt] of the importer's header. *)
Variable computeAt : OpenDriveWidth -> Q -> Q.

(** The end of width entry [it]: the next entry's sOffset, or
    [sectionEnd - sectionStart] for the last one. *)
Definition nextS (rest : list OpenDriveWidth) (dflt : Q) : Q :=
  match rest with
  | n :: _ => w_s n
  | [] => dflt
  end.

(** The loop of [recomputeWidths(lanes, ...)] over the width entries of
    one lane, from [l.width = 0]; [MAX2] is the larger of two values. *)
Fixpoint recomputeLoop (start end_ sectionStart sectionEnd : Q)
    (ws : list OpenDriveWidth) (sPrev sPrevAbs width : Q) : Q :=
  match ws with
  | [] => width
  | it :: rest =>
      let sEnd := nextS rest (sectionEnd - sectionStart) in
      let sEndAbs := sEnd + sectionStart in
      let w1 := if Qle_bool sPrevAbs start && Qle_bool start sEndAbs
                then Qmax width (computeAt it (start - sectionStart)) else width in
      let w2 := if Qle_bool sPrevAbs end_ && Qle_bool end_ sEndAbs
                then Qmax w1 (computeAt it (end_ - sectionStart)) else w1 in
      let w3 := if Qle_bool start sPrevAbs && Qle_bool sPrevAbs end_
                then Qmax w2 (computeAt it sPrev) else w2 in
      let w4 := if Qle_bool start sEndAbs && Qle_bool sEndAbs end_
                then Qmax w3 (computeAt it sEnd) else w3 in
      recomputeLoop start end_ sectionStart sectionEnd rest sEnd sEndAbs w4
  end.

Definition recomputeLane (start end_ sectionStart sectionEnd : Q) (l : OpenDriveLane)
    : OpenDriveLane :=
  match widthData l with
  | [] => l
  | w0 :: _ =>
      setWidth l (recomputeLoop start end_ sectionStart sectionEnd (widthData l)
                    (w_s w0) (w_s w0 + sectionStart) 0)
  end.

(** [recomputeWidths(lanes, start, end, sectionStart, sectionEnd)]. *)
Definition recomputeWidths (lanes : list OpenDriveLane) (start end_ sectionStart sectionEnd : Q)
    : list OpenDriveLane :=
  map (recomputeLane start end_ sectionStart sectionEnd) lanes.

(** [recomputeWidths(sec, ...)]. *)
Definition recomputeWidthsSec (sec : OpenDriveLaneSection) (start end_ sectionStart sectionEnd : Q)
    : OpenDriveLaneSection :=
  withLanes sec
    (if Z.ltb 0 (leftLaneNumber sec)
     then recomputeWidths (leftLanes sec) start end_ sectionStart sectionEnd else leftLanes sec)
    (if Z.ltb 0 (rightLaneNumber sec)
     then recomputeWidths (rightLanes sec) start end_ sectionStart sectionEnd else rightLanes sec).

Variable myMinWidth : Q.
(** [tc.knows(type) && !tc.getShallBeDiscarded(type)]. *)
Variable knownType : string -> bool.
(** [(tc.getPermissions(type) & ~(SVC_PEDESTRIAN | SVC_BICYCLE)) != 0]. *)
Variable vehicleType : string -> bool.

(** Number of refinement steps after which [splitPos] has left
    [[sPrev, sEnd]] in either direction. *)
Definition refineFuel (sPrev sEnd : Q) : nat :=
  S (S (Z.to_nat (Qceiling (Qabs (sEnd - sPrev) / Geometry.POSITION_EPS)))).

(** The [while (wSplit > myMinWidth)] refinement of findWidthSplit. *)
Fixpoint refine (fuel : nat) (it : OpenDriveWidth) (wPrev sPrev sEnd splitPos wSplit : Q) : Q :=
  match fuel with
  | O => splitPos
  | S fuel' =>
      if Qltb myMinWidth wSplit then
        if Qltb wPrev myMinWidth then
          let p := splitPos - Geometry.POSITION_EPS in
          if Qltb p sPrev then sPrev
          else refine fuel' it wPrev sPrev sEnd p (computeAt it p)
        else
          let p := splitPos + Geometry.POSITION_EPS in
          if Qltb sEnd p then sEnd
          else refine fuel' it wPrev sPrev sEnd p (computeAt it p)
      else splitPos
  end.

(** The loop of findWidthSplit over the width entries of one lane,
    returning the split positions pushed, in order. *)
Fixpoint widthSplitLoop (sectionStart sectionEnd : Q) (ws : list OpenDriveWidth)
    (sPrev wPrev : Q) : list Q :=
  match ws with
  | [] => []
  | it :: rest =>
      let sEnd := nextS rest (sectionEnd - sectionStart) in
      let w := computeAt it sEnd in
      let changeDist := Qabs (myMinWidth - wPrev) in
      let here :=
        if (Qltb wPrev myMinWidth && Qltb myMinWidth w)
           || (Qltb myMinWidth wPrev && Qltb w myMinWidth) then
          let splitPos := sPrev + (sEnd - sPrev) / Qabs (w - wPrev) * changeDist in
          [sectionStart + refine (refineFuel sPrev sEnd) it wPrev sPrev sEnd splitPos
                                 (computeAt it splitPos)]
        else [] in
      (here ++ widthSplitLoop sectionStart sectionEnd rest sEnd w)%list
  end.

(** [findWidthSplit] for the lanes of one direction. *)
Definition findWidthSplit (lanes : list OpenDriveLane) (sectionStart sectionEnd : Q) : list Q :=
  flat_map
    (fun l =>
       match widthData l with
       | w0 :: _ =>
           if knownType (l_type l) && vehicleType (l_type l) then
             widthSplitLoop sectionStart sectionEnd (widthData l) (w_s w0) (computeAt w0 (w_s w0))
           else []
       | [] => []
       end)
    lanes.

(** The sections that replace [sec] (ending at [sectionEnd]). *)
Definition splitSection (minDist sectionEnd : Q) (sec : OpenDriveLaneSection)
    : list OpenDriveLaneSection :=
  let splitPositions :=
    ((if Z.ltb 0 (rightLaneNumber sec) then findWidthSplit (rightLanes sec) (sOrig sec) sectionEnd else [])
     ++ (if Z.ltb 0 (leftLaneNumber sec) then findWidthSplit (leftLanes sec) (sOrig sec) sectionEnd else []))%list in
  let kept := filterSplits (s sec) sectionEnd minDist (s sec) (sortQ splitPositions) in
  match kept with
  | [] => [sec]
  | first :: _ =>
      recomputeWidthsSec sec (sOrig sec) first (sOrig sec) sectionEnd
      :: map (fun '(x, end_) =>
                let secNew := withS sec x in
                let secNew := withLanes secNew
                                (if Z.ltb 0 (leftLaneNumber secNew)
                                 then setStraightConnections (leftLanes secNew) else leftLanes secNew)
                                (if Z.ltb 0 (rightLaneNumber secNew)
                                 then setStraightConnections (rightLanes secNew) else rightLanes secNew) in
                recomputeWidthsSec secNew x end_ (sOrig sec) sectionEnd)
             (combine kept (tl kept ++ [sectionEnd])%list)
  end.

(** [splitMinWidths(e, tc, minDist)] on the road's lane sections; the end
    of the last section is the road's [length]. *)
Fixpoint splitMinWidths (minDist length : Q) (secs : list OpenDriveLaneSection)
    : list OpenDriveLaneSection :=
  match secs with
  | [] => []
  | sec :: rest =>
      let sectionEnd := match rest with n :: _ => s n | [] => length end in
      (splitSection minDist sectionEnd sec ++ splitMinWidths minDist length rest)%list
  end.

End Widths.

End Sections.

(** * The elevation and lane-offset passes of computeShapes *)
Module ZPass.

Import Geometry.

(** An [OpenDriveElevation] or [OpenDriveLaneOffset] record: its start
    [s] and its polynomial, evaluated by the header's [computeAt]. *)
Record Poly3 := mkPoly3 { p_s : Q; p_a : Q; p_b : Q; p_c : Q; p_d : Q }.

Section Walk.

(** [Position::distanceTo2D]. *)
Variable distanceTo2D : Position -> Position -> Q.
Variable computeAt : Poly3 -> Q -> Q.

Variable geom : list Position.

(** [pos < sNext], where [None] is [std::numeric_limits<double>::max()],
    above every running position. *)
Definition below (pos : Q) (sNext : option Q) : bool :=
  match sNext with
  | Some x => Reshaper.Qltb pos x
  | None => true
  end.

(** [while (k < (int)e.geom.size() && pos < sNext) { visit(k, pos); k++;
    if (k < size) pos += e.geom[k - 1].distanceTo2D(e.geom[k]); }],
    returning the visited [(k, pos)] and the final [k] and [pos]; [fuel]
    is [size - k], so the guard [k < size] is what stops it. *)
Fixpoint walk (fuel : nat) (sNext : option Q) (k : nat) (pos : Q)
    : list (nat * Q) * nat * Q :=
  match fuel with
  | O => ([], k, pos)
  | S fuel' =>
      if Nat.ltb k (List.length geom) && below pos sNext then
        let k' := S k in
        let pos' := if Nat.ltb k' (List.length geom)
                    then pos + distanceTo2D (nth k geom (mkPos 0 0)) (nth k' geom (mkPos 0 0))
                    else pos in
        let '(vs, k2, p2) := walk fuel' sNext k' pos' in
        ((k, pos) :: vs, k2, p2)
      else ([], k, pos)
  end.

(** The outer loop over the records: each visited vertex index with the
    record used for it and the running position. *)
Fixpoint recordsLoop (els : list Poly3) (k : nat) (pos : Q) : list (Poly3 * nat * Q) :=
  match els with
  | [] => []
  | el :: rest =>
      let sNext := match rest with n :: _ => Some (p_s n) | [] => None end in
      let '(vs, k2, p2) := walk (List.length geom - k) sNext k pos in
      (map (fun '(i, p) => (el, i, p)) vs ++ recordsLoop rest k2 p2)%list
  end.

(** The z-data pass: [e.geom[k].add(0, 0, el.computeAt(pos))] for every
    visited vertex, as the list of (vertex index, added z). *)
Definition elevationAdds (elevations : list Poly3) : list (nat * Q) :=
  map (fun '(el, k, pos) => (k, computeAt el pos)) (recordsLoop elevations 0 0).

(** [tmp = e.geom; tmp.move2side(-offset); tmp[k]], [None] when it throws
    [InvalidArgument]. *)
Variable shiftedAt : Q -> nat -> option Position.

(** The lane-offset pass building [geom2] (on the polyline after the
    intermediate points of the offsets were inserted). *)
Definition offsetGeom (offsets : list Poly3) : list Position :=
  map (fun '(el, k, pos) =>
         let offset := computeAt el pos in
         if Reshaper.Qltb POSITION_EPS (Qabs offset) then
           match shiftedAt (- offset) k with
           | Some p => p
           | None => nth k geom (mkPos 0 0)
           end
         else nth k geom (mkPos 0 0))
      (recordsLoop offsets 0 0).

End Walk.

End ZPass.

(** * Lane continuity across the lane sections of a road *)
Module Connected.

Import Sections.

(** The loop [for (lane : lanes) if (lane.id == in) in = lane.successor;]. *)
Definition followLanes (lanes : list OpenDriveLane) (in_ : Z) : Z :=
  fold_left (fun in_ l => if Z.eqb (l_id l) in_ then successor l else in_) lanes in_.

(** [laneSectionsConnected(edge, in, out)]: every section but the last
    moves [in] along its right lanes, then along its left lanes (both
    entries of [lanesByDir] exist since the section's constructor). With
    no section, the loop [it + 1 < end] has no round. *)
Definition laneSectionsConnected (laneSections : list OpenDriveLaneSection) (in_ out : Z) : bool :=
  if Nat.eqb (List.length laneSections) 1 then Z.eqb in_ out
  else Z.eqb (fold_left (fun in_ sec => followLanes (leftLanes sec) (followLanes (rightLanes sec) in_))
                        (removelast laneSections) in_) out.

End Connected.

Module IdsProofs.

Import Ids.

(** C10 (corrected): revertID undoes itself on every id except those
    starting with two '-'; an id ["--" ++ r] is taken to ["-" ++ r], and
    that one to [r]. *)
Theorem revertID_involutive_unless_double_dash :
  (forall id, (forall r, id <> "--" ++ r) -> revertID (revertID id) = id) /\
  (forall r, revertID ("--" ++ r) = "-" ++ r /\ revertID ("-" ++ r) = r).
Proof.
  split; [|intros r; split; reflexivity].
  intros [|c rest] Hid; simpl; [reflexivity|].
  destruct (Ascii.eqb c "-") eqn:Ec.
  - apply Ascii.eqb_eq in Ec; subst c.
    destruct rest as [|c' rest']; simpl; [reflexivity|].
    destruct (Ascii.eqb c' "-") eqn:Ec'.
    + apply Ascii.eqb_eq in Ec'; subst c'. exfalso; apply (Hid rest'); reflexivity.
    + reflexivity.
  - simpl. reflexivity.
Qed.

Lemma revertID_involutive_unless_double_dash_witness :
  (forall r, "-R.0.00" <> "--" ++ r) /\ revertID (revertID "-R.0.00") = "-R.0.00".
Proof.
  assert (H : forall r, "-R.0.00" <> "--" ++ r) by (intros r; simpl; congruence).
  split; [exact H | apply (proj1 revertID_involutive_unless_double_dash "-R.0.00"); exact H].
Defined.

(** C10 counterexample: ["--a"] is taken to ["-a"] and back to ["a"]. *)
Lemma revertID_not_involutive_cex :
  revertID (revertID "--a") = "a" /\ revertID (revertID "--a") <> "--a".
Proof. split; [reflexivity | discriminate]. Qed.

End IdsProofs.

Module SpeedParseProofs.

Import SpeedParse.

(** C9: the stored speed is the raw value without a unit, divided by 3.6
    for "km/h", multiplied by 1.609344/3.6 for "mph", and the raw value
    for any other unit. *)
Theorem parseSpeed_units : forall speeds v pos,
  parseSpeed speeds v pos None = (speeds ++ [(pos, v)])%list
  /\ parseSpeed speeds v pos (Some "km/h") = (speeds ++ [(pos, v / (36 # 10))])%list
  /\ parseSpeed speeds v pos (Some "mph")
     = (speeds ++ [(pos, v * ((1609344 # 1000000) / (36 # 10)))])%list
  /\ (forall u, u <> "km/h" -> u <> "mph" ->
      parseSpeed speeds v pos (Some u) = (speeds ++ [(pos, v)])%list).
Proof.
  intros speeds v pos; unfold parseSpeed, convertSpeed.
  split; [reflexivity|]. split; [reflexivity|]. split; [reflexivity|].
  intros u H1 H2.
  destruct (String.eqb u "") eqn:E0; simpl; [reflexivity|].
  apply String.eqb_neq in H1, H2. rewrite H1, H2. reflexivity.
Qed.

Lemma parseSpeed_units_witness :
  parseSpeed [] 10 0 (Some "m/s") = [(0, 10)].
Proof.
  destruct (parseSpeed_units [] 10 0) as (_ & _ & _ & H).
  apply H; discriminate.
Defined.

End SpeedParseProofs.

Module EdgeEmitterProofs.

Import EdgeEmitter.

Definition sectionIds (e : Road) (suffix : string) (sec : LaneSection) : list string :=
  app (if Z.ltb 0 (rightLaneNumber sec) then ["-" ++ id e ++ suffix] else [])
      (if Z.ltb 0 (leftLaneNumber sec) then [id e ++ suffix] else []).

Lemma emitSections_from_split (toString : Q -> string) (e : Road) (nsec : nat) :
  forall secs x,
    emitSections toString e nsec (SplitNode x) secs
    = flat_map (fun sec => sectionIds e ("." ++ toString (s sec)) sec) secs.
Proof.
  induction secs as [|sec rest IH]; intros x; [reflexivity|].
  cbn [emitSections flat_map]. unfold sectionIds.
  cbn [node_eqb negb orb].
  destruct rest as [|nxt rest'].
  - cbn [emitSections]. rewrite ?app_nil_r. reflexivity.
  - rewrite IH. rewrite <- ?app_assoc. reflexivity.
Qed.

Lemma emitSections_cons2 (toString : Q -> string) (e : Road) (nsec : nat)
    (sFrom : NodeRef) (sec1 sec2 : LaneSection) (rest : list LaneSection) :
  emitSections toString e nsec sFrom (sec1 :: sec2 :: rest)
  = app (sectionIds e ("." ++ toString (s sec1)) sec1)
        (emitSections toString e nsec (SplitNode (id e ++ "." ++ toString (s sec2)))
                      (sec2 :: rest)).
Proof.
  unfold sectionIds. rewrite <- app_assoc.
  simpl. destruct (negb (node_eqb sFrom (ContNode (from e)))); reflexivity.
Qed.

(** C1 (corrected): a road that reaches the emitter with exactly one lane
    section gets the edges ["-" + id + ".0.00"] (right lanes) and
    [id + ".0.00"] (left lanes); with two or more sections the edges of
    section [j] carry the suffix ["." + toString(s_j)]. *)
Theorem edgeIds_section_suffixes :
  forall (toString : Q -> string) (cfg : Config) (e : Road),
    (2 <= geomSize e)%nat ->
    (forall sec, sectionsAtEmission cfg e = [sec] ->
       edgeIds toString cfg e = sectionIds e ".0.00" sec)
    /\ ((2 <= List.length (sectionsAtEmission cfg e))%nat ->
       edgeIds toString cfg e
       = flat_map (fun sec => sectionIds e ("." ++ toString (s sec)) sec)
                  (sectionsAtEmission cfg e)).
Proof.
  intros toString cfg e Hg.
  unfold edgeIds.
  assert (Hlt : Nat.ltb (geomSize e) 2 = false) by (apply Nat.ltb_ge; exact Hg).
  rewrite Hlt.
  split.
  - intros sec Hs. rewrite Hs. cbn [List.length emitSections Nat.eqb].
    unfold node_eqb. rewrite !String.eqb_refl. cbn [negb orb].
    unfold sectionIds. rewrite !app_nil_r. reflexivity.
  - intros Hlen.
    destruct (sectionsAtEmission cfg e) as [|sec1 [|sec2 rest]] eqn:Hs;
      cbn [List.length] in Hlen; try lia.
    rewrite emitSections_cons2, emitSections_from_split. reflexivity.
Qed.

Definition straightR : Road := mkRoad "R" "R.begin" "R.end" 100 2 [mkLaneSection 0 1 1].
Definition noMinWidth : Config := mkConfig 0 (fun _ secs => secs).

Lemma edgeIds_section_suffixes_witness :
  (2 <= geomSize straightR)%nat
  /\ edgeIds toString2 noMinWidth straightR = ["-R.0.00"; "R.0.00"].
Proof.
  split; [cbn; lia|].
  destruct (edgeIds_section_suffixes toString2 noMinWidth straightR) as [H1 _].
  - cbn; lia.
  - rewrite (H1 (mkLaneSection 0 1 1)); reflexivity.
Defined.

(** C1 counterexample: the straight road R (one section, one lane per
    side, distinct end nodes) gives the edges -R.0.00 and R.0.00, not -R and R. *)
Lemma edgeIds_straight_road_cex :
  edgeIds toString2 noMinWidth straightR = ["-R.0.00"; "R.0.00"]
  /\ edgeIds toString2 noMinWidth straightR <> ["-R"; "R"].
Proof. vm_compute. split; [reflexivity | discriminate]. Qed.

(** The internal edges of a road with two sections use the two-decimal suffix. *)
Example edgeIds_two_sections :
  edgeIds toString2 noMinWidth
    (mkRoad "R" "R.begin" "R.end" 100 2 [mkLaneSection 0 1 1; mkLaneSection 50 1 0])
  = ["-R.0.00"; "R.0.00"; "-R.50.00"].
Proof. vm_compute. reflexivity. Qed.

End EdgeEmitterProofs.

Module TopologyProofs.

Import Topology.

(** Bindings and nodes only accumulate. *)
Definition Pres (st st' : TState) : Prop :=
  (forall x v, toN st x = Some v -> toN st' x = Some v)
  /\ (forall x v, fromN st x = Some v -> fromN st' x = Some v)
  /\ (forall n, retrieve st n = true -> retrieve st' n = true).

Lemma Pres_refl st : Pres st st.
Proof. repeat split; auto. Qed.

Lemma Pres_trans a b c : Pres a b -> Pres b c -> Pres a c.
Proof. intros (H1 & H2 & H3) (G1 & G2 & G3); repeat split; auto. Qed.

Definition endpoint (st : TState) (e : string) (lt : LinkType) : option string :=
  match lt with
  | OPENDRIVE_LT_SUCCESSOR => toN st e
  | OPENDRIVE_LT_PREDECESSOR => fromN st e
  end.

Definition relevant (edge2junction : list (string * string)) (l : OpenDriveLink) : bool :=
  isRoad (elementType l) && negb (isInnerId edge2junction (elementID l)).

Lemma upd_keeps (f : string -> option string) (e n : string) :
  opt_neqb (f e) n = false ->
  forall x v, f x = Some v -> upd f e n x = Some v.
Proof.
  intros Hn x v Hx. unfold upd.
  destruct (String.eqb x e) eqn:Hxe; [|exact Hx].
  apply String.eqb_eq in Hxe; subst x.
  rewrite Hx in Hn; cbn in Hn.
  destruct (String.eqb v n) eqn:Hvn; [|discriminate].
  apply String.eqb_eq in Hvn; subst; reflexivity.
Qed.

Lemma setNodeSecure_spec st e n lt st' :
  setNodeSecure st e n lt = Some st' ->
  Pres st st' /\ retrieve st' n = true /\ endpoint st' e lt = Some n.
Proof.
  unfold setNodeSecure. destruct (retrieve st n) eqn:Hr; cbn [negb]; [|discriminate].
  destruct lt; cbn [endpoint].
  - destruct (opt_neqb (toN st e) n) eqn:Hn; [discriminate|].
    intros H; inversion H; subst st'; clear H.
    unfold Pres, retrieve in *; cbn. repeat split; auto.
    + apply upd_keeps; exact Hn.
    + unfold upd; rewrite String.eqb_refl; reflexivity.
  - destruct (opt_neqb (fromN st e) n) eqn:Hn; [discriminate|].
    intros H; inversion H; subst st'; clear H.
    unfold Pres, retrieve in *; cbn. repeat split; auto.
    + apply upd_keeps; exact Hn.
    + unfold upd; rewrite String.eqb_refl; reflexivity.
Qed.

Lemma linkStep_pres e2j e st l st' :
  linkStep e2j e st l = Some st' -> Pres st st'.
Proof.
  unfold linkStep.
  destruct (negb (isRoad (elementType l)) || isInnerId e2j (elementID l)).
  - intros H; inversion H; apply Pres_refl.
  - intros H; apply setNodeSecure_spec in H; destruct H as [HP _].
    eapply Pres_trans; [|exact HP].
    destruct (retrieve st (synthNodeId e (elementID l))); [apply Pres_refl|].
    unfold Pres, retrieve; cbn. repeat split; auto.
    intros n Hn. rewrite existsb_app, Hn. reflexivity.
Qed.

Lemma linkStep_sets e2j e st l st' :
  relevant e2j l = true -> linkStep e2j e st l = Some st' ->
  retrieve st' (synthNodeId e (elementID l)) = true
  /\ endpoint st' e (linkType l) = Some (synthNodeId e (elementID l)).
Proof.
  unfold relevant, linkStep. intros Hrel.
  destruct (isRoad (elementType l)); [|discriminate].
  destruct (isInnerId e2j (elementID l)); [discriminate|]. cbn [negb orb].
  intros H; apply setNodeSecure_spec in H. destruct H as (_ & H1 & H2); auto.
Qed.

Lemma linksLoop_pres e2j e ls : forall st st',
  linksLoop e2j e st ls = Some st' -> Pres st st'.
Proof.
  induction ls as [|l rest IH]; intros st st' H; cbn in H.
  - inversion H; apply Pres_refl.
  - destruct (linkStep e2j e st l) as [st1|] eqn:Hs; [|discriminate].
    eapply Pres_trans; [eapply linkStep_pres; exact Hs | eapply IH; exact H].
Qed.

Lemma linksLoop_sets e2j e ls : forall st st',
  linksLoop e2j e st ls = Some st' ->
  forall l, In l ls -> relevant e2j l = true ->
  retrieve st' (synthNodeId e (elementID l)) = true
  /\ endpoint st' e (linkType l) = Some (synthNodeId e (elementID l)).
Proof.
  induction ls as [|l0 rest IH]; intros st st' H l Hin Hrel; [destruct Hin|].
  cbn in H. destruct (linkStep e2j e st l0) as [st1|] eqn:Hs; [|discriminate].
  destruct Hin as [<-|Hin]; [|eapply IH; eauto].
  destruct (linkStep_sets _ _ _ _ _ Hrel Hs) as [R E].
  destruct (linksLoop_pres _ _ _ _ _ H) as (T & F & N).
  split; [apply N; exact R|].
  destruct (linkType l0); cbn in *; auto.
Qed.

Lemma buildNodes2_pres e2j outer : forall st st',
  buildNodes2 e2j st outer = Some st' -> Pres st st'.
Proof.
  induction outer as [|e rest IH]; intros st st' H; cbn in H.
  - inversion H; apply Pres_refl.
  - destruct (linksLoop e2j (eid e) st (links e)) as [st1|] eqn:Hs; [|discriminate].
    eapply Pres_trans; [eapply linksLoop_pres; exact Hs | eapply IH; exact H].
Qed.

(** A binding of road [x] held in [st'] but not in [st] comes from a
    relevant link of [x] itself, of the matching type, in [outer]. *)
Definition OwnLinks (e2j : list (string * string)) (outer : list OuterEdge)
    (st st' : TState) : Prop :=
  forall x lt, endpoint st' x lt = endpoint st x lt
    \/ exists e l, In e outer /\ eid e = x /\ In l (links e) /\ relevant e2j l = true
         /\ linkType l = lt /\ endpoint st' x lt = Some (synthNodeId x (elementID l)).

Lemma OwnLinks_refl e2j outer st : OwnLinks e2j outer st st.
Proof. intros x lt; left; reflexivity. Qed.

Lemma OwnLinks_trans e2j o1 o2 a b c :
  (forall e, In e o1 -> In e o2) -> OwnLinks e2j o1 a b -> OwnLinks e2j o2 b c ->
  OwnLinks e2j o2 a c.
Proof.
  intros Hsub H1 H2 x lt.
  destruct (H2 x lt) as [E2|(e & l & He & Hx & Hl & Hr & Ht & Hv)];
    [|right; exists e, l; auto 7].
  destruct (H1 x lt) as [E1|(e & l & He & Hx & Hl & Hr & Ht & Hv)].
  - left; congruence.
  - right; exists e, l; repeat split; auto; congruence.
Qed.

Lemma setNodeSecure_frame st e n lt st' :
  setNodeSecure st e n lt = Some st' ->
  forall x lt', endpoint st' x lt' = endpoint st x lt' \/ (x = e /\ lt' = lt).
Proof.
  unfold setNodeSecure. destruct (negb (retrieve st n)); [discriminate|].
  intros H x lt'.
  destruct (String.eqb x e) eqn:Hxe;
    [apply String.eqb_eq in Hxe; subst x|].
  - destruct lt, lt';
      (destruct (opt_neqb _ n) in H; [discriminate|]);
      inversion H; subst st'; cbn; auto.
  - left. destruct lt;
      (destruct (opt_neqb _ n) in H; [discriminate|]);
      inversion H; subst st'; destruct lt'; cbn; unfold upd; try rewrite Hxe; reflexivity.
Qed.

Lemma linkStep_own e2j e st l st' :
  linkStep e2j e st l = Some st' ->
  forall x lt, endpoint st' x lt = endpoint st x lt
    \/ (x = e /\ relevant e2j l = true /\ linkType l = lt
        /\ endpoint st' x lt = Some (synthNodeId e (elementID l))).
Proof.
  intros H x lt. pose proof H as H0. unfold linkStep in H.
  destruct (negb (isRoad (elementType l)) || isInnerId e2j (elementID l)) eqn:Hrel.
  - inversion H; left; reflexivity.
  - assert (Hr : relevant e2j l = true).
    { unfold relevant. destruct (isRoad (elementType l)), (isInnerId e2j (elementID l));
        cbn in *; congruence. }
    destruct (setNodeSecure_frame _ _ _ _ _ H x lt) as [E|[-> ->]].
    + left. rewrite E. destruct (retrieve st (synthNodeId e (elementID l))); reflexivity.
    + right. repeat split; auto.
      destruct (linkStep_sets _ _ _ _ _ Hr H0) as [_ E]; exact E.
Qed.

Lemma linksLoop_own e2j e0 ls : forall st st',
  linksLoop e2j (eid e0) st ls = Some st' ->
  (forall l, In l ls -> In l (links e0)) ->
  OwnLinks e2j [e0] st st'.
Proof.
  induction ls as [|l rest IH]; intros st st' H Hsub; cbn in H.
  - inversion H; apply OwnLinks_refl.
  - destruct (linkStep e2j (eid e0) st l) as [st1|] eqn:Hs; [|discriminate].
    apply (OwnLinks_trans e2j [e0] [e0] st st1 st'); auto.
    + intros x lt. destruct (linkStep_own _ _ _ _ _ Hs x lt) as [E|(-> & Hr & Ht & Hv)];
        [left; exact E|].
      right. exists e0, l. repeat split; auto. left; reflexivity. apply Hsub; left; reflexivity.
    + apply IH; auto. intros l' Hl'; apply Hsub; right; exact Hl'.
Qed.

Lemma buildNodes2_own e2j outer : forall st st',
  buildNodes2 e2j st outer = Some st' -> OwnLinks e2j outer st st'.
Proof.
  induction outer as [|e0 rest IH]; intros st st' H; cbn in H.
  - inversion H; apply OwnLinks_refl.
  - destruct (linksLoop e2j (eid e0) st (links e0)) as [st1|] eqn:Hs; [|discriminate].
    apply (OwnLinks_trans e2j [e0] (e0 :: rest) st st1 st').
    + intros e [<-|[]]; left; reflexivity.
    + eapply linksLoop_own; eauto.
    + intros x lt. destruct (IH _ _ H x lt) as [E|(e & l & He & Hx & Hl & Hr & Ht & Hv)];
        [left; exact E|right; exists e, l; repeat split; auto; right; exact He].
Qed.

(** C4 (corrected): for each link of an outer road [e] to a road that is
    not inner, nodes#2 creates the node [id1 + "." + id2] with [id1] the
    lexicographically larger and [id2] the smaller of the two ids, and
    binds [e]'s endpoint on that side (to-node for a successor, from-node
    for a predecessor) to it.  Every endpoint of a road [x] that nodes#2
    changes is bound by a relevant link of [x] itself, of that side, to
    the node named from that link: the target road's endpoint is bound
    only when the target's own link is processed. *)
Theorem buildNodes2_binds_descending_id :
  forall e2j st outer st',
    buildNodes2 e2j st outer = Some st' ->
    (forall e l, In e outer -> In l (links e) -> relevant e2j l = true ->
      let nid := if String.ltb (eid e) (elementID l)
                 then elementID l ++ "." ++ eid e else eid e ++ "." ++ elementID l in
      retrieve st' nid = true /\ endpoint st' (eid e) (linkType l) = Some nid)
    /\ (forall x lt, endpoint st' x lt = endpoint st x lt
        \/ exists e l, In e outer /\ eid e = x /\ In l (links e) /\ relevant e2j l = true
             /\ linkType l = lt /\ endpoint st' x lt = Some (synthNodeId x (elementID l))).
Proof.
  intros e2j st outer st' H0. split; [|exact (buildNodes2_own _ _ _ _ H0)].
  revert st H0.
  induction outer as [|e0 rest IH]; intros st H e l Hin Hl Hrel; [destruct Hin|].
  cbv zeta.
  replace (if String.ltb (eid e) (elementID l) then elementID l ++ "." ++ eid e
           else eid e ++ "." ++ elementID l) with (synthNodeId (eid e) (elementID l))
    by (unfold synthNodeId; destruct (String.ltb (eid e) (elementID l)); reflexivity).
  cbn in H. destruct (linksLoop e2j (eid e0) st (links e0)) as [st1|] eqn:Hs; [|discriminate].
  destruct Hin as [<-|Hin].
  - destruct (linksLoop_sets _ _ _ _ _ Hs l Hl Hrel) as [R E].
    destruct (buildNodes2_pres _ _ _ _ H) as (T & F & N).
    split; [apply N; exact R|].
    destruct (linkType l); cbn in *; auto.
  - pose proof (IH st1 H e l Hin Hl Hrel) as G. cbv zeta in G.
    replace (if String.ltb (eid e) (elementID l) then elementID l ++ "." ++ eid e
             else eid e ++ "." ++ elementID l) with (synthNodeId (eid e) (elementID l)) in G
      by (unfold synthNodeId; destruct (String.ltb (eid e) (elementID l)); reflexivity).
    exact G.
Qed.

Definition emptyT : TState := mkTState [] (fun _ => None) (fun _ => None).
Definition linkAB : OpenDriveLink := mkLink OPENDRIVE_LT_SUCCESSOR OPENDRIVE_ET_ROAD "B" OPENDRIVE_CP_START.
Definition roadsAB : list OuterEdge := [mkOuter "A" [linkAB]; mkOuter "B" []].

Lemma buildNodes2_binds_descending_id_witness :
  match buildNodes2 [] emptyT roadsAB with
  | Some st' => toN st' "A" = Some "B.A"
  | None => False
  end.
Proof.
  destruct (buildNodes2 [] emptyT roadsAB) as [st'|] eqn:H; [|vm_compute in H; discriminate].
  destruct (proj1 (buildNodes2_binds_descending_id [] emptyT roadsAB st' H)
              (mkOuter "A" [linkAB]) linkAB) as (_ & E).
  - left; reflexivity.
  - left; reflexivity.
  - reflexivity.
  - exact E.
Defined.

(** C4 counterexample: road A with a successor link to the outer road B
    (and no link back) gets the node "B.A", not "A.B", and B's endpoints
    stay unbound. *)
Lemma buildNodes2_AB_cex :
  match buildNodes2 [] emptyT roadsAB with
  | Some st' => toN st' "A" = Some "B.A" /\ fromN st' "B" = None /\ toN st' "B" = None
                /\ "B.A" <> "A.B"
  | None => False
  end.
Proof. vm_compute. repeat split; discriminate || reflexivity. Qed.

End TopologyProofs.

Module GeometryProofs.

Import Geometry.

Lemma removelast_snoc {A} (g : list A) (b : A) : removelast (g ++ [b])%list = g.
Proof.
  induction g as [|x g IH]; [reflexivity|].
  cbn [app removelast]. rewrite IH. destruct g; reflexivity.
Qed.

Lemma back_snoc (g : list Position) (b : Position) : back (g ++ [b])%list = b.
Proof. unfold back. apply last_last. Qed.

(** C3 (corrected): when the polyline so far ends in the vertex [b] of a
    Line segment, the next segment's vertices are appended after dropping
    [b] in every case; the warning "Mismatched geometry" between segments
    [index - 1] and [index] is added exactly when [b] is not almostSame to
    the next segment's first vertex [p]. *)
Theorem shapeStep_after_line_drops_endpoint :
  forall st g b index p seg segWarnings t,
    geom st = (g ++ [b])%list -> prevType st = OPENDRIVE_GT_LINE ->
    let st' := shapeStep st index (p :: seg) segWarnings t in
    geom st' = fold_left push_back_noDoublePos (p :: seg) g
    /\ warnings st'
       = (warnings st ++ segWarnings
          ++ (if almostSame b p then [] else [MismatchedGeometry (index - 1) index]))%list.
Proof.
  intros st g b index p seg segWarnings t Hg Ht st'.
  unfold st', shapeStep. rewrite Hg, Ht.
  assert (Hlen : Nat.ltb 0 (List.length (g ++ [b])%list) = true).
  { rewrite length_app; cbn [List.length]. apply Nat.ltb_lt; lia. }
  rewrite Hlen. cbn [isLine andb].
  unfold matchesFront. rewrite back_snoc, removelast_snoc.
  destruct (almostSame b p); cbn; rewrite ?app_nil_r, ?app_assoc; split; reflexivity.
Qed.

Definition P (x y : Q) : Position := mkPos x y.
Definition startState : ShapeState := mkShape [] OPENDRIVE_GT_UNKNOWN (P 0 0) [].

Lemma shapeStep_after_line_drops_endpoint_witness :
  let st := shapeStep startState 0 [P 0 0; P 10 0] [] OPENDRIVE_GT_LINE in
  geom st = ([P 0 0] ++ [P 10 0])%list /\ prevType st = OPENDRIVE_GT_LINE
  /\ geom (shapeStep st 1 [P 10 0; P 20 0] [] OPENDRIVE_GT_LINE) = [P 0 0; P 10 0; P 20 0].
Proof.
  intros st. split; [reflexivity|]. split; [reflexivity|].
  destruct (shapeStep_after_line_drops_endpoint st [P 0 0] (P 10 0) 1 (P 10 0) [P 20 0] []
              OPENDRIVE_GT_LINE) as [G _]; [reflexivity|reflexivity|].
  rewrite G. vm_compute. reflexivity.
Defined.

(** C3 counterexample: a Line (0,0)-(10,0) followed by a Line starting at
    (20,0) warns about the mismatch and still drops (10,0). *)
Lemma mismatched_line_endpoint_dropped_cex :
  let st := shapeStep (shapeStep startState 0 [P 0 0; P 10 0] [] OPENDRIVE_GT_LINE)
                      1 [P 20 0; P 30 0] [] OPENDRIVE_GT_LINE in
  geom st = [P 0 0; P 20 0; P 30 0]
  /\ warnings st = [MismatchedGeometry 0 1]
  /\ ~ In (P 10 0) (geom st).
Proof.
  vm_compute. split; [reflexivity|]. split; [reflexivity|].
  intros [H|[H|[H|H]]]; try discriminate; exact H.
Qed.

(** Discretisers for inputs made of degenerate spirals only, where none of
    them is called. *)
Definition noDisc : Discretisers :=
  mkDisc (fun _ _ => []) (fun _ _ => []) (fun _ _ => []) (fun _ _ => []) (fun _ _ => []).

Definition degenerateSpiral (g : OpenDriveGeometry) : bool :=
  Qeq_bool ((nth 1 (g_params g) 0 - nth 0 (g_params g) 0) / g_length g) 0
  || Qeq_bool (g_length g) 0.

Lemma shapeLoop_app D lineRes res pre : forall st i rest,
  shapeLoop D st i lineRes res (pre ++ rest)
  = shapeLoop D (shapeLoop D st i lineRes res pre) (i + List.length pre) lineRes res rest.
Proof.
  induction pre as [|g pre IH]; intros st i rest.
  - cbn. rewrite Nat.add_0_r. reflexivity.
  - cbn [app shapeLoop List.length]. destruct (discretise D g lineRes res) as [seg ws].
    rewrite IH. f_equal. lia.
Qed.

(** C8 (corrected): a spiral with [cDot = 0] or [length = 0] warns and
    yields just its start point; a road whose only segment is such a
    spiral gets a one-vertex polyline and no edge.  In a road made of any
    segments [pre ++ g :: post'], the degenerate spiral [g] is handled as
    the one-vertex segment [(g.x, g.y)] with a warning, after whatever
    [pre] left: its start point is appended to the polyline (after the
    usual drop of a previous Line endpoint) unless the polyline already
    ends almostSame to it.  Whether the road yields an edge is decided on
    the whole concatenated polyline: no edge below 2 vertices, the lane
    sections' edges otherwise. *)
Theorem degenerate_spiral_start_point_only :
  forall D g lineRes res post,
    g_type g = OPENDRIVE_GT_SPIRAL -> degenerateSpiral g = true ->
    geomFromSpiral D g res = ([mkPos (g_x g) (g_y g)], [SpiralWarning])
    /\ computeGeom D lineRes res [g] false post = ([mkPos (g_x g) (g_y g)], [SpiralWarning])
    /\ (forall toString cfg e,
          EdgeEmitter.geomSize e = List.length (fst (computeGeom D lineRes res [g] false post)) ->
          EdgeEmitter.edgeIds toString cfg e = [])
    /\ (forall pre post',
          let st0 := mkShape [] OPENDRIVE_GT_UNKNOWN (mkPos 0 0) [] in
          let stp := shapeLoop D st0 0 lineRes res pre in
          shapeLoop D st0 0 lineRes res (pre ++ g :: post')
          = shapeLoop D (shapeStep stp (List.length pre) [mkPos (g_x g) (g_y g)] [SpiralWarning]
                           OPENDRIVE_GT_SPIRAL) (S (List.length pre)) lineRes res post')
    /\ (forall st i,
          let g1 := if Nat.ltb 0 (List.length (geom st)) && isLine (prevType st)
                    then removelast (geom st) else geom st in
          let st' := shapeStep st i [mkPos (g_x g) (g_y g)] [SpiralWarning] OPENDRIVE_GT_SPIRAL in
          (geom st' = (g1 ++ [mkPos (g_x g) (g_y g)])%list
           \/ (g1 <> [] /\ almostSame (back g1) (mkPos (g_x g) (g_y g)) = true /\ geom st' = g1))
          /\ last st' = mkPos (g_x g) (g_y g)
          /\ (exists w, warnings st' = (warnings st ++ SpiralWarning :: w)%list))
    /\ (forall gs needsPost toString cfg e,
          EdgeEmitter.geomSize e = List.length (fst (computeGeom D lineRes res gs needsPost post)) ->
          ((List.length (fst (computeGeom D lineRes res gs needsPost post)) < 2)%nat ->
             EdgeEmitter.edgeIds toString cfg e = [])
          /\ ((2 <= List.length (fst (computeGeom D lineRes res gs needsPost post)))%nat ->
             let secs := EdgeEmitter.sectionsAtEmission cfg e in
             EdgeEmitter.edgeIds toString cfg e
             = EdgeEmitter.emitSections toString e (List.length secs)
                 (EdgeEmitter.ContNode (EdgeEmitter.from e)) secs)).
Proof.
  intros D g lineRes res post Ht Hd.
  assert (HS : geomFromSpiral D g res = ([mkPos (g_x g) (g_y g)], [SpiralWarning])).
  { unfold geomFromSpiral. unfold degenerateSpiral in Hd. rewrite Hd. reflexivity. }
  assert (HC : computeGeom D lineRes res [g] false post = ([mkPos (g_x g) (g_y g)], [SpiralWarning])).
  { unfold computeGeom. cbn [shapeLoop]. unfold discretise. rewrite Ht, HS.
    unfold shapeStep. cbn.
    unfold pos_eqb. cbn [px py]. rewrite !Qeq_bool_refl. reflexivity. }
  split; [exact HS|]. split; [exact HC|]. split.
  { intros toString cfg e He. rewrite HC in He. cbn in He.
    unfold EdgeEmitter.edgeIds. rewrite He. reflexivity. }
  split.
  { intros pre post' st0 stp. rewrite shapeLoop_app. cbn [shapeLoop Nat.add].
    unfold discretise at 1. rewrite Ht, HS. reflexivity. }
  split.
  { intros st i g1 st'. unfold st', shapeStep. fold g1.
    set (w1 := (warnings st ++ [SpiralWarning])%list).
    assert (Hg : forall w2, geom (mkShape (fold_left push_back_noDoublePos [mkPos (g_x g) (g_y g)] g1)
                   OPENDRIVE_GT_SPIRAL (List.last [mkPos (g_x g) (g_y g)] (last st)) w2)
                 = (g1 ++ [mkPos (g_x g) (g_y g)])%list
               \/ (g1 <> [] /\ almostSame (back g1) (mkPos (g_x g) (g_y g)) = true
                   /\ geom (mkShape (fold_left push_back_noDoublePos [mkPos (g_x g) (g_y g)] g1)
                         OPENDRIVE_GT_SPIRAL (List.last [mkPos (g_x g) (g_y g)] (last st)) w2) = g1)).
    { intros w2. cbn [geom fold_left]. unfold push_back_noDoublePos.
      destruct (rev g1) as [|b r] eqn:Hr.
      - left. apply (f_equal (@rev Position)) in Hr. rewrite rev_involutive in Hr.
        cbn in Hr. rewrite Hr. reflexivity.
      - assert (Hb : back g1 = b).
        { apply (f_equal (@rev Position)) in Hr. rewrite rev_involutive in Hr.
          rewrite Hr. cbn. unfold back. apply last_last. }
        destruct (almostSame b (mkPos (g_x g) (g_y g))) eqn:Ha; [right|left; reflexivity].
        split; [|split; [rewrite Hb; exact Ha | reflexivity]].
        intros E. rewrite E in Hr. discriminate. }
    unfold g1 in Hg |- *.
    destruct (Nat.ltb 0 (List.length (geom st)) && isLine (prevType st)).
    - split; [apply Hg|]. split; [reflexivity|].
      destruct (matchesFront (geom st) [mkPos (g_x g) (g_y g)]).
      + exists []. cbn [warnings]. unfold w1. reflexivity.
      + exists [MismatchedGeometry (i - 1) i]. cbn [warnings]. unfold w1.
        rewrite <- app_assoc. reflexivity.
    - split; [apply Hg|]. split; [reflexivity|]. exists []. cbn [warnings]. unfold w1. reflexivity. }
  intros gs needsPost toString cfg e He. split.
  - intros Hl. unfold EdgeEmitter.edgeIds. rewrite He.
    apply Nat.ltb_lt in Hl. rewrite Hl. reflexivity.
  - intros Hl secs. unfold EdgeEmitter.edgeIds. rewrite He.
    destruct (Nat.ltb_spec (List.length (fst (computeGeom D lineRes res gs needsPost post))) 2);
      [lia|reflexivity].
Qed.

Definition spiralAt (x : Q) : OpenDriveGeometry :=
  mkGeom 10 0 x 0 0 OPENDRIVE_GT_SPIRAL [0; 0].

Lemma degenerate_spiral_start_point_only_witness :
  computeGeom noDisc (-1) 1 [spiralAt 0] false (fun v => v) = ([P 0 0], [SpiralWarning]).
Proof.
  destruct (degenerate_spiral_start_point_only noDisc (spiralAt 0) (-1) 1 (fun v => v))
    as (_ & H & _); [reflexivity | reflexivity | exact H].
Defined.

(** C8 counterexample: two degenerate spirals at (0,0) and (10,0) give a
    two-vertex polyline, and the road yields edges, although for each
    spiral the other segment supplies a single vertex. *)
Lemma two_degenerate_spirals_cex :
  let r := computeGeom noDisc (-1) 1 [spiralAt 0; spiralAt 10] false (fun v => v) in
  fst (computeGeom noDisc (-1) 1 [spiralAt 10] false (fun v => v)) = [P 10 0]
  /\ fst (computeGeom noDisc (-1) 1 [spiralAt 0] false (fun v => v)) = [P 0 0]
  /\ r = ([P 0 0; P 10 0], [SpiralWarning; SpiralWarning])
  /\ EdgeEmitter.edgeIds EdgeEmitter.toString2 EdgeEmitterProofs.noMinWidth
       (EdgeEmitter.mkRoad "S" "S.begin" "S.end" 10 (List.length (fst r))
          [EdgeEmitter.mkLaneSection 0 1 1])
     = ["-S.0.00"; "S.0.00"].
Proof. vm_compute. repeat split. Qed.

End GeometryProofs.

Module ReshaperProofs.

Import Reshaper.

Definition secLt (a b : OpenDriveLaneSection) : Prop := s a < s b.
Definition secLe (a b : OpenDriveLaneSection) : Prop := s a <= s b.

Lemma Qltb_true x y : Qltb x y = true -> x < y.
Proof.
  unfold Qltb. intros H. apply negb_true_iff in H.
  apply Qnot_le_lt. intros H'. apply Qle_bool_iff in H'. congruence.
Qed.

Lemma Qltb_false x y : Qltb x y = false -> y <= x.
Proof.
  unfold Qltb. intros H. apply negb_false_iff in H. apply Qle_bool_iff; exact H.
Qed.

Lemma secLe_trans : Relations_1.Transitive secLe.
Proof. intros a b c; unfold secLe; apply Qle_trans. Qed.

Lemma sortedFrom_sorted : forall l lastS, sortedFrom lastS l = true -> Sorted secLt l.
Proof.
  induction l as [|x r IH]; intros lastS H; [constructor|].
  cbn in H. destruct (Qle_bool (s x) lastS) eqn:Hx; [discriminate|].
  constructor; [eapply IH; exact H|].
  destruct r as [|y r']; constructor.
  cbn in H. destruct (Qle_bool (s y) (s x)) eqn:Hy; [discriminate|].
  unfold secLt. apply Qnot_le_lt. intros H'. apply Qle_bool_iff in H'. congruence.
Qed.

Lemma sorted_lt_le : forall l, Sorted secLt l -> Sorted secLe l.
Proof.
  induction 1 as [|x l Hs IH Hd]; constructor; [exact IH|].
  destruct Hd; constructor. unfold secLe, secLt in *. apply Qlt_le_weak; assumption.
Qed.

Lemma insertByS_sorted : forall l x, Sorted secLe l -> Sorted secLe (insertByS x l).
Proof.
  induction l as [|y r IH]; intros x H; cbn.
  - repeat constructor.
  - destruct (Qltb (s y) (s x)) eqn:Hxy.
    + apply Sorted_inv in H; destruct H as [Hr Hd].
      constructor; [apply IH; exact Hr|].
      destruct r as [|z r']; cbn.
      * constructor. unfold secLe. apply Qlt_le_weak, Qltb_true; exact Hxy.
      * destruct (Qltb (s z) (s x)); constructor.
        -- apply HdRel_inv in Hd; exact Hd.
        -- unfold secLe. apply Qlt_le_weak, Qltb_true; exact Hxy.
    + constructor; [exact H|]. constructor. unfold secLe. apply Qltb_false in Hxy.
      exact Hxy.
Qed.

Lemma sortByS_sorted : forall l, Sorted secLe (sortByS l).
Proof. induction l as [|x r IH]; cbn; [constructor | apply insertByS_sorted; exact IH]. Qed.

Lemma removeDuplicates_inner : forall l lastS, removeDuplicates true lastS l = l.
Proof.
  induction l as [|x r IH]; intros lastS; cbn; [reflexivity|].
  rewrite andb_false_r, IH. reflexivity.
Qed.

Lemma not_similar_gt (a lastS : Q) :
  lastS <= a -> Qltb (Qabs (a - lastS)) Geometry.POSITION_EPS = false -> lastS < a.
Proof.
  intros Hle Hn. apply Qltb_false in Hn.
  destruct (Qlt_le_dec lastS a) as [H|H]; [exact H|].
  assert (Heq : a == lastS) by (apply Qle_antisym; assumption).
  assert (Habs : Qabs (a - lastS) == 0).
  { rewrite Heq. setoid_replace (lastS - lastS) with 0 by ring. reflexivity. }
  rewrite Habs in Hn. unfold Geometry.POSITION_EPS in Hn. lra.
Qed.

Lemma removeDuplicates_outer_strict : forall l lastS,
  StronglySorted secLe l -> Forall (fun y => lastS <= s y) l ->
  Sorted secLt (removeDuplicates false lastS l)
  /\ Forall (fun y => lastS < s y) (removeDuplicates false lastS l).
Proof.
  induction l as [|x r IH]; intros lastS Hs Hf; [split; constructor|].
  apply StronglySorted_inv in Hs; destruct Hs as [Hr Hx].
  apply Forall_cons_iff in Hf; destruct Hf as [Hlx _].
  destruct (IH (s x) Hr Hx) as [HS HF].
  cbn [removeDuplicates]. rewrite andb_true_r.
  destruct (Qltb (Qabs (s x - lastS)) Geometry.POSITION_EPS) eqn:Hsim.
  - split; [exact HS|].
    eapply Forall_impl; [|exact HF]. cbn. intros y Hy. eapply Qle_lt_trans; eauto.
  - pose proof (not_similar_gt _ _ Hlx Hsim) as Hgt.
    split.
    + constructor; [exact HS|].
      destruct (removeDuplicates false (s x) r) as [|y d]; constructor.
      apply Forall_cons_iff in HF; destruct HF as [Hy _]. exact Hy.
    + constructor; [exact Hgt|].
      eapply Forall_impl; [|exact HF]. cbn. intros y Hy. eapply Qlt_trans; eauto.
Qed.

Lemma removeDuplicates_outer_sorted : forall l lastS,
  Sorted secLe l -> Sorted secLt (removeDuplicates false lastS l).
Proof.
  intros [|x r] lastS H; [constructor|].
  apply Sorted_StronglySorted in H; [|exact secLe_trans].
  apply StronglySorted_inv in H; destruct H as [Hr Hx].
  destruct (removeDuplicates_outer_strict r (s x) Hr Hx) as [HS HF].
  cbn [removeDuplicates]. rewrite andb_true_r.
  destruct (Qltb (Qabs (s x - lastS)) Geometry.POSITION_EPS); [exact HS|].
  constructor; [exact HS|].
  destruct (removeDuplicates false (s x) r) as [|y d]; constructor.
  apply Forall_cons_iff in HF; destruct HF as [Hy _]. exact Hy.
Qed.

Lemma reordered_sorted (getSpeed : string -> Q) secs :
  let newSections := splitBySpeed getSpeed secs in
  Sorted secLe (if sortedFrom (-1) newSections then newSections else sortByS newSections).
Proof.
  intros newSections.
  destruct (sortedFrom (-1) newSections) eqn:H.
  - apply sorted_lt_le. eapply sortedFrom_sorted; exact H.
  - apply sortByS_sorted.
Qed.

(** C7: after revisitLaneSections, the section arclengths of an outer road
    are strictly increasing and those of an inner road non-decreasing. *)
Theorem revisitLaneSections_ordered :
  forall getSpeed isInner secs,
    (isInner = false -> Sorted secLt (revisitLaneSections getSpeed isInner secs))
    /\ (isInner = true -> Sorted secLe (revisitLaneSections getSpeed isInner secs)).
Proof.
  intros getSpeed isInner secs. unfold revisitLaneSections.
  split; intros ->.
  - apply removeDuplicates_outer_sorted, reordered_sorted.
  - rewrite removeDuplicates_inner. apply reordered_sorted.
Qed.

Definition lane (speeds : list (Q * Q)) : OpenDriveLane := mkLane (-1) "driving" speeds 0.
Definition sectionAt (x : Q) (speeds : list (Q * Q)) : OpenDriveLaneSection :=
  mkSection x [] [] [lane speeds].

Lemma revisitLaneSections_ordered_witness :
  Sorted secLt (revisitLaneSections (fun _ => 13) false
                  [sectionAt 100 []; sectionAt 0 [(50, 10)]; sectionAt (1 # 100) []]).
Proof.
  destruct (revisitLaneSections_ordered (fun _ => 13) false
              [sectionAt 100 []; sectionAt 0 [(50, 10)]; sectionAt (1 # 100) []]) as [H _].
  apply H; reflexivity.
Defined.

Example revisit_sorts_and_dedups :
  map s (revisitLaneSections (fun _ => 13) false
           [sectionAt 100 []; sectionAt 0 [(50, 10)]; sectionAt (1 # 100) []])
  = [0; 50; 100].
Proof. vm_compute. reflexivity. Qed.

Definition typeDefaultSpeed (t : string) : Q := if String.eqb t "driving" then 1389 # 100 else 0.

Lemma propagateLane_None getSpeed j l : propagateLane getSpeed None j l = l.
Proof. unfold propagateLane. destruct (negb (Qeq_bool (speed l) 0)); reflexivity. Qed.

Lemma propagateLanes_None getSpeed ls : forall j, propagateLanes getSpeed None j ls = ls.
Proof.
  induction ls as [|l ls IH]; intros j; [reflexivity|].
  cbn [propagateLanes]. rewrite propagateLane_None, IH. reflexivity.
Qed.

Lemma propagateSection_None getSpeed x : propagateSection getSpeed None x = x.
Proof.
  destruct x as [xs xl xc xr]. unfold propagateSection. cbn [option_map].
  rewrite !propagateLanes_None. reflexivity.
Qed.

Lemma propagateLanes_nth getSpeed p ls :
  forall k j d, (j < List.length ls)%nat ->
  nth j (propagateLanes getSpeed p k ls) d = propagateLane getSpeed p (k + j)%nat (nth j ls d).
Proof.
  induction ls as [|l ls IH]; intros k j d Hj; cbn [List.length] in Hj; [lia|].
  destruct j as [|j]; cbn [propagateLanes nth].
  - rewrite Nat.add_0_r. reflexivity.
  - rewrite IH by lia. f_equal. lia.
Qed.

Lemma setInsert_cons x l : exists h t, setInsert x l = h :: t.
Proof. destruct l as [|y l]; cbn; [eauto|]. destruct (Qcompare x y); eauto. Qed.

(** Lane [j] of a split section after index 0 once propagated: kept when
    its speed is not 0, else given the speed of lane [j] of the previous
    split section (of the lane itself when that section has fewer lanes,
    which does not happen for clones of one section). *)
Definition inherited (pl : list OpenDriveLane) (j : nat) (l : OpenDriveLane) : OpenDriveLane :=
  if negb (Qeq_bool (speed l) 0) then l else setLaneSpeed l (speed (nth j pl l)).

(** The lane after the collection loop: each entry at sOffset 0 sets
    the speed, so the last one wins; without one the speed is unchanged. *)
Definition collectSpeed (l : OpenDriveLane) : OpenDriveLane :=
  mkLane (lid l) (ltype l) (speeds l)
    (fold_left (fun v e => if Qeq_bool (fst e) 0 then snd e else v) (speeds l) (speed l)).

(** The set [speedChangePositions] after inserting the offsets [es]. *)
Definition insAll (ps : list Q) (es : list (Q * Q)) : list Q :=
  fold_left (fun ps e => setInsert (fst e) ps) es ps.

(** All sOffsets of the right, then the left lanes. *)
Definition offsets (sec : OpenDriveLaneSection) : list Q :=
  map fst (concat (map speeds (rightLanes sec)) ++ concat (map speeds (leftLanes sec)))%list.

Lemma collectLane_eq pos l : collectLane pos l = (insAll pos (speeds l), collectSpeed l).
Proof.
  unfold collectLane, insAll, collectSpeed.
  assert (G : forall es ps ln,
    fold_left (fun acc e => let '(ps, ln) := acc in
                 (setInsert (fst e) ps, if Qeq_bool (fst e) 0 then setLaneSpeed ln (snd e) else ln))
              es (ps, ln)
    = (fold_left (fun ps e => setInsert (fst e) ps) es ps,
       mkLane (lid ln) (ltype ln) (speeds ln)
         (fold_left (fun v e => if Qeq_bool (fst e) 0 then snd e else v) es (speed ln)))).
  { induction es as [|e es IH]; intros ps ln; cbn [fold_left].
    - destruct ln; reflexivity.
    - rewrite IH. destruct (Qeq_bool (fst e) 0); reflexivity. }
  apply G.
Qed.

Lemma collectLanes_eq ls : forall pos,
  collectLanes pos ls = (insAll pos (concat (map speeds ls)), map collectSpeed ls).
Proof.
  induction ls as [|l ls IH]; intros pos; [reflexivity|].
  cbn [collectLanes]. rewrite collectLane_eq, IH. cbn [map concat].
  unfold insAll. rewrite fold_left_app. reflexivity.
Qed.

Lemma setInsert_sorted x l : StronglySorted Qlt l -> StronglySorted Qlt (setInsert x l).
Proof.
  induction l as [|y l IH]; intros H; cbn [setInsert].
  - repeat constructor.
  - inversion H as [|? ? H1 H2]; subst.
    destruct (Qcompare x y) eqn:C.
    + exact H.
    + apply Qlt_alt in C. constructor; [exact H|]. constructor; [exact C|].
      eapply Forall_impl; [|exact H2]. intros z Hz. eapply Qlt_trans; eauto.
    + apply Qgt_alt in C. constructor; [apply IH; exact H1|].
      apply Forall_forall. intros z Hz.
      assert (Hz' : z = x \/ In z l).
      { clear -Hz. induction l as [|w l IHl]; cbn in Hz.
        - destruct Hz as [<-|[]]; left; reflexivity.
        - destruct (Qcompare x w).
          + right; exact Hz.
          + destruct Hz as [<-|Hz]; [left; reflexivity|right; exact Hz].
          + destruct Hz as [<-|Hz]; [right; left; reflexivity|].
            destruct (IHl Hz) as [E|E]; [left; exact E|right; right; exact E]. }
      destruct Hz' as [->|Hz']; [exact C|].
      rewrite Forall_forall in H2. apply H2; exact Hz'.
Qed.

Lemma setInsert_in x l y : In y (setInsert x l) -> y = x \/ In y l.
Proof.
  induction l as [|w l IH]; cbn; [intros [<-|[]]; left; reflexivity|].
  destruct (Qcompare x w).
  - intros H; right; exact H.
  - intros [<-|H]; [left; reflexivity|right; exact H].
  - intros [<-|H]; [right; left; reflexivity|].
    destruct (IH H) as [E|E]; [left; exact E|right; right; exact E].
Qed.

Lemma setInsert_keeps x l y : In y l -> In y (setInsert x l).
Proof.
  induction l as [|w l IH]; cbn; [intros []|].
  destruct (Qcompare x w).
  - intros H; exact H.
  - intros H; right; exact H.
  - intros [<-|H]; [left; reflexivity|right; apply IH; exact H].
Qed.

Lemma setInsert_has x l : exists p, In p (setInsert x l) /\ p == x.
Proof.
  induction l as [|w l IH]; cbn; [exists x; split; [left; reflexivity|apply Qeq_refl]|].
  destruct (Qcompare x w) eqn:C.
  - exists w. split; [left; reflexivity|]. apply Qeq_alt in C. apply Qeq_sym; exact C.
  - exists x. split; [left; reflexivity|apply Qeq_refl].
  - destruct IH as (p & Hp & E). exists p. split; [right; exact Hp|exact E].
Qed.

Lemma insAll_props es : forall ps,
  (StronglySorted Qlt ps -> StronglySorted Qlt (insAll ps es))
  /\ (forall p, In p (insAll ps es) -> In p ps \/ In p (map fst es))
  /\ (forall p, In p ps -> In p (insAll ps es))
  /\ (forall q, In q (map fst es) -> exists p, In p (insAll ps es) /\ p == q).
Proof.
  induction es as [|e es IH]; intros ps; unfold insAll in *; cbn [fold_left map].
  - split; [auto|]. split; [auto|]. split; [auto|]. intros q [].
  - destruct (IH (setInsert (fst e) ps)) as (S1 & S2 & S3 & S4).
    split; [intros H; apply S1; apply setInsert_sorted; exact H|].
    split.
    { intros p Hp. destruct (S2 p Hp) as [H|H].
      - destruct (setInsert_in _ _ _ H) as [->|H']; [right; left; reflexivity|left; exact H'].
      - right; right; exact H. }
    split; [intros p Hp; apply S3; apply setInsert_keeps; exact Hp|].
    intros q [<-|Hq]; [|apply S4; exact Hq].
    destruct (setInsert_has (fst e) ps) as (p & Hp & E).
    exists p. split; [apply S3; exact Hp|exact E].
Qed.

Lemma propagateLane_getSpeed g g' p j l : propagateLane g p j l = propagateLane g' p j l.
Proof. unfold propagateLane. destruct (negb _); [reflexivity|]. destruct p; reflexivity. Qed.

Lemma propagateLanes_getSpeed g g' p ls : forall j,
  propagateLanes g p j ls = propagateLanes g' p j ls.
Proof.
  induction ls as [|l ls IH]; intros j; [reflexivity|].
  cbn [propagateLanes]. rewrite (propagateLane_getSpeed g g'), IH. reflexivity.
Qed.

Lemma propagate_getSpeed g g' secs : forall p, propagate g p secs = propagate g' p secs.
Proof.
  induction secs as [|x secs IH]; intros p; [reflexivity|].
  cbn [propagate]. unfold propagateSection.
  rewrite !(propagateLanes_getSpeed g g'). rewrite IH. reflexivity.
Qed.

Lemma propagate_s g secs : forall q, map s (propagate g q secs) = map s secs.
Proof.
  induction secs as [|x secs IH]; intros q; [reflexivity|].
  cbn [propagate map]. rewrite IH. reflexivity.
Qed.

(** C2 (speed propagation of Pass A, as the code behaves): when
    [buildSpeedChanges] splits a section, the result does not depend on
    the type catalogue at all ([tc.getSpeed(l.type)] is evaluated and its
    result dropped).  The first split section is the section itself after
    the collection loop: each lane has the speed of its last entry at
    sOffset 0 and otherwise keeps its speed.  The split positions [p0 ::
    rest] are the strictly increasing set of all sOffsets of the right and
    left lanes, with 0 added in front when they are all positive, so [p0
    <= 0]; the later sections are [buildLaneSection] at the positions of
    [rest], starting at [s + p], each propagated from the previous one: a
    lane gets the speed of its entry at [p], or 0 without one, and a lane
    with speed 0 then takes the speed of lane [j] of the previous,
    already propagated, split section.  The type default is only
    substituted later, by setLaneAttributes, for a lane whose speed is
    still 0. *)
Theorem buildSpeedChanges_speed_propagation :
  forall getSpeed sec ns this,
    buildSpeedChanges getSpeed sec = (true, ns, this) ->
    (forall getSpeed', buildSpeedChanges getSpeed' sec = (true, ns, this))
    /\ this = mkSection (s sec) (map collectSpeed (leftLanes sec)) (centerLanes sec)
                        (map collectSpeed (rightLanes sec))
    /\ (exists p0 rest,
          ns = this :: propagate getSpeed (Some this) (map (buildLaneSection this) rest)
          /\ map s ns = s sec :: map (fun p => s sec + p) rest
          /\ StronglySorted Qlt (p0 :: rest) /\ p0 <= 0
          /\ (forall p, In p (p0 :: rest) -> p = 0 \/ In p (offsets sec))
          /\ (forall q, In q (offsets sec) -> exists p, In p (p0 :: rest) /\ p == q))
    /\ (forall pos l, speed (speedAt pos l)
                      = match find (same_position_finder pos) (speeds l) with
                        | Some e => snd e | None => 0 end)
    /\ (forall prev x j d, (j < List.length (rightLanes x))%nat ->
          nth j (rightLanes (propagateSection getSpeed (Some prev) x)) d
          = inherited (rightLanes prev) j (nth j (rightLanes x) d))
    /\ (forall prev x j d, (j < List.length (leftLanes x))%nat ->
          nth j (leftLanes (propagateSection getSpeed (Some prev) x)) d
          = inherited (leftLanes prev) j (nth j (leftLanes x) d))
    /\ (forall imp minW tc od, Qeq_bool (LaneAttributes.od_speed od) 0 = true ->
          LaneAttributes.lane_speed (LaneAttributes.setLaneAttributes imp minW tc od)
          = LaneAttributes.getSpeed (tc (LaneAttributes.od_type od))).
Proof.
  intros getSpeed sec ns this H.
  split.
  { intros g'. rewrite <- H. unfold buildSpeedChanges.
    destruct (collectLanes [] (rightLanes sec)) as [pos1 right'].
    destruct (collectLanes pos1 (leftLanes sec)) as [pos2 left'].
    destruct pos2 as [|p0 pos2]; [reflexivity|].
    rewrite (propagate_getSpeed g' getSpeed). reflexivity. }
  unfold buildSpeedChanges in H.
  rewrite !collectLanes_eq in H.
  set (pos2 := insAll (insAll [] (concat (map speeds (rightLanes sec))))
                      (concat (map speeds (leftLanes sec)))) in H.
  assert (Hpos : StronglySorted Qlt pos2
                 /\ (forall p, In p pos2 -> In p (offsets sec))
                 /\ (forall q, In q (offsets sec) -> exists p, In p pos2 /\ p == q)).
  { destruct (insAll_props (concat (map speeds (rightLanes sec))) []) as (A1 & A2 & A3 & A4).
    destruct (insAll_props (concat (map speeds (leftLanes sec)))
                (insAll [] (concat (map speeds (rightLanes sec))))) as (B1 & B2 & B3 & B4).
    unfold offsets. rewrite map_app. split; [apply B1, A1; constructor|]. split.
    - intros p Hp. apply in_or_app. destruct (B2 p Hp) as [E|E]; [left|right; exact E].
      destruct (A2 p E) as [[]|E']; exact E'.
    - intros q Hq. apply in_app_or in Hq as [Hq|Hq]; [|apply B4; exact Hq].
      destruct (A4 q Hq) as (p & Hp & Ep). exists p; split; [apply B3; exact Hp|exact Ep]. }
  destruct Hpos as (P1 & P2 & P3).
  destruct pos2 as [|p0 t] eqn:E2; [discriminate|].
  assert (Hthis : this = mkSection (s sec) (map collectSpeed (leftLanes sec)) (centerLanes sec)
                                   (map collectSpeed (rightLanes sec))).
  { destruct (Qltb 0 p0); [destruct (setInsert_cons 0 (p0 :: t)) as (h & t' & Ht); rewrite Ht in H|];
      injection H as _ <-; reflexivity. }
  split; [exact Hthis|].
  split.
  { destruct (Qltb 0 p0) eqn:Ep.
    - apply ReshaperProofs.Qltb_true in Ep.
      assert (Hi : setInsert 0 (p0 :: t) = 0 :: p0 :: t).
      { cbn [setInsert]. destruct (Qcompare 0 p0) eqn:C; [apply Qeq_alt in C; lra|reflexivity|apply Qgt_alt in C; lra]. }
      rewrite Hi in H. injection H as <- <-.
      exists 0, (p0 :: t). split; [cbn [propagate]; rewrite propagateSection_None; reflexivity|].
      split.
      { cbn [propagate map]. rewrite propagate_s, map_map. reflexivity. }
      split; [constructor; [exact P1|]; constructor; [exact Ep|];
              inversion P1; subst; eapply Forall_impl; [|eassumption];
              intros z Hz; eapply Qlt_trans; eauto|].
      split; [apply Qle_refl|]. split.
      + intros p [<-|Hp]; [left; reflexivity|right; apply P2; exact Hp].
      + intros q Hq. destruct (P3 q Hq) as (p & Hp & Eq). exists p; split; [right; exact Hp|exact Eq].
    - apply ReshaperProofs.Qltb_false in Ep.
      injection H as <- <-.
      exists p0, t. split; [cbn [propagate]; rewrite propagateSection_None; reflexivity|].
      split.
      { cbn [propagate map]. rewrite propagate_s, map_map. reflexivity. }
      split; [exact P1|]. split; [exact Ep|]. split.
      + intros p Hp; right; apply P2; exact Hp.
      + exact P3. }
  split; [|split; [|split]].
  - intros pos l. unfold speedAt.
    destruct (find (same_position_finder pos) (speeds l)); reflexivity.
  - intros prev x j d Hj. cbn [propagateSection rightLanes option_map].
    rewrite propagateLanes_nth by exact Hj. reflexivity.
  - intros prev x j d Hj. cbn [propagateSection leftLanes option_map].
    rewrite propagateLanes_nth by exact Hj. reflexivity.
  - intros imp minW tc od Hz. unfold LaneAttributes.setLaneAttributes. cbn.
    rewrite Hz. reflexivity.
Qed.

Definition splitRes := buildSpeedChanges typeDefaultSpeed (sectionAt 0 [(50, 10)]).

Lemma buildSpeedChanges_speed_propagation_witness :
  splitRes = (true, snd (fst splitRes), snd splitRes)
  /\ buildSpeedChanges (fun _ => 0) (sectionAt 0 [(50, 10)])
     = (true, snd (fst splitRes), snd splitRes).
Proof.
  assert (E : splitRes = (true, snd (fst splitRes), snd splitRes)) by (vm_compute; reflexivity).
  split; [exact E|].
  exact (proj1 (buildSpeedChanges_speed_propagation typeDefaultSpeed _ _ _ E) (fun _ => 0)).
Defined.

(** C2 counterexample: a right lane of type "driving" whose only speed
    entry is at sOffset 50 is split into sections at 0 and 50; in the
    first one the lane keeps speed 0, not the type default 13.89. *)
Theorem buildSpeedChanges_first_split_no_default :
  let '(split, newSections, _) := buildSpeedChanges typeDefaultSpeed (sectionAt 0 [(50, 10)]) in
  split = true
  /\ map s newSections = [0; 50]
  /\ map (fun sec => map speed (rightLanes sec)) newSections = [[0]; [10]]
  /\ ~ (0 == typeDefaultSpeed "driving").
Proof. vm_compute. repeat split. discriminate. Qed.

End ReshaperProofs.

Module LaneAttributesProofs.

Import LaneAttributes.
Import Reshaper (Qltb).

Lemma quantise_le (w r : Q) : 0 < r -> quantise w r <= w + r * (1 # 2).
Proof.
  intros Hr. unfold quantise.
  assert (Hnz : ~ r == 0) by (intros H; rewrite H in Hr; apply (Qlt_irrefl 0); exact Hr).
  apply Qle_trans with ((w / r + (1 # 2)) * r).
  - apply Qmult_le_compat_r; [apply Qfloor_le | apply Qlt_le_weak; exact Hr].
  - apply Qle_lteq; right. field. exact Hnz.
Qed.

Lemma clamp_le (x m : Q) : (if Qltb 0 m then Qmin x m else x) <= x.
Proof. destruct (Qltb 0 m); [apply Q.le_min_l | apply Qle_refl]. Qed.

(** C5 (corrected): the permissions become exactly Emergency|Authority iff
    the lane is "forbidden narrow" (its width before quantisation is below
    min-width, its type allows passenger cars, and that width is below the
    type's default width); for such a lane the one-step reduction keeps the
    final width below min-width, unless quantisation gave 0 and the width
    was replaced by (at most) one resolution step.  When quantisation runs,
    a downgraded lane whose quantised width is still at least min-width is
    reduced by one resolution step, or set to
    max(POSITION_EPS, min-width - POSITION_EPS) if that leaves it <= 0; one
    whose quantised width is already below min-width is not reduced (a
    quantised 0 becomes one resolution step); maxWidth then clamps. *)
Theorem setLaneAttributes_narrow_downgrade :
  forall imp minW tc od,
    let ti := tc (od_type od) in
    let w0 := assignedWidth imp tc od in
    let r := setLaneAttributes imp minW tc od in
    forbiddenNarrow imp minW tc od
      = (Qltb w0 minW && negb (Z.eqb (Z.land (getPermissions ti) SVC_PASSENGER) 0)
         && Qltb w0 (getWidth ti))
    /\ permissions r = (if forbiddenNarrow imp minW tc od
                        then Z.lor SVC_EMERGENCY SVC_AUTHORITY else getPermissions ti)
    /\ (forbiddenNarrow imp minW tc od = true -> Geometry.POSITION_EPS < minW ->
        width r < minW
        \/ (quantise w0 (getWidthResolution ti) == 0 /\ width r <= getWidthResolution ti))
    /\ (forbiddenNarrow imp minW tc od = true -> 0 <= w0 -> 0 < getWidthResolution ti ->
        let res := getWidthResolution ti in
        let q := quantise w0 res in
        let clamp := fun x => if Qltb 0 (getMaxWidth ti) then Qmin x (getMaxWidth ti) else x in
        (minW <= q -> q - res <= 0 ->
           width r = clamp (Qmax Geometry.POSITION_EPS (minW - Geometry.POSITION_EPS)))
        /\ (minW <= q -> 0 < q - res -> width r = clamp (q - res))
        /\ (q < minW -> width r = clamp (if Qeq_bool q 0 then res else q))).
Proof.
  intros imp minW tc od ti w0 r.
  split; [reflexivity|]. split; [reflexivity|]. split.
  2:{ intros Hn Hw0 Hres res q clamp.
      assert (Hg : Qle_bool 0 w0 && Qltb 0 res = true).
      { apply andb_true_iff; split; [apply Qle_bool_iff; exact Hw0|].
        unfold Qltb. apply negb_true_iff. destruct (Qle_bool res 0) eqn:E; [|reflexivity].
        apply Qle_bool_iff in E. unfold res in E. lra. }
      unfold r, setLaneAttributes. cbv zeta. cbn [width]. rewrite Hn.
      change (assignedWidth imp tc od) with w0. change (tc (od_type od)) with ti.
      change (getWidthResolution ti) with res in Hg |- *. rewrite Hg. cbn [andb].
      change (quantise w0 res) with q.
      split; [|split].
      - intros Hm Hle. apply Qle_bool_iff in Hm, Hle. rewrite Hm, Hle. reflexivity.
      - intros Hm Hgt. apply Qle_bool_iff in Hm. rewrite Hm.
        destruct (Qle_bool (q - res) 0) eqn:E; [apply Qle_bool_iff in E; lra|reflexivity].
      - intros Hlt. destruct (Qle_bool minW q) eqn:E; [apply Qle_bool_iff in E; lra|].
        destruct (Qeq_bool q 0); reflexivity. }
  intros Hn Heps.
  assert (Hw0 : w0 < minW).
  { pose proof Hn as H. unfold forbiddenNarrow in H.
    apply andb_true_iff in H; destruct H as [H _].
    apply andb_true_iff in H; destruct H as [H _].
    apply ReshaperProofs.Qltb_true in H. exact H. }
  unfold r, setLaneAttributes. cbv zeta. cbn [width]. rewrite Hn.
  change (assignedWidth imp tc od) with w0. change (tc (od_type od)) with ti.
  set (res := getWidthResolution ti). set (mx := getMaxWidth ti).
  destruct (Qle_bool 0 w0 && Qltb 0 res) eqn:Hq.
  - apply andb_true_iff in Hq; destruct Hq as [_ Hres].
    apply ReshaperProofs.Qltb_true in Hres.
    pose proof (quantise_le w0 res Hres) as Hqle.
    cbn [andb].
    destruct (Qle_bool minW (quantise w0 res)) eqn:Hm.
    + left. destruct (Qle_bool (quantise w0 res - res) 0).
      * eapply Qle_lt_trans; [apply clamp_le|].
        unfold Geometry.POSITION_EPS in *. apply Q.max_lub_lt; lra.
      * eapply Qle_lt_trans; [apply clamp_le|]. lra.
    + assert (Hlt : quantise w0 res < minW).
      { apply Qnot_le_lt. intros H. apply Qle_bool_iff in H. congruence. }
      destruct (Qeq_bool (quantise w0 res) 0) eqn:Hz.
      * right. split; [apply Qeq_bool_iff; exact Hz | apply clamp_le].
      * left. eapply Qle_lt_trans; [apply clamp_le|]. exact Hlt.
  - left. eapply Qle_lt_trans; [apply clamp_le|]. exact Hw0.
Qed.

Definition drivingType : TypeInfo := mkTypeInfo (1389 # 100) (Z.lor SVC_PASSENGER 1) (32 # 10) (1 # 2) 0.
Definition tcDriving (t : string) : TypeInfo := drivingType.

Lemma setLaneAttributes_narrow_downgrade_witness :
  forbiddenNarrow true 2 tcDriving (mkODLane "driving" 0 (15 # 10)) = true
  /\ width (setLaneAttributes true 2 tcDriving (mkODLane "driving" 0 (15 # 10))) < 2.
Proof.
  assert (Hn : forbiddenNarrow true 2 tcDriving (mkODLane "driving" 0 (15 # 10)) = true)
    by (vm_compute; reflexivity).
  split; [exact Hn|].
  destruct (setLaneAttributes_narrow_downgrade true 2 tcDriving (mkODLane "driving" 0 (15 # 10)))
    as (_ & _ & H & _).
  destruct (H Hn) as [Hw | (Hz & _)].
  - unfold Geometry.POSITION_EPS; reflexivity.
  - exact Hw.
  - vm_compute in Hz. discriminate.
Defined.

(** A lane of width 1.9 with min-width 2 and resolution 0.5 is quantised
    to 2.0 and then reduced to 1.5. *)
Example setLaneAttributes_one_step_reduction :
  width (setLaneAttributes true 2 tcDriving (mkODLane "driving" 0 (19 # 10))) == 3 # 2
  /\ permissions (setLaneAttributes true 2 tcDriving (mkODLane "driving" 0 (19 # 10)))
     = Z.lor SVC_EMERGENCY SVC_AUTHORITY.
Proof. vm_compute. split; reflexivity. Qed.

(** C5 counterexample: a passenger lane of explicit width 2.2 with
    min-width 2.2 and resolution 0.5 is quantised to 2.0, below the
    minimum, and keeps its type's permissions. *)
Lemma quantised_below_min_not_downgraded_cex :
  let r := setLaneAttributes true (22 # 10) tcDriving (mkODLane "driving" 0 (22 # 10)) in
  width r == 2 /\ width r < 22 # 10
  /\ permissions r = getPermissions drivingType
  /\ permissions r <> Z.lor SVC_EMERGENCY SVC_AUTHORITY
  /\ Z.land (permissions r) SVC_PASSENGER <> 0%Z.
Proof. vm_compute. repeat split; discriminate. Qed.

End LaneAttributesProofs.

Module FlattenerProofs.

Import Flattener.

Lemma fold_left_inv {A B : Type} (f : A -> B -> A) (P : A -> Prop) (l : list B) (a : A) :
  (forall a b, P a -> In b l -> P (f a b)) -> P a -> P (fold_left f l a).
Proof.
  revert a. induction l as [|b l IH]; intros a Hf Ha; simpl; [exact Ha|].
  apply IH; [intros a' b' Ha' Hin; apply Hf; [exact Ha' | right; exact Hin]|].
  apply Hf; [exact Ha | left; reflexivity].
Qed.

Definition outerTargets (inner : list (string * ODEdge)) (l : list Connection) : Prop :=
  Forall (fun x => lookup inner (toEdge x) = None) l.

Lemma withOrigin_toEdge c j oid olane shp : toEdge (withOrigin c j oid olane shp) = toEdge j.
Proof. reflexivity. Qed.

(** The walk only appends connections whose target is outside [inner]. *)
Lemma bcto_outerTargets inner imp sp is (fuel : nat) :
  forall c into seen, outerTargets inner into ->
  outerTargets inner (fst (buildConnectionsToOuter inner imp sp is fuel c into seen)).
Proof.
  induction fuel as [|fuel IH]; intros c into seen Hinto; simpl; [exact Hinto|].
  destruct (lookup inner (toEdge c)) as [dest|]; [|exact Hinto].
  apply (fold_left_inv _ (fun acc => outerTargets inner (fst acc))); [|exact Hinto].
  intros [acc sn] i Hacc _. simpl in Hacc.
  destruct (lookup inner (toEdge i)) as [ie|] eqn:Hi.
  - destruct (negb (seenCount sn i)); [|exact Hacc].
    pose proof (IH i [] sn (Forall_nil _)) as Ht.
    destruct (buildConnectionsToOuter inner imp sp is fuel i [] sn) as [t sn'].
    simpl in Ht |- *. unfold outerTargets. apply Forall_app. split; [exact Hacc|].
    apply Forall_map. exact Ht.
  - destruct (laneSectionsConnected dest (toLane c) (fromLane i)); [|exact Hacc].
    simpl. unfold outerTargets. apply Forall_app. split; [exact Hacc|].
    constructor; [exact Hi | constructor].
Qed.

(** The walk only appends: [into] is a prefix of its result. *)
Lemma bcto_prefix inner imp sp is (fuel : nat) :
  forall c into seen, exists sfx,
  fst (buildConnectionsToOuter inner imp sp is fuel c into seen) = (into ++ sfx)%list.
Proof.
  induction fuel as [|fuel IH]; intros c into seen; simpl.
  - exists []. rewrite app_nil_r. reflexivity.
  - destruct (lookup inner (toEdge c)) as [dest|]; [|exists []; rewrite app_nil_r; reflexivity].
    apply (fold_left_inv _ (fun acc => exists sfx, fst acc = (into ++ sfx)%list));
      [|exists []; rewrite app_nil_r; reflexivity].
    intros [acc sn] i [sfx Hs] _. simpl in Hs.
    destruct (lookup inner (toEdge i)) as [ie|].
    + destruct (negb (seenCount sn i)); [|exists sfx; exact Hs].
      destruct (buildConnectionsToOuter inner imp sp is fuel i [] sn) as [t sn'].
      simpl. eexists. rewrite Hs, <- app_assoc. reflexivity.
    + destruct (laneSectionsConnected dest (toLane c) (fromLane i)); [|exists sfx; exact Hs].
      simpl. eexists. rewrite Hs, <- app_assoc. reflexivity.
Qed.

Lemma found_false (o : option ODEdge) : isFound o = false -> o = None.
Proof. destruct o; [discriminate | reflexivity]. Qed.

(** One step of the inner loop of [flattenConnections]. *)
Definition flatStep imp sp is (edges : list (string * ODEdge)) (acc : list Connection)
    (c : Connection) : list Connection :=
  if isFound (lookup (innerOf edges) (fromEdge c)) then acc
  else if isFound (lookup (innerOf edges) (toEdge c)) then
    fst (buildConnectionsToOuter (innerOf edges) imp sp is (walkFuel edges) c acc [])
  else (acc ++ [c])%list.

Lemma flatten_eq imp sp is edges :
  flattenConnections imp sp is edges
  = fold_left (fun acc p => fold_left (flatStep imp sp is edges) (connections (snd p)) acc)
      edges [].
Proof. reflexivity. Qed.

Lemma flatStep_keeps imp sp is edges acc c x :
  In x acc -> In x (flatStep imp sp is edges acc c).
Proof.
  intros Hx. unfold flatStep.
  destruct (isFound (lookup (innerOf edges) (fromEdge c))); [exact Hx|].
  destruct (isFound (lookup (innerOf edges) (toEdge c))).
  - destruct (bcto_prefix (innerOf edges) imp sp is (walkFuel edges) c acc []) as [sfx Hs].
    rewrite Hs. apply in_or_app. left. exact Hx.
  - apply in_or_app. left. exact Hx.
Qed.

Lemma flatten_keeps imp sp is edges x :
  forall (l : list (string * ODEdge)) acc, In x acc ->
  In x (fold_left (fun acc p => fold_left (flatStep imp sp is edges) (connections (snd p)) acc) l acc).
Proof.
  intros l acc Hx.
  apply (fold_left_inv _ (In x)); [|exact Hx].
  intros a p Ha _. apply (fold_left_inv _ (In x)); [|exact Ha].
  intros a' c Ha' _. apply flatStep_keeps. exact Ha'.
Qed.

(** C6: every connection of the flattened list targets an edge that is not
    inner, and a connection between two outer edges is emitted unchanged. *)
Theorem flattenConnections_outer_targets :
  forall imp sp is (edges : list (string * ODEdge)),
    (forall x, In x (flattenConnections imp sp is edges) ->
       lookup (innerOf edges) (toEdge x) = None)
    /\ (forall p c, In p edges -> In c (connections (snd p)) ->
         lookup (innerOf edges) (fromEdge c) = None ->
         lookup (innerOf edges) (toEdge c) = None ->
         In c (flattenConnections imp sp is edges)).
Proof.
  intros imp sp is edges. split.
  - intros x Hx.
    assert (H : outerTargets (innerOf edges) (flattenConnections imp sp is edges)).
    { rewrite flatten_eq.
      apply (fold_left_inv _ (outerTargets (innerOf edges))); [|constructor].
      intros a p Ha _. apply (fold_left_inv _ (outerTargets (innerOf edges))); [|exact Ha].
      intros a' c Ha' _. unfold flatStep.
      destruct (isFound (lookup (innerOf edges) (fromEdge c))); [exact Ha'|].
      destruct (isFound (lookup (innerOf edges) (toEdge c))) eqn:Ht.
      - apply bcto_outerTargets. exact Ha'.
      - unfold outerTargets. apply Forall_app. split; [exact Ha'|].
        constructor; [apply found_false; exact Ht | constructor]. }
    unfold outerTargets in H. rewrite Forall_forall in H. apply H. exact Hx.
  - intros p c Hp Hc Hf Ht. rewrite flatten_eq.
    apply in_split in Hp. destruct Hp as (l1 & l2 & ->).
    rewrite fold_left_app. simpl. apply flatten_keeps.
    apply in_split in Hc. destruct Hc as (c1 & c2 & Hc). rewrite Hc.
    rewrite fold_left_app. simpl.
    apply (fold_left_inv _ (In c)); [intros a' c' Ha' _; apply flatStep_keeps; exact Ha'|].
    unfold flatStep at 1. rewrite Hf, Ht. simpl.
    apply in_or_app. right. left. reflexivity.
Qed.

Definition noShape (a b : list Geometry.Position) : list Geometry.Position := a.
Definition noInternal (c i : Connection) (e : ODEdge) : list Geometry.Position := [].

Definition conn (f t : string) : Connection :=
  mkConn f t 1 1 Topology.OPENDRIVE_CP_END Topology.OPENDRIVE_CP_START false "" 0 [].

(** Outer A to outer B directly, and outer A through inner J to outer C. *)
Definition edgesAJ : list (string * ODEdge) :=
  [("A", mkODEdge "A" false [conn "A" "B"; conn "A" "J"] [] []);
   ("B", mkODEdge "B" false [] [] []);
   ("J", mkODEdge "J" true [conn "J" "C"] [mkFSection None None] []);
   ("C", mkODEdge "C" false [] [] [])].

Lemma flattenConnections_outer_targets_witness :
  In (conn "A" "B") (flattenConnections false noShape noInternal edgesAJ)
  /\ (forall x, In x (flattenConnections false noShape noInternal edgesAJ) ->
       lookup (innerOf edgesAJ) (toEdge x) = None).
Proof.
  split.
  - apply (proj2 (flattenConnections_outer_targets false noShape noInternal edgesAJ)
             ("A", mkODEdge "A" false [conn "A" "B"; conn "A" "J"] [] [])).
    + left. reflexivity.
    + left. reflexivity.
    + reflexivity.
    + reflexivity.
  - exact (proj1 (flattenConnections_outer_targets false noShape noInternal edgesAJ)).
Defined.

Example flatten_through_junction :
  map (fun x => (fromEdge x, toEdge x, origID x))
      (flattenConnections false noShape noInternal edgesAJ)
  = [("A", "B", ""); ("A", "C", "J")].
Proof. vm_compute. reflexivity. Qed.

End FlattenerProofs.

Module SignalsProofs.

Import Signals.

Definition relevant (dir : OpenDriveXMLTag) (sg : OpenDriveSignal) : bool :=
  negb (Z.eqb (signalTmp (sig_type sg)) 1)
  && ((tag_eqb dir OPENDRIVE_TAG_RIGHT && Z.ltb 0 (orientation sg))
      || (tag_eqb dir OPENDRIVE_TAG_LEFT && Z.ltb (orientation sg) 0)).

Lemma priority_step (dir : OpenDriveXMLTag) (prio : Z) (sg : OpenDriveSignal) :
  (let tmp := signalTmp (sig_type sg) in
   let prio1 := if negb (Z.eqb tmp 1) && tag_eqb dir OPENDRIVE_TAG_RIGHT
                   && Z.ltb 0 (orientation sg) then tmp else prio in
   if negb (Z.eqb tmp 1) && tag_eqb dir OPENDRIVE_TAG_LEFT
      && Z.ltb (orientation sg) 0 then tmp else prio1)
  = if relevant dir sg then signalTmp (sig_type sg) else prio.
Proof.
  unfold relevant. cbv zeta.
  destruct (negb (Z.eqb (signalTmp (sig_type sg)) 1)); [|reflexivity].
  destruct dir; cbn [tag_eqb andb orb];
    destruct (Z.ltb 0 (orientation sg)), (Z.ltb (orientation sg) 0); reflexivity.
Qed.

Lemma signalTmp_range t : signalTmp t = 0%Z \/ signalTmp t = 1%Z \/ signalTmp t = 2%Z.
Proof.
  unfold signalTmp. destruct (String.eqb t "205"); [auto|].
  destruct (String.eqb t "301" || String.eqb t "306"); auto.
Qed.

(** getPriority is the priority of the last signal that counts for the
    direction (type 301 or 306 gives 2, type 205 gives 0, with orientation
    > 0 for the right side and < 0 for the left side), 1 when there is
    none; so it is always 0, 1 or 2, and always 1 for the center. *)
Theorem getPriority_last_relevant (dir : OpenDriveXMLTag) (signals : list OpenDriveSignal) :
  getPriority dir signals
  = match find (relevant dir) (rev signals) with
    | Some sg => signalTmp (sig_type sg)
    | None => 1%Z
    end
  /\ (getPriority dir signals = 0%Z \/ getPriority dir signals = 1%Z
      \/ getPriority dir signals = 2%Z)
  /\ getPriority OPENDRIVE_TAG_CENTER signals = 1%Z.
Proof.
  assert (Hc : forall d l, getPriority d l
                 = match find (relevant d) (rev l) with
                   | Some sg => signalTmp (sig_type sg) | None => 1%Z end).
  { intros d l. induction l as [|x l IH] using rev_ind; [reflexivity|].
    unfold getPriority. rewrite fold_left_app. cbn [fold_left].
    rewrite priority_step. fold (getPriority d l). rewrite IH.
    rewrite rev_app_distr. cbn [rev app find]. destruct (relevant d x); reflexivity. }
  split; [apply Hc|]. split.
  - rewrite Hc. destruct (find (relevant dir) (rev signals)); [apply signalTmp_range | auto].
  - rewrite Hc.
    assert (Hn : forall l, find (relevant OPENDRIVE_TAG_CENTER) l = None).
    { induction l as [|x l IH]; [reflexivity|]. cbn [find].
      unfold relevant at 1. cbn [tag_eqb andb orb]. rewrite andb_false_r. exact IH. }
    rewrite Hn. reflexivity.
Qed.

Definition sigAt (t : string) (o : Z) : OpenDriveSignal := mkSignal "s" t "" o true 0.

Example getPriority_yield_after_priority :
  getPriority OPENDRIVE_TAG_RIGHT [sigAt "301" 1; sigAt "205" 1; sigAt "274" 1] = 0%Z
  /\ getPriority OPENDRIVE_TAG_LEFT [sigAt "301" 1; sigAt "205" 1] = 1%Z.
Proof. split; reflexivity. Qed.

Lemma Qltb_iff (x y : Q) : Reshaper.Qltb x y = true <-> x < y.
Proof. split; [apply ReshaperProofs.Qltb_true|].
  intros H. unfold Reshaper.Qltb. destruct (Qle_bool y x) eqn:E; [|reflexivity].
  apply Qle_bool_iff in E. exfalso. apply (Qlt_not_le x y H E).
Qed.

Lemma tlsSection_cons2 x a b l :
  tlsSection x (a :: b :: l)
  = if Reshaper.Qltb a x && Qle_bool x b then O else S (tlsSection x (b :: l)).
Proof. reflexivity. Qed.

Lemma last_in {A : Type} (l : list A) (d : A) : l <> [] -> In (List.last l d) l.
Proof.
  induction l as [|a l IH]; [congruence|]. intros _.
  destruct l as [|b l]; [left; reflexivity|].
  right. apply IH. discriminate.
Qed.

(** With section starts that strictly increase, a traffic-light signal at
    [x] is put on the section [k] with [s_k < x <= s_(k+1)]; a signal at
    or before the first section's start, or after the last one's, is put
    on the last section. *)
Theorem tlsSection_placement (l : list Q) (x : Q) :
  StronglySorted Qlt l ->
  (forall k, (S k < List.length l)%nat ->
     nth k l 0 < x -> x <= nth (S k) l 0 -> tlsSection x l = k)
  /\ (l <> [] -> (x <= hd 0 l \/ List.last l 0 < x) ->
      tlsSection x l = (List.length l - 1)%nat).
Proof.
  intros Hs. split.
  - revert Hs. induction l as [|a l IH]; intros Hs k Hk Ha Hb; cbn [List.length] in Hk; [lia|].
    destruct l as [|b l]; cbn [List.length] in Hk; [lia|].
    apply StronglySorted_inv in Hs as [Hs Hall].
    rewrite tlsSection_cons2.
    destruct k as [|k].
    + cbn [nth] in Ha, Hb.
      assert (E : Reshaper.Qltb a x && Qle_bool x b = true).
      { apply andb_true_iff. split; [apply Qltb_iff; exact Ha | apply Qle_bool_iff; exact Hb]. }
      rewrite E. reflexivity.
    + cbn [nth] in Ha, Hb.
      assert (Hbk : b <= nth k (b :: l) 0).
      { destruct k as [|k]; [apply Qle_refl|].
        apply StronglySorted_inv in Hs as [_ Hb'].
        rewrite Forall_forall in Hb'. apply Qlt_le_weak, Hb'. cbn [nth].
        apply nth_In. cbn [List.length] in Hk. lia. }
      assert (E : Qle_bool x b = false).
      { destruct (Qle_bool x b) eqn:E; [|reflexivity].
        apply Qle_bool_iff in E. exfalso. apply (Qlt_not_le _ _ Ha). eapply Qle_trans; eauto. }
      rewrite E, andb_false_r. f_equal. apply IH; [exact Hs | cbn [List.length]; lia | exact Ha | exact Hb].
  - intros Hne Hx. revert Hs Hne Hx. induction l as [|a l IH]; intros Hs Hne Hx; [congruence|].
    destruct l as [|b l]; [reflexivity|].
    apply StronglySorted_inv in Hs as [Hs Hall]. rewrite Forall_forall in Hall.
    rewrite tlsSection_cons2. cbn [List.length].
    assert (E : Reshaper.Qltb a x && Qle_bool x b = false).
    { destruct Hx as [Hx | Hx].
      - cbn [hd] in Hx. destruct (Reshaper.Qltb a x) eqn:E; [|reflexivity].
        apply Qltb_iff in E. exfalso. apply (Qlt_not_le _ _ E Hx).
      - destruct (Qle_bool x b) eqn:E; [|apply andb_false_r].
        apply Qle_bool_iff in E. exfalso.
        assert (Hl : b <= List.last (b :: l) 0).
        { apply StronglySorted_inv in Hs as [_ Hb'].
          destruct l as [|c l]; [apply Qle_refl|].
          rewrite Forall_forall in Hb'.
          change (List.last (b :: c :: l) 0) with (List.last (c :: l) 0).
          apply Qlt_le_weak, Hb'. apply last_in. discriminate. }
        cbn [List.last] in Hx. apply (Qlt_not_le _ _ Hx). eapply Qle_trans; eauto. }
    rewrite E. cbv beta iota. rewrite IH; [cbn [List.length]; lia | exact Hs | discriminate |].
    destruct Hx as [Hx | Hx]; [left | right; exact Hx].
    cbn [hd] in Hx |- *. apply Qle_trans with a; [exact Hx|]. apply Qlt_le_weak, Hall. left; reflexivity.
Qed.

Lemma tlsSection_placement_witness :
  tlsSection 30 [0; 20; 50] = 1%nat /\ tlsSection 0 [0; 20; 50] = 2%nat.
Proof.
  assert (Hs : StronglySorted Qlt [0; 20; 50]).
  { repeat constructor; vm_compute; reflexivity. }
  destruct (tlsSection_placement [0; 20; 50] 30 Hs) as [H1 _].
  destruct (tlsSection_placement [0; 20; 50] 0 Hs) as [_ H2].
  split.
  - apply H1; [cbn; lia | vm_compute; reflexivity | vm_compute; discriminate].
  - apply H2; [discriminate | left; apply Qle_refl].
Defined.

Lemma findArrow_cons (c : ascii) (rest : string) :
  findArrow (String c rest)
  = if Ascii.eqb c "-"%char then
      match rest with
      | String c' _ => if Ascii.eqb c' ">"%char then Some O else option_map S (findArrow rest)
      | EmptyString => None
      end
    else option_map S (findArrow rest).
Proof. reflexivity. Qed.

Lemma findArrow_app (a b : string) :
  findArrow a = None -> findArrow (a ++ "->" ++ b) = Some (String.length a).
Proof.
  induction a as [|c a IH]; intros H; [reflexivity|].
  change (String c a ++ "->" ++ b) with (String c (a ++ "->" ++ b)).
  rewrite findArrow_cons. rewrite findArrow_cons in H.
  destruct (Ascii.eqb c "-"%char).
  - destruct a as [|c' a].
    + reflexivity.
    + change (String c' a ++ "->" ++ b) with (String c' (a ++ "->" ++ b)).
      cbv beta iota in H |- *.
      destruct (Ascii.eqb c' ">"%char); [discriminate|].
      destruct (findArrow (String c' a)) eqn:E; [discriminate|].
      specialize (IH eq_refl). cbn [append] in IH |- *. rewrite IH. reflexivity.
  - destruct (findArrow a) eqn:E; [discriminate|]. rewrite (IH eq_refl). reflexivity.
Qed.

Lemma substring_app (a b : string) : substring 0 (String.length a) (a ++ b) = a.
Proof. induction a as [|c a IH]; [destruct b; reflexivity|]. cbn. rewrite IH. reflexivity. Qed.

(** The traffic-light id [fromID + "->" + toID] of a signal on a
    junction road is cut back to [fromID], the incoming edge, whenever
    [fromID] contains no "->"; an id without "->" is left as is. *)
Theorem tlsTrim_arrow (fromID toID : string) :
  findArrow fromID = None ->
  tlsTrim (fromID ++ "->" ++ toID) = fromID /\ tlsTrim fromID = fromID.
Proof.
  intros H. unfold tlsTrim. rewrite findArrow_app by exact H. rewrite H.
  split; [apply substring_app | reflexivity].
Qed.

Lemma tlsTrim_arrow_witness :
  tlsTrim ("-R.0.00" ++ "->" ++ "S.0.00") = "-R.0.00".
Proof. exact (proj1 (tlsTrim_arrow "-R.0.00" "S.0.00" eq_refl)). Defined.

End SignalsProofs.

Module ParseProofs.

Import Geometry Parse.

(** addGeometryShape fails with "Mismatching paranthesis" when the road
    has no geometry yet and with "Double geometry information" when the
    last geometry already has a type; otherwise it gives the last geometry
    the type and parameters and leaves the others unchanged, so a second
    call with a known type always fails. *)
Theorem addGeometryShape_once (roadId : string) (type t2 : GeometryType) (vals v2 : list Q) :
  addGeometryShape roadId [] type vals = inl (MismatchingParanthesis roadId)
  /\ (forall init lastG,
        addGeometryShape roadId (init ++ [lastG])%list type vals
        = if gt_eqb (g_type lastG) OPENDRIVE_GT_UNKNOWN
          then inr (init ++ [setShape lastG type vals])%list
          else inl (DoubleGeometry roadId))
  /\ (forall gs gs', addGeometryShape roadId gs type vals = inr gs' ->
        type <> OPENDRIVE_GT_UNKNOWN ->
        addGeometryShape roadId gs' t2 v2 = inl (DoubleGeometry roadId)).
Proof.
  assert (Hsnoc : forall ty vs init lastG,
            addGeometryShape roadId (init ++ [lastG])%list ty vs
            = if gt_eqb (g_type lastG) OPENDRIVE_GT_UNKNOWN
              then inr (init ++ [setShape lastG ty vs])%list
              else inl (DoubleGeometry roadId)).
  { intros ty vs init lastG. unfold addGeometryShape.
    rewrite rev_app_distr. cbn [rev app]. rewrite rev_involutive.
    destruct (gt_eqb (g_type lastG) OPENDRIVE_GT_UNKNOWN); reflexivity. }
  split; [reflexivity|]. split; [apply Hsnoc|].
  intros gs gs' H Ht.
  destruct gs as [|g0 gs0] using rev_ind; [discriminate|].
  rewrite Hsnoc in H.
  destruct (gt_eqb (g_type g0) OPENDRIVE_GT_UNKNOWN); [|discriminate].
  injection H as <-. rewrite Hsnoc. cbn [setShape g_type].
  destruct type; [congruence | reflexivity..].
Qed.

Definition geomAt (x : Q) : OpenDriveGeometry := mkGeom 10 0 x 0 0 OPENDRIVE_GT_UNKNOWN [].

Lemma addGeometryShape_once_witness :
  addGeometryShape "R" [setShape (geomAt 0) OPENDRIVE_GT_LINE []; geomAt 10]
                   OPENDRIVE_GT_ARC [1 # 100] = inr [setShape (geomAt 0) OPENDRIVE_GT_LINE [];
                                                     setShape (geomAt 10) OPENDRIVE_GT_ARC [1 # 100]]
  /\ addGeometryShape "R" [setShape (geomAt 0) OPENDRIVE_GT_LINE [];
                           setShape (geomAt 10) OPENDRIVE_GT_ARC [1 # 100]]
                      OPENDRIVE_GT_LINE [] = inl (DoubleGeometry "R").
Proof.
  assert (E : addGeometryShape "R" [setShape (geomAt 0) OPENDRIVE_GT_LINE []; geomAt 10]
                   OPENDRIVE_GT_ARC [1 # 100] = inr [setShape (geomAt 0) OPENDRIVE_GT_LINE [];
                                                     setShape (geomAt 10) OPENDRIVE_GT_ARC [1 # 100]])
    by reflexivity.
  split; [exact E|].
  destruct (addGeometryShape_once "R" OPENDRIVE_GT_ARC OPENDRIVE_GT_LINE [1 # 100] []) as (_ & _ & H).
  exact (H _ _ E ltac:(discriminate)).
Defined.

End ParseProofs.

Module ConnOrderProofs.

Import Flattener ConnOrder.

Lemma ascii_compare_refl (a : ascii) : Ascii.compare a a = Eq.
Proof. unfold Ascii.compare. apply N.compare_refl. Qed.

Lemma str_compare_refl (a : string) : String.compare a a = Eq.
Proof. induction a as [|c a IH]; [reflexivity|]. cbn. rewrite ascii_compare_refl. exact IH. Qed.

Lemma str_compare_trans (a b c : string) :
  String.compare a b = Lt -> String.compare b c = Lt -> String.compare a c = Lt.
Proof.
  revert b c. induction a as [|x a IH]; intros [|y b] [|z c] H1 H2; cbn in *; try discriminate; auto.
  destruct (Ascii.compare x y) eqn:Exy; try discriminate;
  destruct (Ascii.compare y z) eqn:Eyz; try discriminate.
  - apply Ascii.compare_eq_iff in Exy, Eyz. subst. rewrite ascii_compare_refl. eauto.
  - apply Ascii.compare_eq_iff in Exy. subst. rewrite Eyz. reflexivity.
  - apply Ascii.compare_eq_iff in Eyz. subst. rewrite Exy. reflexivity.
  - unfold Ascii.compare in *. apply N.compare_lt_iff in Exy, Eyz.
    assert (E : N.compare (N_of_ascii x) (N_of_ascii z) = Lt) by (apply N.compare_lt_iff; eapply N.lt_trans; eauto).
    rewrite E. reflexivity.
Qed.

Lemma str_ltb_irrefl (a : string) : String.ltb a a = false.
Proof. unfold String.ltb. rewrite str_compare_refl. reflexivity. Qed.

Lemma str_ltb_trans (a b c : string) :
  String.ltb a b = true -> String.ltb b c = true -> String.ltb a c = true.
Proof.
  unfold String.ltb. destruct (String.compare a b) eqn:E1; try discriminate.
  destruct (String.compare b c) eqn:E2; try discriminate.
  rewrite (str_compare_trans a b c E1 E2). reflexivity.
Qed.

Lemma str_ltb_total (a b : string) : a <> b -> String.ltb a b = true \/ String.ltb b a = true.
Proof.
  intros Hne. unfold String.ltb. rewrite (String.compare_antisym b a).
  destruct (String.compare a b) eqn:E; cbn; auto.
  apply String.compare_eq_iff in E. contradiction.
Qed.

Lemma str_ltb_asym (a b : string) : String.ltb a b = true -> String.ltb b a = false.
Proof.
  unfold String.ltb. rewrite (String.compare_antisym b a).
  destruct (String.compare a b); cbn; congruence.
Qed.

Ltac key_cases :=
  repeat match goal with
  | |- context [String.eqb ?x ?y] => destruct (String.eqb_spec x y)
  | |- context [Z.eqb ?x ?y] => destruct (Z.eqb_spec x y)
  | H : context [String.eqb ?x ?y] |- _ => destruct (String.eqb_spec x y)
  | H : context [Z.eqb ?x ?y] |- _ => destruct (Z.eqb_spec x y)
  end; cbn [negb] in *; subst.

(** The [operator<] of Connection is a strict total order on the key
    (fromEdge, toEdge, fromLane, toLane): irreflexive and transitive, and
    two connections are the same element of a [std::set<Connection>]
    (neither is smaller) exactly when their keys are equal, so a second
    connection with the key of one already in the set is not inserted. *)
Theorem connLt_strict_order :
  (forall c, connLt c c = false)
  /\ (forall a b c, connLt a b = true -> connLt b c = true -> connLt a c = true)
  /\ (forall a b, sameConn a b = true <-> connLt a b = false /\ connLt b a = false).
Proof.
  split; [|split].
  - intros c. unfold connLt. rewrite !String.eqb_refl, Z.eqb_refl. cbn. apply Z.ltb_irrefl.
  - intros [] [] []. unfold connLt; cbn [fromEdge toEdge fromLane toLane]. key_cases; intros H1 H2;
      try solve [exact (str_ltb_trans _ _ _ H1 H2) | exact H1 | exact H2 | congruence
                | apply Z.ltb_lt; apply Z.ltb_lt in H1; apply Z.ltb_lt in H2; lia].
    all: first [ rewrite (str_ltb_asym _ _ H1) in H2; discriminate
               | apply Z.ltb_lt in H1; apply Z.ltb_lt in H2; lia ].
  - intros a b. unfold sameConn, connLt. split.
    + intros H. rewrite !andb_true_iff in H. destruct H as [[[H1 H2] H3] H4].
      apply String.eqb_eq in H1, H2. apply Z.eqb_eq in H3, H4.
      rewrite H1, H2, H3, H4, !String.eqb_refl, Z.eqb_refl. cbn.
      rewrite Z.ltb_irrefl. split; reflexivity.
    + destruct a, b; cbn [fromEdge toEdge fromLane toLane] in *.
      intros [H1 H2]. key_cases; rewrite ?String.eqb_refl, ?Z.eqb_refl; cbn;
        try reflexivity.
      all: try solve [match goal with
                      | n : ?x <> ?y, H : String.ltb ?x ?y = false |- _ =>
                          destruct (str_ltb_total _ _ n); congruence end].
      all: repeat match goal with H : (_ <? _)%Z = false |- _ => apply Z.ltb_ge in H end;
           lia.
Qed.

End ConnOrderProofs.

Module SectionsProofs.

Import Sections.
Import Signals (OpenDriveXMLTag, OPENDRIVE_TAG_LEFT, OPENDRIVE_TAG_RIGHT, OPENDRIVE_TAG_CENTER, tag_eqb).
Local Open Scope Q_scope.

Lemma Qltb_false_iff (x y : Q) : Reshaper.Qltb x y = false <-> y <= x.
Proof.
  unfold Reshaper.Qltb. rewrite <- Qle_bool_iff.
  destruct (Qle_bool y x); cbn; split; congruence.
Qed.

Ltac qltb_facts :=
  repeat match goal with
  | H : Reshaper.Qltb _ _ = true |- _ => apply SignalsProofs.Qltb_iff in H
  | H : Reshaper.Qltb _ _ = false |- _ => apply Qltb_false_iff in H
  | H : (_ || _)%bool = false |- _ => apply Bool.orb_false_iff in H; destruct H
  end.

(** Consecutive values at least [minDist] apart, starting from [prev]. *)
Fixpoint spaced (minDist prev : Q) (l : list Q) : Prop :=
  match l with
  | [] => True
  | x :: r => prev + minDist <= x /\ spaced minDist x r
  end.

Lemma filterSplits_gen (secS sectionEnd minDist : Q) (l : list Q) : forall prev,
  (forall x, In x (filterSplits secS sectionEnd minDist prev l) ->
     In x l /\ secS <= x /\ x <= sectionEnd - minDist)
  /\ spaced minDist prev (filterSplits secS sectionEnd minDist prev l).
Proof.
  induction l as [|a l IH]; intros prev; cbn [filterSplits].
  - split; [intros x []|exact I].
  - destruct (Reshaper.Qltb (a - prev) minDist || Reshaper.Qltb (sectionEnd - a) minDist) eqn:E1.
    + destruct (IH prev) as [H1 H2]. split; [|exact H2].
      intros x Hx. destruct (H1 x Hx) as (? & ? & ?). split; [right|]; auto.
    + destruct (Reshaper.Qltb a secS) eqn:E2.
      * destruct (IH prev) as [H1 H2]. split; [|exact H2].
        intros x Hx. destruct (H1 x Hx) as (? & ? & ?). split; [right|]; auto.
      * qltb_facts. destruct (IH a) as [H1 H2]. split.
        -- intros x [<-|Hx].
           ++ split; [left; reflexivity|]. split; [assumption|]. lra.
           ++ destruct (H1 x Hx) as (? & ? & ?). split; [right|]; auto.
        -- cbn [spaced]. split; [lra|exact H2].
Qed.

(** [splitMinWidths] keeps, of the sorted split positions of a section
    starting at [s], only positions taken from the candidates that lie in
    [[s, sectionEnd - minDist]] and are at least [minDist] after [s] and
    after the previously kept one. *)
Theorem filterSplits_spacing (secS sectionEnd minDist : Q) (l : list Q) :
  (forall x, In x (filterSplits secS sectionEnd minDist secS l) ->
     In x l /\ secS <= x /\ x <= sectionEnd - minDist)
  /\ spaced minDist secS (filterSplits secS sectionEnd minDist secS l).
Proof. apply filterSplits_gen. Qed.

Lemma map_fst_combine {A B : Type} (l1 : list A) : forall (l2 : list B),
  (length l1 <= length l2)%nat -> map fst (combine l1 l2) = l1.
Proof.
  induction l1 as [|a l1 IH]; intros [|b l2] H; cbn in *; try reflexivity; try lia.
  f_equal. apply IH. lia.
Qed.

Lemma Sorted_app_lt (l1 : list Q) : forall l2,
  Sorted Qlt l1 -> Sorted Qlt l2 -> (forall x y, In x l1 -> In y l2 -> x < y) ->
  Sorted Qlt (l1 ++ l2).
Proof.
  induction l1 as [|a l1 IH]; intros l2 H1 H2 H; [exact H2|].
  cbn [app]. inversion H1 as [|? ? Hs Hhd]; subst. constructor.
  - apply IH; [exact Hs|exact H2|]. intros x y Hx Hy. apply H; [right|]; assumption.
  - destruct l1 as [|b l1]; cbn [app].
    + destruct l2 as [|c l2]; constructor. apply H; left; reflexivity.
    + inversion Hhd; subst. constructor. assumption.
Qed.

Lemma spaced_sorted (minDist : Q) (H : 0 < minDist) (l : list Q) : forall p,
  spaced minDist p l -> Sorted Qlt (p :: l).
Proof.
  induction l as [|x l IH]; intros p Hs; [repeat constructor|].
  destruct Hs as [H1 H2]. constructor; [apply IH; exact H2|]. constructor. lra.
Qed.

Section Split.

Variable computeAt : OpenDriveWidth -> Q -> Q.
Variables myMinWidth : Q.
Variables knownType vehicleType : string -> bool.

Lemma splitSection_s (minDist sectionEnd : Q) (sec : OpenDriveLaneSection) :
  exists cands,
    map s (splitSection computeAt myMinWidth knownType vehicleType minDist sectionEnd sec)
    = s sec :: filterSplits (s sec) sectionEnd minDist (s sec) cands.
Proof.
  unfold splitSection.
  match goal with |- context [filterSplits _ _ _ _ ?c] => exists c end.
  destruct (filterSplits _ _ _ _ _) as [|first rest] eqn:E; [reflexivity|].
  cbn [map]. f_equal. rewrite map_map.
  transitivity (map fst (combine (first :: rest) (tl (first :: rest) ++ [sectionEnd])%list)).
  - apply map_ext. intros [x e]. reflexivity.
  - apply map_fst_combine. cbn [tl length]. rewrite length_app. cbn [length]. lia.
Qed.

End Split.

(** With a positive [minDist], [splitMinWidths] keeps the lane sections
    of a road in strictly increasing order of their start [s] when they
    were so: the new sections of a section start after it and before the
    next section of the road, and at distinct positions. *)
Theorem splitMinWidths_sorted (computeAt : OpenDriveWidth -> Q -> Q) (myMinWidth : Q)
    (knownType vehicleType : string -> bool) (minDist length : Q)
    (secs : list OpenDriveLaneSection) :
  0 < minDist -> Sorted Qlt (map s secs) ->
  Sorted Qlt (map s (splitMinWidths computeAt myMinWidth knownType vehicleType minDist length secs)).
Proof.
  intros Hmin.
  assert (Hgen : forall secs, Sorted Qlt (map s secs) ->
    Sorted Qlt (map s (splitMinWidths computeAt myMinWidth knownType vehicleType minDist length secs))
    /\ (forall sec0 rest, secs = sec0 :: rest -> forall y,
          In y (map s (splitMinWidths computeAt myMinWidth knownType vehicleType minDist length secs)) ->
          s sec0 <= y)).
  { induction secs0 as [|sec rest IH]; intros Hs.
    - split; [constructor|]. intros ? ? [=].
    - cbn [splitMinWidths]. rewrite map_app.
      inversion Hs as [|? ? Hs' Hhd]; subst.
      destruct (IH Hs') as [IH1 IH2].
      set (sectionEnd := match rest with n :: _ => s n | [] => length end).
      destruct (splitSection_s computeAt myMinWidth knownType vehicleType minDist sectionEnd sec)
        as [cands Hc].
      destruct (filterSplits_gen (s sec) sectionEnd minDist cands (s sec)) as [F1 F2].
      rewrite Hc. split.
      + apply Sorted_app_lt; [apply (spaced_sorted minDist Hmin); exact F2|exact IH1|].
        intros x y Hx Hy.
        destruct rest as [|n rest']; [cbn in Hy; contradiction|].
        assert (Hn : s n <= y) by (eapply IH2; [reflexivity|exact Hy]).
        cbn [map] in Hhd. inversion Hhd; subst.
        destruct Hx as [<-|Hx].
        * lra.
        * destruct (F1 x Hx) as (_ & _ & Hle). subst sectionEnd. lra.
      + intros sec0 rest0 [= <- <-] y Hy. apply in_app_or in Hy as [[<-|Hy]|Hy].
        * lra.
        * destruct (F1 y Hy) as (_ & Hle & _). exact Hle.
        * destruct rest as [|n rest']; [cbn in Hy; contradiction|].
          assert (Hn : s n <= y) by (eapply IH2; [reflexivity|exact Hy]).
          cbn [map] in Hhd. inversion Hhd; subst. lra. }
  intros Hs. exact (proj1 (Hgen secs Hs)).
Qed.

Lemma mapFind_mapSet (m : list (Z * Z)) (k v k' : Z) :
  mapFind (mapSet m k v) k' = if Z.eqb k k' then Some v else mapFind m k'.
Proof.
  induction m as [|[a b] m IH]; cbn [mapSet mapFind].
  - reflexivity.
  - destruct (Z.eqb_spec a k) as [->|Hne]; cbn [mapFind].
    + destruct (Z.eqb k k'); reflexivity.
    + rewrite IH. destruct (Z.eqb_spec a k'), (Z.eqb_spec k k'); congruence.
Qed.

(** The loop body of getInnerConnections. *)
Definition innerStep (UNSET_CONNECTION : Z) (sec : OpenDriveLaneSection)
    (dir : OpenDriveXMLTag) (prev : OpenDriveLaneSection) (ret : list (Z * Z))
    (l : OpenDriveLane) : list (Z * Z) :=
  match mapFind (laneMap sec) (l_id l) with
  | None => ret
  | Some to =>
      let from := if negb (Z.eqb (predecessor l) UNSET_CONNECTION)
                  then predecessor l else UNSET_CONNECTION in
      let from := if negb (Z.eqb from UNSET_CONNECTION)
                  then match mapFind (laneMap prev) from with
                       | Some f => f
                       | None => UNSET_CONNECTION
                       end
                  else from in
      if negb (Z.eqb from UNSET_CONNECTION) && negb (Z.eqb to UNSET_CONNECTION) then
        let '(from, to) := if tag_eqb dir OPENDRIVE_TAG_LEFT then (to, from) else (from, to) in
        mapSet ret from to
      else ret
  end.

Lemma getInnerConnections_fold UNSET_CONNECTION sec dir prev :
  getInnerConnections UNSET_CONNECTION sec dir prev
  = fold_left (innerStep UNSET_CONNECTION sec dir prev) (rev (lanesOf sec dir)) [].
Proof. reflexivity. Qed.

Definition identMap (m : list (Z * Z)) : Prop := forall k v, mapFind m k = Some v -> k = v.

Lemma innerStep_straight UNSET sec dir prev ret l :
  laneMap prev = laneMap sec -> predecessor l = l_id l -> identMap ret ->
  identMap (innerStep UNSET sec dir prev ret l)
  /\ (forall k, mapFind ret k = Some k -> mapFind (innerStep UNSET sec dir prev ret l) k = Some k)
  /\ (l_id l <> UNSET -> forall v, mapFind (laneMap sec) (l_id l) = Some v -> v <> UNSET ->
        mapFind (innerStep UNSET sec dir prev ret l) v = Some v).
Proof.
  intros Hm Hp Hid. unfold innerStep. rewrite Hp, Hm.
  destruct (mapFind (laneMap sec) (l_id l)) as [to|] eqn:Eto.
  2: { split; [exact Hid|]. split; [auto|]. intros _ v [=]. }
  cbv zeta.
  destruct (Z.eqb_spec (l_id l) UNSET) as [Heq|Hne]; cbn [negb]; cbv iota.
  - rewrite Heq. repeat (rewrite (Z.eqb_refl UNSET); cbn [negb]; cbv iota). cbn [andb]. split; [exact Hid|]. split; [auto|].
    intros Habs. contradiction.
  - destruct (Z.eqb_spec (l_id l) UNSET); [contradiction|]. cbn [negb]. rewrite Eto.
    assert (Hset : forall k, mapFind (mapSet ret to to) k
                             = if Z.eqb to k then Some to else mapFind ret k)
      by (intros; apply mapFind_mapSet).
    destruct (Z.eqb_spec to UNSET) as [Ht|Ht]; cbn [negb andb].
    + split; [exact Hid|]. split; [auto|]. intros _ v [= <-]. contradiction.
    + assert (Hid' : identMap (mapSet ret to to)).
      { intros k v. rewrite Hset. destruct (Z.eqb_spec to k); [congruence|apply Hid]. }
      destruct (tag_eqb dir OPENDRIVE_TAG_LEFT); (split; [exact Hid'|]); split.
      1,3: intros k Hk; rewrite Hset; destruct (Z.eqb_spec to k); congruence.
      all: intros _ v [= <-] _; rewrite Hset, Z.eqb_refl; reflexivity.
Qed.

Lemma inner_fold_straight UNSET sec dir prev (Hm : laneMap prev = laneMap sec) :
  forall ls ret, (forall l, In l ls -> predecessor l = l_id l) -> identMap ret ->
  identMap (fold_left (innerStep UNSET sec dir prev) ls ret)
  /\ (forall l, In l ls -> l_id l <> UNSET -> forall v,
        mapFind (laneMap sec) (l_id l) = Some v -> v <> UNSET ->
        mapFind (fold_left (innerStep UNSET sec dir prev) ls ret) v = Some v).
Proof.
  assert (Hkeep : forall ls ret k, (forall l, In l ls -> predecessor l = l_id l) -> identMap ret ->
            mapFind ret k = Some k ->
            mapFind (fold_left (innerStep UNSET sec dir prev) ls ret) k = Some k).
  { induction ls as [|a ls IH]; intros ret k Hp Hid Hk; [exact Hk|]. cbn [fold_left].
    destruct (innerStep_straight UNSET sec dir prev ret a Hm (Hp a (or_introl eq_refl)) Hid)
      as (H1 & H2 & _).
    apply IH; [intros; apply Hp; right; assumption|exact H1|apply H2; exact Hk]. }
  induction ls as [|a ls IH]; intros ret Hp Hid; cbn [fold_left].
  - split; [exact Hid|]. intros ? [].
  - destruct (innerStep_straight UNSET sec dir prev ret a Hm (Hp a (or_introl eq_refl)) Hid)
      as (H1 & H2 & H3).
    assert (Hp' : forall l, In l ls -> predecessor l = l_id l) by (intros; apply Hp; right; assumption).
    destruct (IH _ Hp' H1) as [IH1 IH2]. split; [exact IH1|].
    intros l [<-|Hl] Hu v Hv Hvu.
    + apply Hkeep; [exact Hp'|exact H1|]. apply H3; assumption.
    + apply (IH2 l); assumption.
Qed.

(** A section cloned by [splitMinWidths] gets straight connections
    ([setStraightConnections]) and keeps the lane map; its inner
    connections to the previous part, which has the same lane map, join
    every SUMO lane to itself: each entry of the result maps a lane to
    itself, and every lane of the direction that is mapped to a SUMO lane
    (neither id nor index [UNSET_CONNECTION]) has its entry. *)
Theorem straight_inner_connections_identity (UNSET_CONNECTION : Z)
    (sec prev : OpenDriveLaneSection) (dir : OpenDriveXMLTag) :
  dir <> OPENDRIVE_TAG_CENTER -> laneMap prev = laneMap sec ->
  let cur := withLanes sec (setStraightConnections (leftLanes sec))
                           (setStraightConnections (rightLanes sec)) in
  (forall k v, mapFind (getInnerConnections UNSET_CONNECTION cur dir prev) k = Some v -> k = v)
  /\ (forall l v, In l (lanesOf sec dir) -> l_id l <> UNSET_CONNECTION ->
        mapFind (laneMap sec) (l_id l) = Some v -> v <> UNSET_CONNECTION ->
        mapFind (getInnerConnections UNSET_CONNECTION cur dir prev) v = Some v).
Proof.
  intros Hdir Hm cur. rewrite getInnerConnections_fold.
  assert (Hl : lanesOf cur dir = setStraightConnections (lanesOf sec dir))
    by (destruct dir; [reflexivity|contradiction|reflexivity]).
  assert (Hmc : laneMap prev = laneMap cur) by exact Hm.
  assert (Hp : forall l, In l (rev (lanesOf cur dir)) -> predecessor l = l_id l).
  { intros l Hin. rewrite Hl in Hin. apply in_rev in Hin.
    unfold setStraightConnections in Hin. apply in_map_iff in Hin as (l0 & <- & _). reflexivity. }
  assert (Hid : identMap []) by (intros k v [=]).
  destruct (inner_fold_straight UNSET_CONNECTION cur dir prev Hmc (rev (lanesOf cur dir)) [] Hp Hid)
    as [H1 H2].
  split; [exact H1|]. intros l v Hin Hu Hv Hvu.
  apply (H2 (setPredecessor l (l_id l))); try assumption.
  rewrite Hl. apply (in_rev (setStraightConnections (lanesOf sec dir))).
  exact (in_map (fun l => setPredecessor l (l_id l)) _ _ Hin).
Qed.

(** The loop body of buildLaneMapping. *)
Definition mapStep (imported : string -> bool) (acc : list (Z * Z) * Z * list string * bool)
    (l : OpenDriveLane) : list (Z * Z) * Z * list string * bool :=
  let '(m, sumoLane, types, singleType) := acc in
  if imported (l_type l) then
    let types' := (types ++ [l_type l])%list in
    (mapSet m (l_id l) sumoLane, Z.succ sumoLane, types',
     if negb (String.eqb (hd "" types') (List.last types' "")) then false else singleType)
  else acc.

Lemma mapLanes_fold imported m ls :
  mapLanes imported m ls = fold_left (mapStep imported) ls (m, 0%Z, [], true).
Proof. reflexivity. Qed.

Definition keptLanes (imported : string -> bool) (ls : list OpenDriveLane) : list OpenDriveLane :=
  filter (fun l => imported (l_type l)) ls.

Definition allSame (types : list string) : Prop := Forall (fun t => t = hd ""%string types) types.

Lemma single_step (types : list string) (t : string) (single : bool) :
  (single = true <-> allSame types) ->
  ((if negb (String.eqb (hd ""%string (types ++ [t])%list) (List.last (types ++ [t])%list ""%string))
    then false else single) = true <-> allSame (types ++ [t])%list).
Proof.
  intros Hs. rewrite last_last. unfold allSame in *.
  assert (Hhd : hd ""%string (types ++ [t])%list = match types with [] => t | h :: _ => h end)
    by (destruct types; reflexivity).
  rewrite Hhd. destruct types as [|h r].
  - rewrite String.eqb_refl. cbn. split; [intros _; repeat constructor|intros _].
    apply Hs. constructor.
  - cbn [hd] in Hs |- *. destruct (String.eqb_spec h t) as [<-|Hne]; cbn [negb].
    + rewrite Hs, Forall_app. split; [intros H; split; [exact H|repeat constructor]|intros [H _]; exact H].
    + split; [discriminate|]. intros H. apply Forall_app in H as [_ H].
      inversion H; subst. congruence.
Qed.

Lemma mapLanes_gen (imported : string -> bool) (ls : list OpenDriveLane) :
  forall m n types single,
  (single = true <-> allSame types) ->
  let '(m', n', types', single') := fold_left (mapStep imported) ls (m, n, types, single) in
  n' = (n + Z.of_nat (length (keptLanes imported ls)))%Z
  /\ types' = (types ++ map l_type (keptLanes imported ls))%list
  /\ (single' = true <-> allSame types')
  /\ (forall k, ~ In k (map l_id (keptLanes imported ls)) -> mapFind m' k = mapFind m k)
  /\ (NoDup (map l_id (keptLanes imported ls)) -> forall i l,
        nth_error (keptLanes imported ls) i = Some l ->
        mapFind m' (l_id l) = Some (n + Z.of_nat i)%Z).
Proof.
  induction ls as [|a ls IH]; intros m n types single Hs.
  - cbn. rewrite app_nil_r. split; [lia|]. split; [reflexivity|]. split; [exact Hs|].
    split; [reflexivity|]. intros _ [|i] l [=].
  - cbn [fold_left]. unfold keptLanes at 1 2 3 4 5. cbn [filter].
    fold (keptLanes imported ls).
    unfold mapStep at 2. destruct (imported (l_type a)) eqn:Ei.
    + specialize (IH (mapSet m (l_id a) n) (Z.succ n) (types ++ [l_type a])%list _
                     (single_step types (l_type a) single Hs)).
      destruct (fold_left _ ls _) as [[[m' n'] types'] single'].
      destruct IH as (I1 & I2 & I3 & I4 & I5).
      split; [cbn [length]; lia|]. split; [rewrite I2, <- app_assoc; reflexivity|].
      split; [exact I3|]. split.
      * intros k Hk. rewrite I4 by (intros Hin; apply Hk; right; exact Hin).
        rewrite mapFind_mapSet. destruct (Z.eqb_spec (l_id a) k); [|reflexivity].
        exfalso. apply Hk. left. assumption.
      * intros Hnd [|i] l Hl; inversion Hnd as [|? ? Hnin Hnd']; subst.
        -- cbn in Hl. injection Hl as <-. rewrite I4 by exact Hnin.
           rewrite mapFind_mapSet, Z.eqb_refl. f_equal. lia.
        -- cbn [nth_error] in Hl. rewrite (I5 Hnd' i l Hl). f_equal. lia.
    + apply IH. exact Hs.
Qed.

Lemma laneTypeName_kept (n : Z) (kept : list OpenDriveLane) (single : bool) :
  n = Z.of_nat (length kept) -> (single = true <-> allSame (map l_type kept)) ->
  laneTypeName n (map l_type kept) single
  = match kept with
    | [] => ""%string
    | l0 :: _ => if forallb (fun l => String.eqb (l_type l) (l_type l0)) kept
                 then l_type l0 else joinTypes (map l_type kept)
    end.
Proof.
  intros -> Hs. unfold laneTypeName. destruct kept as [|l0 r]; [reflexivity|].
  cbn [length]. replace (0 <? Z.of_nat (S (length r)))%Z with true by (symmetry; apply Z.ltb_lt; lia).
  destruct (forallb _ _) eqn:Ef.
  - assert (single = true).
    { apply Hs. unfold allSame. apply Forall_forall. intros t Ht.
      apply in_map_iff in Ht as (l & <- & Hl). apply forallb_forall with (x := l) in Ef;
        [apply String.eqb_eq in Ef; exact Ef|exact Hl]. }
    subst single. reflexivity.
  - destruct single; [|reflexivity]. exfalso.
    pose proof (proj1 Hs eq_refl) as Hall. unfold allSame in Hall.
    rewrite Forall_forall in Hall.
    apply Bool.not_true_iff_false in Ef. apply Ef. apply forallb_forall.
    intros l Hl. apply String.eqb_eq. apply (Hall (l_type l)).
    apply in_map. exact Hl.
Qed.

Lemma NoDup_app_disj {A : Type} (l1 l2 : list A) (x : A) :
  NoDup (l1 ++ l2) -> In x l1 -> In x l2 -> False.
Proof.
  induction l1 as [|a l1 IH]; intros Hnd H1 H2; [destruct H1|].
  inversion Hnd as [|? ? Hnin Hnd']; subst. destruct H1 as [<-|H1].
  - apply Hnin. apply in_or_app. right. exact H2.
  - exact (IH Hnd' H1 H2).
Qed.

(** [buildLaneMapping] counts and names the lanes it imports: the right
    lanes are taken from the outermost one inwards and the left lanes
    from the innermost one outwards; [rightLaneNumber] and
    [leftLaneNumber] are the numbers of imported lanes of each side, and
    the side's type is empty with no imported lane, the lanes' common
    type when they all have one, and else all their types joined by "|"
    in that order. *)
Theorem buildLaneMapping_counts_types (imported : string -> bool) (sec : OpenDriveLaneSection) :
  let r := buildLaneMapping imported sec in
  let keptR := keptLanes imported (rev (rightLanes sec)) in
  let keptL := keptLanes imported (leftLanes sec) in
  rightLaneNumber r = Z.of_nat (length keptR)
  /\ leftLaneNumber r = Z.of_nat (length keptL)
  /\ rightType r = match keptR with
                   | [] => ""%string
                   | l0 :: _ => if forallb (fun l => String.eqb (l_type l) (l_type l0)) keptR
                                then l_type l0 else joinTypes (map l_type keptR)
                   end
  /\ leftType r = match keptL with
                  | [] => ""%string
                  | l0 :: _ => if forallb (fun l => String.eqb (l_type l) (l_type l0)) keptL
                               then l_type l0 else joinTypes (map l_type keptL)
                  end.
Proof.
  cbv zeta. unfold buildLaneMapping. rewrite !mapLanes_fold.
  assert (H0 : true = true <-> allSame []) by (split; [constructor|reflexivity]).
  pose proof (mapLanes_gen imported (rev (rightLanes sec)) (laneMap sec) 0%Z [] true H0) as HR.
  destruct (fold_left _ (rev (rightLanes sec)) _) as [[[m1 nR] typesR] singleR].
  rewrite mapLanes_fold.
  pose proof (mapLanes_gen imported (leftLanes sec) m1 0%Z [] true H0) as HL.
  destruct (fold_left _ (leftLanes sec) _) as [[[m2 nL] typesL] singleL].
  destruct HR as (R1 & R2 & R3 & _). destruct HL as (L1 & L2 & L3 & _).
  cbn [app] in R2, L2. subst typesR typesL. cbn [rightLaneNumber leftLaneNumber rightType leftType].
  split; [lia|]. split; [lia|].
  split; apply laneTypeName_kept; (lia || assumption).
Qed.

(** With distinct ids among the imported lanes of both sides,
    [buildLaneMapping] maps the i-th imported right lane, counted from the
    outermost one, to SUMO lane i, and the i-th imported left lane,
    counted from the innermost one, to SUMO lane i; every other id keeps
    its entry of the section's lane map. *)
Theorem buildLaneMapping_indices (imported : string -> bool) (sec : OpenDriveLaneSection) :
  let keptR := keptLanes imported (rev (rightLanes sec)) in
  let keptL := keptLanes imported (leftLanes sec) in
  NoDup (map l_id (keptR ++ keptL)) ->
  (forall i l, nth_error keptR i = Some l ->
     mapFind (laneMap (buildLaneMapping imported sec)) (l_id l) = Some (Z.of_nat i))
  /\ (forall i l, nth_error keptL i = Some l ->
     mapFind (laneMap (buildLaneMapping imported sec)) (l_id l) = Some (Z.of_nat i))
  /\ (forall k, ~ In k (map l_id (keptR ++ keptL)) ->
     mapFind (laneMap (buildLaneMapping imported sec)) k = mapFind (laneMap sec) k).
Proof.
  cbv zeta. intros Hnd. rewrite map_app in Hnd.
  pose proof (NoDup_app_remove_r _ _ Hnd) as HndR.
  pose proof (NoDup_app_remove_l _ _ Hnd) as HndL.
  unfold buildLaneMapping. rewrite !mapLanes_fold.
  assert (H0 : true = true <-> allSame []) by (split; [constructor|reflexivity]).
  pose proof (mapLanes_gen imported (rev (rightLanes sec)) (laneMap sec) 0%Z [] true H0) as HR.
  destruct (fold_left _ (rev (rightLanes sec)) _) as [[[m1 nR] typesR] singleR].
  rewrite mapLanes_fold.
  pose proof (mapLanes_gen imported (leftLanes sec) m1 0%Z [] true H0) as HL.
  destruct (fold_left _ (leftLanes sec) _) as [[[m2 nL] typesL] singleL].
  destruct HR as (_ & _ & _ & R4 & R5). destruct HL as (_ & _ & _ & L4 & L5).
  cbn [laneMap]. split; [|split].
  - intros i l Hl. rewrite L4.
    + exact (R5 HndR i l Hl).
    + intros Hin. apply nth_error_In in Hl.
      exact (NoDup_app_disj _ _ _ Hnd (in_map l_id _ _ Hl) Hin).
  - intros i l Hl. exact (L5 HndL i l Hl).
  - intros k Hk. rewrite map_app in Hk. rewrite L4, R4; [reflexivity| |];
      intros Hin; apply Hk; apply in_or_app; [left|right]; exact Hin.
Qed.

Section Recompute.

Variable computeAt : OpenDriveWidth -> Q -> Q.

Lemma Qmax_l (x y : Q) : x <= Qmax x y.
Proof. apply Q.le_max_l. Qed.

Lemma Qmax_r (x y : Q) : y <= Qmax x y.
Proof. apply Q.le_max_r. Qed.

Ltac qmax_le :=
  first [ apply Qle_refl | apply Qmax_r | eapply Qle_trans; [|apply Qmax_l]; qmax_le ].

Lemma Qle_bool_and (a b c : Q) : (Qle_bool a b && Qle_bool b c)%bool = true <-> a <= b /\ b <= c.
Proof. rewrite Bool.andb_true_iff, !Qle_bool_iff. reflexivity. Qed.

Lemma recomputeLoop_ge (start end_ ss se : Q) (ws : list OpenDriveWidth) :
  forall sPrev sPrevAbs width, width <= recomputeLoop computeAt start end_ ss se ws sPrev sPrevAbs width.
Proof.
  induction ws as [|it rest IH]; intros sPrev sPrevAbs width; cbn [recomputeLoop]; [apply Qle_refl|].
  eapply Qle_trans; [|apply IH].
  repeat match goal with |- context [if ?b then _ else _] => destruct b end;
  repeat (eapply Qle_trans; [|apply Qmax_l]); apply Qle_refl.
Qed.

(** What the four [MAX2] updates of one width entry guarantee. *)
Definition entryBound (start end_ ss se : Q) (it : OpenDriveWidth) (rest : list OpenDriveWidth)
    (w : Q) : Prop :=
  let sEnd := nextS rest (se - ss) in
  (w_s it + ss <= start <= sEnd + ss -> computeAt it (start - ss) <= w)
  /\ (w_s it + ss <= end_ <= sEnd + ss -> computeAt it (end_ - ss) <= w)
  /\ (start <= w_s it + ss <= end_ -> computeAt it (w_s it) <= w)
  /\ (start <= sEnd + ss <= end_ -> computeAt it sEnd <= w).

Lemma entryBound_mono start end_ ss se it rest w w' :
  w <= w' -> entryBound start end_ ss se it rest w -> entryBound start end_ ss se it rest w'.
Proof.
  intros Hw (H1 & H2 & H3 & H4).
  repeat split; intros Hc; eapply Qle_trans; [apply H1|exact Hw| apply H2|exact Hw
                                              |apply H3|exact Hw|apply H4|exact Hw]; assumption.
Qed.

Lemma recomputeLoop_entry (start end_ ss se : Q) (pre : list OpenDriveWidth) :
  forall it rest sPrev sPrevAbs width,
  (pre = [] -> sPrev = w_s it /\ sPrevAbs = sPrev + ss) ->
  entryBound start end_ ss se it rest
    (recomputeLoop computeAt start end_ ss se (pre ++ it :: rest) sPrev sPrevAbs width).
Proof.
  induction pre as [|a pre IH]; intros it rest sPrev sPrevAbs width Hp.
  - destruct (Hp eq_refl) as [-> ->]. cbn [app recomputeLoop].
    eapply entryBound_mono; [apply recomputeLoop_ge|].
    unfold entryBound. cbv zeta.
    repeat split; intros Hc; apply Qle_bool_and in Hc; rewrite Hc;
      repeat match goal with |- context [if ?b then _ else _] => destruct b end;
      qmax_le.
  - cbn [app recomputeLoop]. apply IH.
    intros ->. split; reflexivity.
Qed.

(** [recomputeWidths] only changes the width of the lanes; a lane without
    width entries keeps its width, and the width of any other lane is at
    least 0 and at least the width of each entry at [start] and at [end]
    when the entry's range [[s, next s]] (shifted by [sectionStart])
    contains them, and at the entry's ends that lie in [[start, end]]. *)
Theorem recomputeWidths_bounds (lanes : list OpenDriveLane) (start end_ ss se : Q) :
  forall l', In l' (recomputeWidths computeAt lanes start end_ ss se) ->
  exists l, In l lanes /\ l' = setWidth l (l_width l')
    /\ (widthData l = [] -> l_width l' = l_width l)
    /\ (widthData l <> [] -> 0 <= l_width l'
          /\ forall pre it rest, widthData l = (pre ++ it :: rest)%list ->
               entryBound start end_ ss se it rest (l_width l')).
Proof.
  intros l' Hin. unfold recomputeWidths in Hin. apply in_map_iff in Hin as (l & <- & Hl).
  exists l. split; [exact Hl|]. unfold recomputeLane.
  destruct (widthData l) as [|w0 ws] eqn:Ew.
  - split; [destruct l; reflexivity|]. split; [reflexivity|]. intros []. reflexivity.
  - split; [unfold setWidth; reflexivity|]. split; [discriminate|]. intros _.
    cbn [l_width setWidth]. rewrite <- Ew. split.
    + apply recomputeLoop_ge.
    + intros pre it rest Hw. rewrite Hw. apply recomputeLoop_entry.
      intros ->. rewrite Ew in Hw. cbn [app] in Hw. injection Hw as -> _. split; reflexivity.
Qed.

End Recompute.

Lemma ratio_bound (D A B : Q) :
  0 <= D -> 0 < A -> 0 <= B -> B <= A -> 0 <= D / A * B /\ D / A * B <= D.
Proof.
  intros HD HA HB HBA.
  assert (Heq : D / A * B == D * (B / A)) by (field; intros H; rewrite H in HA; discriminate).
  assert (H0 : 0 <= B / A) by (apply Qle_shift_div_l; [exact HA|lra]).
  assert (H1 : B / A <= 1) by (apply Qle_shift_div_r; [exact HA|lra]).
  rewrite Heq. split.
  - apply Qmult_le_0_compat; assumption.
  - rewrite <- (Qmult_1_r D) at 2. rewrite (Qmult_comm D), (Qmult_comm D 1).
    apply Qmult_le_compat_r; assumption.
Qed.

Section WidthSplit.

Variable computeAt : OpenDriveWidth -> Q -> Q.
Variable myMinWidth : Q.
Variables knownType vehicleType : string -> bool.

Lemma refine_range (it : OpenDriveWidth) (wPrev sPrev sEnd : Q) (fuel : nat) :
  forall splitPos wSplit, sPrev <= splitPos <= sEnd ->
  sPrev <= refine computeAt myMinWidth fuel it wPrev sPrev sEnd splitPos wSplit <= sEnd.
Proof.
  induction fuel as [|fuel IH]; intros splitPos wSplit Hr; cbn [refine]; [exact Hr|].
  destruct (Reshaper.Qltb myMinWidth wSplit); [|exact Hr].
  destruct (Reshaper.Qltb wPrev myMinWidth).
  - destruct (Reshaper.Qltb (splitPos - Geometry.POSITION_EPS) sPrev) eqn:E.
    + split; [apply Qle_refl|lra].
    + apply Qltb_false_iff in E. apply IH.
      unfold Geometry.POSITION_EPS in *. lra.
  - destruct (Reshaper.Qltb sEnd (splitPos + Geometry.POSITION_EPS)) eqn:E.
    + split; [lra|apply Qle_refl].
    + apply Qltb_false_iff in E. apply IH.
      unfold Geometry.POSITION_EPS in *. lra.
Qed.

Lemma crossing_ratio (m wPrev w : Q) :
  (Reshaper.Qltb wPrev m && Reshaper.Qltb m w || Reshaper.Qltb m wPrev && Reshaper.Qltb w m)%bool
  = true ->
  0 < Qabs (w - wPrev) /\ Qabs (m - wPrev) <= Qabs (w - wPrev).
Proof.
  intros H. apply Bool.orb_true_iff in H.
  destruct H as [H|H]; apply Bool.andb_true_iff in H as [H1 H2];
    apply SignalsProofs.Qltb_iff in H1, H2.
  - rewrite (Qabs_pos (w - wPrev)) by lra. rewrite (Qabs_pos (m - wPrev)) by lra. lra.
  - rewrite (Qabs_neg (w - wPrev)) by lra. rewrite (Qabs_neg (m - wPrev)) by lra. lra.
Qed.

(** The ends of the width entries visited by the loop of findWidthSplit. *)
Fixpoint ends (d : Q) (ws : list OpenDriveWidth) : list Q :=
  match ws with
  | [] => []
  | it :: rest => nextS rest d :: ends d rest
  end.

Lemma ends_cons (d : Q) (ws : list OpenDriveWidth) : forall w0,
  ends d (w0 :: ws) = (map w_s ws ++ [d])%list.
Proof.
  induction ws as [|w1 ws IH]; intros w0; [reflexivity|].
  change (ends d (w0 :: w1 :: ws)) with (w_s w1 :: ends d (w1 :: ws)). rewrite IH. reflexivity.
Qed.

Lemma widthSplitLoop_range (ss se : Q) (ws : list OpenDriveWidth) : forall sPrev wPrev,
  StronglySorted Qle (sPrev :: ends (se - ss) ws) ->
  (forall y, In y (ends (se - ss) ws) -> y <= se - ss) ->
  forall x, In x (widthSplitLoop computeAt myMinWidth ss se ws sPrev wPrev) ->
  ss + sPrev <= x <= se.
Proof.
  induction ws as [|it rest IH]; intros sPrev wPrev Hs Hle x Hx; [destruct Hx|].
  cbn [widthSplitLoop] in Hx. cbn [ends] in Hs, Hle.
  set (sEnd := nextS rest (se - ss)) in *.
  inversion Hs as [|? ? Hs' Hall]; subst.
  assert (HsE : sPrev <= sEnd) by (rewrite Forall_forall in Hall; apply Hall; left; reflexivity).
  assert (HeE : sEnd <= se - ss) by (apply Hle; left; reflexivity).
  apply in_app_or in Hx as [Hx|Hx].
  - destruct (_ || _)%bool eqn:Ec in Hx; [|destruct Hx].
    destruct Hx as [<-|[]].
    apply crossing_ratio in Ec as [HA HB].
    destruct (ratio_bound (sEnd - sPrev) (Qabs (computeAt it sEnd - wPrev))
                (Qabs (myMinWidth - wPrev))) as [R1 R2];
      [lra|exact HA|apply Qabs_nonneg|exact HB|].
    match goal with |- context [refine _ _ ?f it wPrev sPrev sEnd ?p ?w] =>
      destruct (refine_range it wPrev sPrev sEnd f p w) as [F1 F2] end.
    + lra.
    + lra.
  - inversion Hs'; subst.
    destruct (IH sEnd (computeAt it sEnd) Hs' (fun y Hy => Hle y (or_intror Hy)) x Hx). lra.
Qed.

(** Every position pushed by the loop comes from one width entry [k]:
    it lies between the entry's start [a] and end [b] (shifted by the
    section start), and the width crosses [myMinWidth] between [a] (the
    previous entry's width there, or [wPrev] for the first entry) and [b]. *)
Lemma widthSplitLoop_entry (ss se : Q) (dflt : OpenDriveWidth) (ws : list OpenDriveWidth) :
  forall sPrev wPrev,
  StronglySorted Qle (sPrev :: ends (se - ss) ws) ->
  forall x, In x (widthSplitLoop computeAt myMinWidth ss se ws sPrev wPrev) ->
  exists k, (k < List.length ws)%nat /\
    let a := nth k (sPrev :: ends (se - ss) ws) 0 in
    let b := nth k (ends (se - ss) ws) 0 in
    let wa := match k with O => wPrev | S j => computeAt (nth j ws dflt) a end in
    let wb := computeAt (nth k ws dflt) b in
    ss + a <= x <= ss + b
    /\ ((wa < myMinWidth /\ myMinWidth < wb) \/ (myMinWidth < wa /\ wb < myMinWidth)).
Proof.
  induction ws as [|it rest IH]; intros sPrev wPrev Hs x Hx; [destruct Hx|].
  cbn [widthSplitLoop] in Hx. cbn [ends] in Hs.
  set (sEnd := nextS rest (se - ss)) in *.
  inversion Hs as [|? ? Hs' Hall]; subst.
  assert (HsE : sPrev <= sEnd) by (rewrite Forall_forall in Hall; apply Hall; left; reflexivity).
  apply in_app_or in Hx as [Hx|Hx].
  - destruct (_ || _)%bool eqn:Ec in Hx; [|destruct Hx].
    destruct Hx as [<-|[]].
    exists O. split; [cbn; lia|]. cbv zeta. cbn [nth ends]. fold sEnd.
    pose proof Ec as Ec'.
    apply crossing_ratio in Ec as [HA HB].
    destruct (ratio_bound (sEnd - sPrev) (Qabs (computeAt it sEnd - wPrev))
                (Qabs (myMinWidth - wPrev))) as [R1 R2];
      [lra|exact HA|apply Qabs_nonneg|exact HB|].
    split.
    + match goal with |- context [refine _ _ ?f it wPrev sPrev sEnd ?p ?w] =>
        destruct (refine_range it wPrev sPrev sEnd f p w) as [F1 F2] end; [lra|lra].
    + apply Bool.orb_true_iff in Ec'.
      destruct Ec' as [H|H]; apply Bool.andb_true_iff in H as [H1 H2];
        apply SignalsProofs.Qltb_iff in H1, H2; [left|right]; split; assumption.
  - destruct (IH sEnd (computeAt it sEnd) Hs' x Hx) as (k & Hk & Hr).
    exists (S k). split; [cbn; lia|].
    cbv zeta in Hr |- *. cbn [nth ends]. fold sEnd.
    destruct k as [|j]; cbn [nth] in Hr |- *; exact Hr.
Qed.

Lemma sorted_last_le (l0 : list Q) (d : Q) :
  StronglySorted Qle (l0 ++ [d])%list -> forall y, In y (l0 ++ [d])%list -> y <= d.
Proof.
  induction l0 as [|a l0 IHl]; intros H y0 Hy0.
  - destruct Hy0 as [<-|[]]. apply Qle_refl.
  - inversion H as [|? ? H1 H2]; subst. destruct Hy0 as [<-|Hy0].
    + rewrite Forall_forall in H2. apply H2. apply in_or_app. right. left. reflexivity.
    + exact (IHl H1 y0 Hy0).
Qed.

(** When the width entries of every lane start at nondecreasing offsets
    that do not exceed the section's length [sectionEnd - sectionStart],
    every split position [x] that findWidthSplit pushes is pushed by the
    loop of one lane [l] of a known vehicle type, with width entries
    [w0 :: ws]; [x] lies between the section start plus that lane's first
    offset and [sectionEnd]; and [x] lies in the entry [k] of that lane in
    which the width crosses [myMinWidth], between the entry's offset and
    the next offset (or the section length): the refinement by
    [POSITION_EPS] steps never leaves that entry. *)
Theorem findWidthSplit_range (lanes : list OpenDriveLane) (ss se : Q) :
  (forall l, In l lanes -> Sorted Qle (map w_s (widthData l) ++ [se - ss])%list) ->
  forall x, In x (findWidthSplit computeAt myMinWidth knownType vehicleType lanes ss se) ->
  exists l w0 ws, In l lanes /\ widthData l = w0 :: ws
    /\ (knownType (l_type l) && vehicleType (l_type l))%bool = true
    /\ In x (widthSplitLoop computeAt myMinWidth ss se (w0 :: ws) (w_s w0) (computeAt w0 (w_s w0)))
    /\ ss + w_s w0 <= x <= se
    /\ exists k, (k < S (List.length ws))%nat /\
         let a := nth k (w_s w0 :: map w_s ws) 0 in
         let b := nth k (map w_s ws ++ [se - ss])%list 0 in
         let wa := match k with O => computeAt w0 (w_s w0)
                              | S j => computeAt (nth j (w0 :: ws) w0) a end in
         let wb := computeAt (nth k (w0 :: ws) w0) b in
         ss + a <= x <= ss + b
         /\ ((wa < myMinWidth /\ myMinWidth < wb) \/ (myMinWidth < wa /\ wb < myMinWidth)).
Proof.
  intros Hs x Hx. unfold findWidthSplit in Hx. apply in_flat_map in Hx as (l & Hl & Hx).
  destruct (widthData l) as [|w0 ws] eqn:Ew; [destruct Hx|].
  destruct (_ && _)%bool eqn:Et in Hx; [|destruct Hx].
  exists l, w0, ws. split; [exact Hl|]. split; [exact Ew|]. split; [exact Et|].
  split; [exact Hx|].
  specialize (Hs l Hl). rewrite Ew in Hs.
  assert (Hss : StronglySorted Qle (w_s w0 :: ends (se - ss) (w0 :: ws))).
  { rewrite ends_cons. apply Sorted_StronglySorted; [intros a b c; apply Qle_trans|exact Hs]. }
  split.
  - eapply widthSplitLoop_range; [exact Hss| |exact Hx].
    intros y Hy. rewrite ends_cons in Hy.
    apply Sorted_StronglySorted in Hs; [|intros a b c; apply Qle_trans].
    cbn [map app] in Hs.
    apply (sorted_last_le (w_s w0 :: map w_s ws)); [exact Hs|right; exact Hy].
  - destruct (widthSplitLoop_entry ss se w0 (w0 :: ws) _ _ Hss x Hx) as (k & Hk & Hr).
    exists k. cbn [List.length] in Hk. split; [exact Hk|].
    rewrite ends_cons in Hr.
    assert (Ha : nth k (w_s w0 :: (map w_s ws ++ [se - ss])%list) 0 = nth k (w_s w0 :: map w_s ws) 0).
    { destruct k as [|j]; [reflexivity|]. cbn [nth]. apply app_nth1.
      rewrite length_map. lia. }
    cbv zeta in Hr |- *. rewrite Ha in Hr. exact Hr.
Qed.

(** The distance that the refinement can still move [splitPos]: towards
    [sPrev] when the lane gets wider, towards [sEnd] when it gets thinner. *)
Definition refineRoom (wPrev sPrev sEnd splitPos : Q) : Q :=
  if Reshaper.Qltb wPrev myMinWidth then splitPos - sPrev else sEnd - splitPos.

Lemma refine_enough (it : OpenDriveWidth) (wPrev sPrev sEnd : Q) (n : nat) :
  forall k splitPos wSplit, sPrev <= splitPos <= sEnd ->
  refineRoom wPrev sPrev sEnd splitPos < inject_Z (Z.of_nat n) * Geometry.POSITION_EPS ->
  refine computeAt myMinWidth (n + k) it wPrev sPrev sEnd splitPos wSplit
  = refine computeAt myMinWidth n it wPrev sPrev sEnd splitPos wSplit.
Proof.
  unfold refineRoom.
  induction n as [|n IH]; intros k splitPos wSplit Hr Hm.
  - exfalso. change (inject_Z (Z.of_nat 0)) with 0 in Hm. unfold Geometry.POSITION_EPS in Hm.
    destruct (Reshaper.Qltb wPrev myMinWidth); lra.
  - rewrite Nat2Z.inj_succ, <- Z.add_1_r, inject_Z_plus in Hm. change (inject_Z 1) with 1 in Hm.
    change (S n + k)%nat with (S (n + k)). cbn [refine].
    destruct (Reshaper.Qltb myMinWidth wSplit); [|reflexivity].
    destruct (Reshaper.Qltb wPrev myMinWidth) eqn:Ed.
    + destruct (Reshaper.Qltb (splitPos - Geometry.POSITION_EPS) sPrev) eqn:E; [reflexivity|].
      apply Qltb_false_iff in E. apply IH; rewrite ?Ed; unfold Geometry.POSITION_EPS in *; lra.
    + destruct (Reshaper.Qltb sEnd (splitPos + Geometry.POSITION_EPS)) eqn:E; [reflexivity|].
      apply Qltb_false_iff in E. apply IH; rewrite ?Ed; unfold Geometry.POSITION_EPS in *; lra.
Qed.

(** The [while (wSplit > myMinWidth)] loop of findWidthSplit, started at
    a position of [[sPrev, sEnd]], ends within [refineFuel sPrev sEnd]
    rounds (about [(sEnd - sPrev) / POSITION_EPS]): more rounds give the
    same split position. *)
Theorem refine_terminates (it : OpenDriveWidth) (wPrev sPrev sEnd splitPos wSplit : Q) :
  sPrev <= splitPos <= sEnd -> forall k,
  refine computeAt myMinWidth (refineFuel sPrev sEnd + k) it wPrev sPrev sEnd splitPos wSplit
  = refine computeAt myMinWidth (refineFuel sPrev sEnd) it wPrev sPrev sEnd splitPos wSplit.
Proof.
  intros Hr k. apply refine_enough; [exact Hr|].
  unfold refineFuel.
  set (x := Qabs (sEnd - sPrev) / Geometry.POSITION_EPS).
  assert (Hx0 : 0 <= x).
  { apply Qle_shift_div_l; [unfold Geometry.POSITION_EPS; lra|].
    pose proof (Qabs_nonneg (sEnd - sPrev)). lra. }
  assert (Hc : x <= inject_Z (Qceiling x)) by apply Qle_ceiling.
  assert (Hc0 : (0 <= Qceiling x)%Z).
  { assert (H0 : 0 <= inject_Z (Qceiling x)) by lra.
    rewrite Zle_Qle. exact H0. }
  rewrite !Nat2Z.inj_succ, Z2Nat.id by exact Hc0.
  rewrite <- !Z.add_1_r, !inject_Z_plus. change (inject_Z 1) with 1.
  assert (Hxe : x * Geometry.POSITION_EPS == Qabs (sEnd - sPrev))
    by (subst x; unfold Geometry.POSITION_EPS; field).
  rewrite (Qabs_pos (sEnd - sPrev)) in Hxe by lra.
  assert (Hm : x * Geometry.POSITION_EPS <= inject_Z (Qceiling x) * Geometry.POSITION_EPS)
    by (apply Qmult_le_compat_r; [exact Hc|unfold Geometry.POSITION_EPS; lra]).
  unfold refineRoom. unfold Geometry.POSITION_EPS in *.
  destruct (Reshaper.Qltb wPrev myMinWidth); lra.
Qed.

End WidthSplit.

(** [OpenDriveWidth::computeAt]: the cubic [a + b ds + c ds^2 + d ds^3]
    with [ds = pos - s]. *)
Definition widthAt (w : OpenDriveWidth) (pos : Q) : Q :=
  let ds := pos - w_s w in w_a w + w_b w * ds + w_c w * ds * ds + w_d w * ds * ds * ds.

Definition laneW (id : Z) (t : string) (ws : list OpenDriveWidth) : OpenDriveLane :=
  mkLane id t ws 0 id 0%Z.

(** A right lane widening from 1 to 3 over [[0, 10]]. *)
Definition widening : OpenDriveLane := laneW (-1)%Z "driving" [mkWidth 0 1 (1 # 5) 0 0].

Definition secAt (x : Q) (left right : list OpenDriveLane) (m : list (Z * Z)) : OpenDriveLaneSection :=
  mkSection x x left [] right m (Z.of_nat (List.length right)) (Z.of_nat (List.length left))
            "driving" "driving".

Definition twoSections : list OpenDriveLaneSection :=
  [secAt 0 [] [widening] [((-1)%Z, 0%Z)]; secAt 10 [] [widening] [((-1)%Z, 0%Z)]].

Definition allTypes (_ : string) : bool := true.

Lemma splitMinWidths_sorted_witness :
  Sorted Qlt (map s (splitMinWidths widthAt 2 allTypes allTypes (1 # 2) 20 twoSections)).
Proof.
  apply splitMinWidths_sorted; [vm_compute; reflexivity|].
  vm_compute. repeat constructor.
Defined.

Definition mapped : OpenDriveLaneSection :=
  secAt 0 [laneW 1%Z "driving" []] [laneW (-1)%Z "driving" []; laneW (-2)%Z "driving" []]
        [((-1)%Z, 0%Z); ((-2)%Z, 1%Z); (1%Z, 0%Z)].

Lemma straight_inner_connections_identity_witness :
  mapFind (getInnerConnections 100000
             (withLanes mapped (setStraightConnections (leftLanes mapped))
                               (setStraightConnections (rightLanes mapped)))
             OPENDRIVE_TAG_RIGHT mapped) 1%Z = Some 1%Z.
Proof.
  destruct (straight_inner_connections_identity 100000 mapped mapped OPENDRIVE_TAG_RIGHT
              ltac:(discriminate) eq_refl) as [_ H2].
  exact (H2 (laneW (-2)%Z "driving" []) 1%Z (or_intror (or_introl eq_refl))
            ltac:(discriminate) eq_refl ltac:(discriminate)).
Defined.

Definition drivingOnly (t : string) : bool := String.eqb t "driving".

Definition mixed : OpenDriveLaneSection :=
  secAt 0 [laneW 1%Z "driving" []; laneW 2%Z "sidewalk" []]
        [laneW (-1)%Z "driving" []; laneW (-2)%Z "sidewalk" []; laneW (-3)%Z "driving" []] [].

Lemma buildLaneMapping_indices_witness :
  mapFind (laneMap (buildLaneMapping drivingOnly mixed)) (-3)%Z = Some 0%Z.
Proof.
  destruct (buildLaneMapping_indices drivingOnly mixed) as (H1 & _ & _).
  - vm_compute. repeat constructor; cbn; intros H; repeat destruct H as [H|H];
      discriminate || contradiction.
  - exact (H1 0%nat (laneW (-3)%Z "driving" []) eq_refl).
Defined.

Lemma recomputeWidths_bounds_witness :
  exists l, In l [widening]
    /\ recomputeLane widthAt 0 10 0 10 widening = setWidth l (l_width (recomputeLane widthAt 0 10 0 10 widening)).
Proof.
  destruct (recomputeWidths_bounds widthAt [widening] 0 10 0 10
              (recomputeLane widthAt 0 10 0 10 widening) (or_introl eq_refl))
    as (l & Hl & He & _).
  exists l. split; [exact Hl|exact He].
Defined.

(** A lane of width 1 over [[0, 5]] that then widens to 3 at 10. *)
Definition twoEntry : OpenDriveLane :=
  laneW (-1)%Z "driving" [mkWidth 0 1 0 0 0; mkWidth 5 1 (2 # 5) 0 0].

Lemma findWidthSplit_range_witness :
  let x := hd 0 (findWidthSplit widthAt 2 allTypes allTypes [twoEntry] 0 10) in
  exists l w0 ws, In l [twoEntry] /\ widthData l = w0 :: ws
    /\ (allTypes (l_type l) && allTypes (l_type l))%bool = true
    /\ In x (widthSplitLoop widthAt 2 0 10 (w0 :: ws) (w_s w0) (widthAt w0 (w_s w0)))
    /\ 0 + w_s w0 <= x <= 10
    /\ exists k, (k < S (List.length ws))%nat /\
         let a := nth k (w_s w0 :: map w_s ws) 0 in
         let b := nth k (map w_s ws ++ [10 - 0])%list 0 in
         let wa := match k with O => widthAt w0 (w_s w0)
                              | S j => widthAt (nth j (w0 :: ws) w0) a end in
         let wb := widthAt (nth k (w0 :: ws) w0) b in
         0 + a <= x <= 0 + b
         /\ ((wa < 2 /\ 2 < wb) \/ (2 < wa /\ wb < 2)).
Proof.
  apply (findWidthSplit_range widthAt 2 allTypes allTypes [twoEntry] 0 10).
  - intros l [<-|[]]. vm_compute. repeat constructor; vm_compute; discriminate.
  - vm_compute. left. reflexivity.
Defined.

Lemma refine_terminates_witness :
  refine widthAt 2 (refineFuel 0 10 + 5) (mkWidth 0 1 (1 # 5) 0 0) 1 0 10 7 (widthAt (mkWidth 0 1 (1 # 5) 0 0) 7)
  = refine widthAt 2 (refineFuel 0 10) (mkWidth 0 1 (1 # 5) 0 0) 1 0 10 7 (widthAt (mkWidth 0 1 (1 # 5) 0 0) 7).
Proof.
  apply refine_terminates. split; vm_compute; discriminate.
Defined.

End SectionsProofs.

Module ZPassProofs.

Import Geometry ZPass.

Section Walk.

Variable distanceTo2D : Position -> Position -> Q.
Variable computeAt : Poly3 -> Q -> Q.
Variable geom : list Position.

Lemma walk_seq (sNext : option Q) (fuel : nat) : forall k pos,
  (k + fuel)%nat = List.length geom ->
  let '(vs, k2, _) := walk distanceTo2D geom fuel sNext k pos in
  map fst vs = seq k (k2 - k) /\ (k <= k2 <= List.length geom)%nat
  /\ (sNext = None -> k2 = List.length geom).
Proof.
  induction fuel as [|fuel IH]; intros k pos Hk; cbn [walk].
  - rewrite Nat.sub_diag. split; [reflexivity|]. split; [lia|]. intros _. lia.
  - assert (Hlt : Nat.ltb k (List.length geom) = true) by (apply Nat.ltb_lt; lia).
    rewrite Hlt. cbn [andb].
    destruct (below pos sNext) eqn:Hb.
    + match goal with |- context [walk _ _ fuel sNext (S k) ?p] =>
        specialize (IH (S k) p ltac:(lia)) end.
      destruct (walk _ _ fuel sNext (S k) _) as [[vs k2] p2].
      destruct IH as (I1 & I2 & I3). cbn [map fst].
      split; [|split; [lia|exact I3]].
      replace (k2 - k)%nat with (S (k2 - S k)) by lia. cbn [seq]. rewrite I1. reflexivity.
    + rewrite Nat.sub_diag. split; [reflexivity|]. split; [lia|].
      intros ->. discriminate.
Qed.

Definition vertexOf (r : Poly3 * nat * Q) : nat := let '(_, k, _) := r in k.

Lemma recordsLoop_seq (els : list Poly3) : forall k pos,
  els <> [] -> (k <= List.length geom)%nat ->
  map vertexOf (recordsLoop distanceTo2D geom els k pos) = seq k (List.length geom - k).
Proof.
  induction els as [|el rest IH]; intros k pos Hne Hk; [contradiction|].
  cbn [recordsLoop].
  set (sNext := match rest with n :: _ => Some (p_s n) | [] => None end).
  pose proof (walk_seq sNext (List.length geom - k) k pos ltac:(lia)) as W.
  destruct (walk _ _ _ sNext k pos) as [[vs k2] p2].
  destruct W as (W1 & W2 & W3).
  rewrite map_app, map_map.
  assert (Hv : map (fun x => vertexOf (let '(i, p) := x in (el, i, p))) vs = map fst vs)
    by (apply map_ext; intros [i p]; reflexivity).
  rewrite Hv, W1.
  destruct rest as [|n rest'].
  - rewrite W3 by reflexivity. cbn [recordsLoop map]. rewrite app_nil_r. reflexivity.
  - rewrite IH by (discriminate || lia).
    replace (List.length geom - k)%nat with ((k2 - k) + (List.length geom - k2))%nat by lia.
    rewrite seq_app. do 2 f_equal. lia.
Qed.

(** The z-data pass of computeShapes visits every vertex of the road's
    shape exactly once and in order when the road has elevation records:
    each vertex gets one elevation value added. Without elevation records
    no vertex gets one. *)
Theorem elevationAdds_every_vertex (elevations : list Poly3) :
  elevations <> [] ->
  map fst (elevationAdds distanceTo2D computeAt geom elevations) = seq 0 (List.length geom).
Proof.
  intros Hne. unfold elevationAdds. rewrite map_map.
  rewrite <- (Nat.sub_0_r (List.length geom)).
  rewrite <- (recordsLoop_seq elevations 0 0 Hne ltac:(lia)).
  apply map_ext. intros [[el k] pos]. reflexivity.
Qed.

Variable shiftedAt : Q -> nat -> option Position.

(** The lane-offset pass builds one shifted point per vertex: the new
    shape [geom2] has as many points as [e.geom], which is the [assert]
    that ends the pass. *)
Theorem offsetGeom_length (offsets : list Poly3) :
  offsets <> [] ->
  List.length (offsetGeom distanceTo2D computeAt geom shiftedAt offsets) = List.length geom.
Proof.
  intros Hne. unfold offsetGeom. rewrite length_map.
  rewrite <- (length_map vertexOf).
  rewrite (recordsLoop_seq offsets 0 0 Hne ltac:(lia)). rewrite length_seq. lia.
Qed.

End Walk.

(** A distance for the witnesses: [|dx| + |dy|]. *)
Definition manhattan (a b : Position) : Q := Qabs (px b - px a) + Qabs (py b - py a).

Definition polyAt (el : Poly3) (pos : Q) : Q :=
  let ds := pos - p_s el in p_a el + p_b el * ds + p_c el * ds * ds + p_d el * ds * ds * ds.

Definition threePoints : list Position := [mkPos 0 0; mkPos 10 0; mkPos 20 0].

Lemma elevationAdds_every_vertex_witness :
  map fst (elevationAdds manhattan polyAt threePoints
             [mkPoly3 0 0 0 0 0; mkPoly3 5 1 0 0 0; mkPoly3 30 2 0 0 0]) = [0; 1; 2]%nat.
Proof.
  exact (elevationAdds_every_vertex manhattan polyAt threePoints
           [mkPoly3 0 0 0 0 0; mkPoly3 5 1 0 0 0; mkPoly3 30 2 0 0 0] ltac:(discriminate)).
Defined.

Lemma offsetGeom_length_witness :
  List.length (offsetGeom manhattan polyAt threePoints (fun o k => None)
                 [mkPoly3 0 1 0 0 0; mkPoly3 15 0 0 0 0]) = 3%nat.
Proof.
  exact (offsetGeom_length manhattan polyAt threePoints (fun o k => None)
           [mkPoly3 0 1 0 0 0; mkPoly3 15 0 0 0 0] ltac:(discriminate)).
Defined.

End ZPassProofs.

Module SetNodeProofs.

Import Topology.

Definition otherSide (lt : LinkType) : LinkType :=
  match lt with
  | OPENDRIVE_LT_SUCCESSOR => OPENDRIVE_LT_PREDECESSOR
  | OPENDRIVE_LT_PREDECESSOR => OPENDRIVE_LT_SUCCESSOR
  end.

(** [setNodeSecure] throws exactly when the node is not in the node
    container or when the road's endpoint of that side is already bound
    to another node. Otherwise it binds that endpoint to the node and
    changes nothing else, and calling it again with the same node
    succeeds. *)
Theorem setNodeSecure_outcome (st : TState) (e nodeID : string) (lt : LinkType) :
  (setNodeSecure st e nodeID lt = None
   <-> retrieve st nodeID = false
       \/ exists m, TopologyProofs.endpoint st e lt = Some m /\ m <> nodeID)
  /\ (forall st', setNodeSecure st e nodeID lt = Some st' ->
        nodes st' = nodes st
        /\ TopologyProofs.endpoint st' e lt = Some nodeID
        /\ TopologyProofs.endpoint st' e (otherSide lt) = TopologyProofs.endpoint st e (otherSide lt)
        /\ (forall e', e' <> e -> fromN st' e' = fromN st e' /\ toN st' e' = toN st e')
        /\ setNodeSecure st' e nodeID lt <> None).
Proof.
  assert (Hne : forall o, opt_neqb o nodeID = true <-> exists m, o = Some m /\ m <> nodeID).
  { intros [m|]; cbn; split.
    - intros H. exists m. split; [reflexivity|]. intros ->. rewrite String.eqb_refl in H. discriminate.
    - intros (m' & [= <-] & Hm). apply Bool.negb_true_iff. apply String.eqb_neq. exact Hm.
    - discriminate.
    - intros (m' & [=] & _). }
  assert (Hupd : forall f e' v, e' <> e -> upd f e v e' = f e').
  { intros f e' v H. unfold upd. destruct (String.eqb_spec e' e); [contradiction|reflexivity]. }
  split.
  - unfold setNodeSecure. destruct (retrieve st nodeID) eqn:Hr; cbn [negb].
    + destruct lt; cbn [TopologyProofs.endpoint];
        match goal with |- context [opt_neqb ?o nodeID] => destruct (opt_neqb o nodeID) eqn:Ho end.
      all: try (apply Hne in Ho; split; [intros _; right; exact Ho|reflexivity]).
      all: split; [discriminate|]; intros [H|H]; [discriminate|]; apply Hne in H; congruence.
    + split; [left; reflexivity|reflexivity].
  - intros st' H. unfold setNodeSecure in H.
    destruct (retrieve st nodeID) eqn:Hr; cbn [negb] in H; [|discriminate].
    destruct lt; cbn [TopologyProofs.endpoint otherSide].
    + destruct (opt_neqb (toN st e) nodeID); [discriminate|]. injection H as <-. cbn.
      split; [reflexivity|]. split; [unfold upd; rewrite String.eqb_refl; reflexivity|].
      split; [reflexivity|]. split; [intros e' He'; split; [reflexivity|apply Hupd; exact He']|].
      unfold setNodeSecure, retrieve. cbn. unfold retrieve in Hr. rewrite Hr. cbn [negb].
      unfold upd. rewrite String.eqb_refl. cbn. rewrite String.eqb_refl. discriminate.
    + destruct (opt_neqb (fromN st e) nodeID); [discriminate|]. injection H as <-. cbn.
      split; [reflexivity|]. split; [unfold upd; rewrite String.eqb_refl; reflexivity|].
      split; [reflexivity|]. split; [intros e' He'; split; [apply Hupd; exact He'|reflexivity]|].
      unfold setNodeSecure, retrieve. cbn. unfold retrieve in Hr. rewrite Hr. cbn [negb].
      unfold upd. rewrite String.eqb_refl. cbn. rewrite String.eqb_refl. discriminate.
Qed.

End SetNodeProofs.

Module ConnectedProofs.

Import Sections Connected.

(** laneSectionsConnected never reads the last lane section of the road:
    replacing it by any other section gives the same answer. *)
Theorem laneSectionsConnected_ignores_last (secs : list OpenDriveLaneSection)
    (last1 last2 : OpenDriveLaneSection) (in_ out : Z) :
  laneSectionsConnected (secs ++ [last1])%list in_ out
  = laneSectionsConnected (secs ++ [last2])%list in_ out.
Proof.
  unfold laneSectionsConnected. rewrite !length_app, !removelast_last. reflexivity.
Qed.

Lemma followLanes_straight (lanes : list OpenDriveLane) : forall in_,
  (forall l, In l lanes -> successor l = l_id l) -> followLanes lanes in_ = in_.
Proof.
  unfold followLanes.
  induction lanes as [|l rest IH]; intros in_ H; [reflexivity|]. cbn [fold_left].
  destruct (Z.eqb_spec (l_id l) in_) as [E|E].
  - rewrite (H l (or_introl eq_refl)), E. apply IH. intros; apply H; right; assumption.
  - apply IH. intros; apply H; right; assumption.
Qed.

(** When every lane of the sections before the last one continues into
    the lane with its own id ([successor == id]), laneSectionsConnected
    holds exactly for [in == out]. *)
Theorem laneSectionsConnected_straight (secs : list OpenDriveLaneSection) (in_ out : Z) :
  (forall sec l, In sec (removelast secs) -> In l (rightLanes sec ++ leftLanes sec)%list ->
     successor l = l_id l) ->
  laneSectionsConnected secs in_ out = Z.eqb in_ out.
Proof.
  intros H. unfold laneSectionsConnected. destruct (Nat.eqb _ 1); [reflexivity|].
  f_equal. generalize in_. induction (removelast secs) as [|sec rest IH]; intros x; [reflexivity|].
  cbn [fold_left]. rewrite (followLanes_straight (rightLanes sec)), (followLanes_straight (leftLanes sec)).
  - apply IH. intros sec' l Hs Hl. apply (H sec' l); [right|]; assumption.
  - intros l Hl. apply (H sec l); [left; reflexivity|]. apply in_or_app. right. exact Hl.
  - intros l Hl. apply (H sec l); [left; reflexivity|]. apply in_or_app. left. exact Hl.
Qed.

Definition straightLane (id : Z) : OpenDriveLane := mkLane id "driving" [] 0 id id.

Lemma laneSectionsConnected_straight_witness :
  laneSectionsConnected
    [SectionsProofs.secAt 0 [straightLane 1%Z] [straightLane (-1)%Z] [];
     SectionsProofs.secAt 10 [] [] []] (-1)%Z (-1)%Z = true.
Proof.
  rewrite laneSectionsConnected_straight; [reflexivity|].
  intros sec l [<-|[]] Hl. cbn in Hl. destruct Hl as [<-|[<-|[]]]; reflexivity.
Defined.

End ConnectedProofs.
